(** * send_email.py: the recipient pipeline and the message builder

    A shallow embedding of [send_email.py] and the properties of its
    validation, templating, message construction and delivery loop.

    Conventions.
    - A Python [str] is a [string]; each [ascii] is read as the Unicode
      code point of the same number, so the strings covered are those whose
      code points lie below 256.  Whitespace, lower-casing and the decimal
      digits are Python's, restricted to that range.
    - A Python [float] is a binary64 [float] of the kernel, so the delay
      [60.0 / rate] is computed as Python computes it.
    - Library calls whose result depends on the outside (files, clock, SMTP
      server, MIME type table) are fields of a [world] record.
    - Log lines and external calls are recorded, in program order, as
      [event]s.
    - An exception that the program does not catch ends the run; the run
      then ends as [Uncaught].  [str.format] is modelled for literal text,
      doubled braces and fields that are plain names; a template with any
      other field ends the run of the model as [OutsideModel].
    - The library is CPython 3.11 on Linux: [str.format] called with a
      dict leaves the keys that are not strings alone, [time.sleep] sleeps
      until a deadline on the monotonic clock, and serialising a multipart
      message sets its boundaries. *)

From Stdlib Require Import ZArith Ascii String List Bool Lia.
From Stdlib Require Import Floats.PrimFloat Floats.SpecFloat Floats.FloatOps Floats.FloatAxioms.
From Stdlib Require Import Numbers.DecimalString.
From stdpp Require Import base strings gmap.

Import ListNotations.
Local Open Scope bool_scope.

(** stdpp keeps [String.append] folded; the proofs below compute with it. *)
Arguments String.append !s1 s2 : simpl nomatch.
Set Warnings "-inexact-float,-clear-no-such-hyp".

(* ===================================================================== *)
(** ** Python strings *)
(* ===================================================================== *)

Module PyStr.

(** [str.isspace] on one character, code points below 256:
    TAB..CR, FS..US, space, NEL and NBSP.  The [re] class [\s] of a [str]
    pattern is the same set. *)
Definition isspace (c : ascii) : bool :=
  let n := N_of_ascii c in
  ((9 <=? n) && (n <=? 13) || (28 <=? n) && (n <=? 32)
   || (n =? 133) || (n =? 160))%N.

(** [str.lower] on one character: A-Z, and the Latin-1 capitals
    U+00C0..U+00DE except the multiplication sign U+00D7. *)
Definition lower_char (c : ascii) : ascii :=
  let n := N_of_ascii c in
  if ((65 <=? n) && (n <=? 90)
      || (192 <=? n) && (n <=? 222) && negb (n =? 215))%N
  then ascii_of_N (n + 32) else c.

Fixpoint lower (s : string) : string :=
  match s with
  | EmptyString => EmptyString
  | String c r => String (lower_char c) (lower r)
  end.

Fixpoint lstrip (s : string) : string :=
  match s with
  | EmptyString => EmptyString
  | String c r => if isspace c then lstrip r else s
  end.

Fixpoint rstrip (s : string) : string :=
  match s with
  | EmptyString => EmptyString
  | String c r =>
      match rstrip r with
      | EmptyString => if isspace c then EmptyString else String c EmptyString
      | r' => String c r'
      end
  end.

(** [s.strip()] *)
Definition strip (s : string) : string := rstrip (lstrip s).

(** Truth value of a [str]: non-empty. *)
Definition truthy (s : string) : bool :=
  match s with EmptyString => false | _ => true end.

Fixpoint forallb (p : ascii -> bool) (s : string) : bool :=
  match s with
  | EmptyString => true
  | String c r => p c && forallb p r
  end.

Fixpoint existsb (p : ascii -> bool) (s : string) : bool :=
  match s with
  | EmptyString => false
  | String c r => p c || existsb p r
  end.

Fixpoint count (p : ascii -> bool) (s : string) : nat :=
  match s with
  | EmptyString => 0
  | String c r => (if p c then 1 else 0) + count p r
  end.

(** [s.endswith(t)] *)
Fixpoint endswith (s t : string) : bool :=
  String.eqb s t || match s with
                    | EmptyString => false
                    | String _ r => endswith r t
                    end.

(** [s in (t1, t2, ...)] for a tuple of strings. *)
Definition in_tuple (s : string) (t : list string) : bool :=
  List.existsb (String.eqb s) t.

End PyStr.

(* ===================================================================== *)
(** ** Regular expressions of the [re] module *)
(* ===================================================================== *)

Module Re.

(** The fragment of pattern syntax the program uses: character classes,
    concatenation and [+]; [Void], [Eps], [Alt] and [Star] are what the
    derivative of that fragment needs. *)
Inductive regex : Type :=
| Void
| Eps
| Class (p : ascii -> bool)
| Seq (r1 r2 : regex)
| Alt (r1 r2 : regex)
| Star (r : regex).

Definition Plus (r : regex) : regex := Seq r (Star r).
Definition Chr (c : ascii) : regex := Class (Ascii.eqb c).

Fixpoint nullable (r : regex) : bool :=
  match r with
  | Void => false
  | Eps => true
  | Class _ => false
  | Seq r1 r2 => nullable r1 && nullable r2
  | Alt r1 r2 => nullable r1 || nullable r2
  | Star _ => true
  end.

Fixpoint deriv (c : ascii) (r : regex) : regex :=
  match r with
  | Void => Void
  | Eps => Void
  | Class p => if p c then Eps else Void
  | Seq r1 r2 =>
      Alt (Seq (deriv c r1) r2) (if nullable r1 then deriv c r2 else Void)
  | Alt r1 r2 => Alt (deriv c r1) (deriv c r2)
  | Star r1 => Seq (deriv c r1) (Star r1)
  end.

(** Where [$] matches without [re.MULTILINE]: at the end of the string and
    just before a line feed that ends the string. *)
Definition at_dollar (rest : string) : bool :=
  match rest with
  | EmptyString => true
  | String c EmptyString => Ascii.eqb c "010"
  | _ => false
  end.

(** [re.match(r"^r$", s) is not None]: some prefix of [s] matches [r] and
    [$] matches where that prefix ends. *)
Fixpoint match_dollar (r : regex) (s : string) : bool :=
  nullable r && at_dollar s
  || match s with
     | EmptyString => false
     | String c s' => match_dollar (deriv c r) s'
     end.

(** The language of a pattern. *)
Inductive matches : regex -> string -> Prop :=
| m_eps : matches Eps EmptyString
| m_class p c : p c = true -> matches (Class p) (String c EmptyString)
| m_seq r1 r2 u v : matches r1 u -> matches r2 v -> matches (Seq r1 r2) (u +:+ v)
| m_alt_l r1 r2 u : matches r1 u -> matches (Alt r1 r2) u
| m_alt_r r1 r2 u : matches r2 u -> matches (Alt r1 r2) u
| m_star_nil r : matches (Star r) EmptyString
| m_star_cons r u v :
    matches r u -> matches (Star r) v -> matches (Star r) (u +:+ v).

End Re.

(* ===================================================================== *)
(** ** [is_valid_email] *)
(* ===================================================================== *)

(** [[^@\s]] *)
Definition addr_char (c : ascii) : bool :=
  negb (Ascii.eqb c "@") && negb (PyStr.isspace c).

(** [[^@\s]+@[^@\s]+\.[^@\s]+], the pattern between [^] and [$]. *)
Definition email_re : Re.regex :=
  Re.Seq (Re.Plus (Re.Class addr_char))
    (Re.Seq (Re.Chr "@")
       (Re.Seq (Re.Plus (Re.Class addr_char))
          (Re.Seq (Re.Chr ".") (Re.Plus (Re.Class addr_char))))).

Definition is_valid_email (address : string) : bool :=
  if negb (PyStr.truthy address) then false
  else Re.match_dollar email_re address.

(** *** The vocabulary of the address properties *)

Definition LF : string := String "010" EmptyString.

Definition is_at (c : ascii) : bool := Ascii.eqb c "@".
Definition is_dot (c : ascii) : bool := Ascii.eqb c ".".

(** What follows the first [@]. *)
Fixpoint after_at (s : string) : string :=
  match s with
  | EmptyString => EmptyString
  | String c r => if is_at c then r else after_at r
  end.

(** The test as the specification words it: not empty or blank, exactly
    one [@], no whitespace, a dot after the [@]. *)
Definition spec_is_valid_email (address : string) : bool :=
  if PyStr.forallb PyStr.isspace address then false
  else (PyStr.count is_at address =? 1)%nat
       && negb (PyStr.existsb PyStr.isspace address)
       && PyStr.existsb is_dot (after_at address).

(** [local@d1.d2] with none of the three empty, exactly one [@] and no
    whitespace. *)
Definition address_shape (s : string) : Prop :=
  exists local d1 d2 : string,
    s = local +:+ "@" +:+ d1 +:+ "." +:+ d2
    /\ local <> EmptyString /\ d1 <> EmptyString /\ d2 <> EmptyString
    /\ PyStr.count is_at s = 1
    /\ PyStr.existsb PyStr.isspace s = false.

(* ===================================================================== *)
(** ** Exceptions and values *)
(* ===================================================================== *)

(** The exception classes that can leave a function of the program. *)
Inductive exn : Type :=
| ValueError
| IndexError
| AttributeError
| OverflowError
| UnicodeError
| OSError.

(** What [csv.DictReader] stores under a column name: the field, or
    [None] (its [restval]) where the line was shorter than the header. *)
Inductive pyval : Type :=
| PStr (s : string)
| PNone.

(** [format(v, "")] *)
Definition str_of (v : pyval) : string :=
  match v with
  | PStr s => s
  | PNone => "None"
  end.

(** A row of [csv.DictReader]: the named columns in header order, and
    whether the line had surplus fields, which the reader stores as a list
    under the key [None] (its [restkey]). *)
Record row : Type := mkRow {
  cols : list (string * pyval);
  rest : bool
}.

Definition empty_row : row := mkRow [] false.

(** Truth value of the dict. *)
Definition row_truthy (r : row) : bool :=
  match cols r with
  | [] => rest r
  | _ :: _ => true
  end.

Fixpoint assoc {A : Type} (k : string) (l : list (string * A)) : option A :=
  match l with
  | [] => None
  | (k', v) :: l' => if String.eqb k k' then Some v else assoc k l'
  end.

(** [row.get(key, "")] *)
Definition row_get (r : row) (key : string) : pyval :=
  match assoc key (cols r) with
  | Some v => v
  | None => PStr EmptyString
  end.

(** [v.strip()]: [None] has no such method. *)
Definition val_strip (v : pyval) : exn + string :=
  match v with
  | PStr s => inr (PyStr.strip s)
  | PNone => inl AttributeError
  end.

(* ===================================================================== *)
(** ** [str.format] and [render_template] *)
(* ===================================================================== *)

Module Format.

(** The keyword arguments that [template.format] receives from the
    [variables] dict. *)
Record kwargs : Type := mkKw {
  vars : list (string * pyval);
  none_key : bool          (* the dict has the key [None] *)
}.

Inductive result : Type :=
| Rendered (s : string)
| KeyError (key : string)
| Raises (e : exn)
| Unmodelled.

Definition emit (c : ascii) (r : result) : result :=
  match r with
  | Rendered s => Rendered (String c s)
  | other => other
  end.

Definition emit_str (t : string) (r : result) : result :=
  match r with
  | Rendered s => Rendered (t +:+ s)
  | other => other
  end.

Definition is_decimal (c : ascii) : bool :=
  let n := N_of_ascii c in ((48 <=? n) && (n <=? 57))%N.

Fixpoint digits_value (acc : N) (s : string) : N :=
  match s with
  | EmptyString => acc
  | String c r => digits_value (acc * 10 + (N_of_ascii c - 48))%N r
  end.

(** Looking up the object a replacement field names, with no positional
    arguments: an empty or all-digit name is a positional index. *)
Definition get_field (kw : list (string * pyval)) (name : string)
  : result :=
  if PyStr.forallb is_decimal name then
    if (digits_value 0 name <=? 9223372036854775807)%N
    then Raises IndexError else Raises ValueError
  else
    match assoc name kw with
    | Some v => Rendered (str_of v)
    | None => KeyError name
    end.

Inductive mode : Type :=
| Text
| Field (name : string).

(** The markup scanner of [str.format], left to right.  In [Field name]
    mode the characters read since the opening brace are [name].
    Replacement fields with a conversion ([!]), a format specification
    ([:]), an attribute ([.]) or an index ([[]) are outside the model. *)
Fixpoint scan (kw : list (string * pyval)) (m : mode) (s : string)
  : result :=
  match m with
  | Text =>
      match s with
      | EmptyString => Rendered EmptyString
      | String "{" EmptyString => Raises ValueError
      | String "{" (String "{" r) => emit "{" (scan kw Text r)
      | String "{" r => scan kw (Field EmptyString) r
      | String "}" (String "}" r) => emit "}" (scan kw Text r)
      | String "}" _ => Raises ValueError
      | String c r => emit c (scan kw Text r)
      end
  | Field name =>
      match s with
      | EmptyString => Raises ValueError
      | String "}" r =>
          match get_field kw name with
          | Rendered v => emit_str v (scan kw Text r)
          | other => other
          end
      | String "{" _ => Raises ValueError
      | String "[" _ | String "." _ | String "!" _ | String ":" _ =>
          Unmodelled
      | String c r => scan kw (Field (name +:+ String c EmptyString)) r
      end
  end.

(** [template.format] with the dict as keyword arguments.  A field name is
    a string, so only the string keys are ever looked up: the key [None]
    of a row with surplus fields is passed along and never used. *)
Definition format (template : string) (kw : kwargs) : result :=
  scan (vars kw) Text template.

(** *** [repr] of a [str], for the text of a [KeyError] *)

Definition hex_digit (n : N) : ascii :=
  if (n <? 10)%N then ascii_of_N (48 + n) else ascii_of_N (87 + n).

Definition printable (c : ascii) : bool :=
  let n := N_of_ascii c in
  ((32 <=? n) && (n <? 127) || (161 <=? n) && negb (n =? 173))%N.

Definition repr_char (quote : ascii) (c : ascii) : string :=
  if Ascii.eqb c quote || Ascii.eqb c "\" then String "\" (String c EmptyString)
  else if Ascii.eqb c "009" then "\t"
  else if Ascii.eqb c "010" then "\n"
  else if Ascii.eqb c "013" then "\r"
  else if printable c then String c EmptyString
  else let n := N_of_ascii c in
       String "\" (String "x" (String (hex_digit (n / 16))
                                 (String (hex_digit (n mod 16)) EmptyString))).

Fixpoint repr_body (quote : ascii) (s : string) : string :=
  match s with
  | EmptyString => EmptyString
  | String c r => repr_char quote c +:+ repr_body quote r
  end.

Definition dquote : ascii := "034".

Definition repr (s : string) : string :=
  let quote : ascii :=
    if PyStr.existsb (Ascii.eqb "'") s && negb (PyStr.existsb (Ascii.eqb dquote) s)
    then dquote else "'"%char in
  String quote (repr_body quote s +:+ String quote EmptyString).

Fixpoint lstrip_chr (q : ascii) (s : string) : string :=
  match s with
  | EmptyString => EmptyString
  | String c r => if Ascii.eqb c q then lstrip_chr q r else s
  end.

Fixpoint rstrip_chr (q : ascii) (s : string) : string :=
  match s with
  | EmptyString => EmptyString
  | String c r =>
      match rstrip_chr q r with
      | EmptyString => if Ascii.eqb c q then EmptyString else String c EmptyString
      | r' => String c r'
      end
  end.

(** [str(e).strip("'")] for [e = KeyError(key)]. *)
Definition missing_text (key : string) : string :=
  rstrip_chr "'" (lstrip_chr "'" (repr key)).

End Format.

(** *** Templates by their pieces *)

Module Template.

(** A template whose replacement fields are plain names: literal
    characters and named holes. *)
Inductive piece : Type :=
| Lit (c : ascii)
| Hole (name : string).

Definition is_brace (c : ascii) : bool := Ascii.eqb c "{" || Ascii.eqb c "}".

(** The text of a piece in a format string: a literal brace is doubled. *)
Definition unparse_piece (p : piece) : string :=
  match p with
  | Lit c => if is_brace c then String c (String c EmptyString)
             else String c EmptyString
  | Hole name => "{" +:+ name +:+ "}"
  end.

Fixpoint unparse (ps : list piece) : string :=
  match ps with
  | [] => EmptyString
  | p :: ps' => unparse_piece p +:+ unparse ps'
  end.

Definition name_char (c : ascii) : bool :=
  negb (List.existsb (Ascii.eqb c)
          ["{"; "}"; "["; "."; "!"; ":"]%char).

(** A field name that is looked up among the keyword arguments as it
    stands: not a positional index, no markup character. *)
Definition plain_name (name : string) : bool :=
  negb (PyStr.forallb Format.is_decimal name) && PyStr.forallb name_char name.

Definition plain (p : piece) : bool :=
  match p with
  | Lit _ => true
  | Hole name => plain_name name
  end.

(** Filling the holes from left to right: the text, or the name of the
    first hole that has no value. *)
Fixpoint expand (vars : list (string * pyval)) (ps : list piece)
  : string + string :=
  match ps with
  | [] => inr EmptyString
  | Lit c :: ps' =>
      match expand vars ps' with
      | inr s => inr (String c s)
      | inl k => inl k
      end
  | Hole name :: ps' =>
      match assoc name vars with
      | None => inl name
      | Some v =>
          match expand vars ps' with
          | inr s => inr (str_of v +:+ s)
          | inl k => inl k
          end
      end
  end.


End Template.

(** The ways [render_template] ends: a string; [logging.error] with the
    missing name followed by [sys.exit(1)]; an exception it does not
    catch; a template outside the modelled fragment of [str.format]. *)
Inductive rendering : Type :=
| RText (s : string)
| RExit (missing : string)
| RRaise (e : exn)
| RUnmodelled.

Definition render_template (template_str : string) (variables : Format.kwargs)
  : rendering :=
  match Format.format template_str variables with
  | Format.Rendered s => RText s
  | Format.KeyError key => RExit (Format.missing_text key)
  | Format.Raises e => RRaise e
  | Format.Unmodelled => RUnmodelled
  end.

(* ===================================================================== *)
(** ** Messages, the outside world, events *)
(* ===================================================================== *)

Inductive disposition : Type :=
| Inline
| Attachment.

(** A MIME part made from a file. *)
Record mime_part : Type := mkPart {
  part_disposition : disposition;
  part_maintype : string;
  part_subtype : string;
  part_filename : string;
  part_content_id : option string;
  part_payload : string
}.

(** The [multipart/mixed] message: its headers in the order they are set,
    the bodies of its [multipart/alternative] child as (subtype, text),
    the file parts attached after it, and the boundaries of the child and
    of the message itself, which a multipart object has only once it has
    been serialised. *)
Record message : Type := mkMsg {
  headers : list (string * string);
  alternative : list (string * string);
  parts : list mime_part;
  boundaries : option (string * string)
}.

(** [msg.attach(part)] *)
Definition msg_attach (msg : message) (p : mime_part) : message :=
  mkMsg (headers msg) (alternative msg) (parts msg ++ [p]) (boundaries msg).

(** [msg[name]] *)
Definition header (name : string) (msg : message) : option string :=
  assoc name (headers msg).

Inductive read_result : Type :=
| ReadOk (data : string)
| ReadNotFound              (* FileNotFoundError *)
| ReadError.                (* any other exception *)

(** What the run depends on outside the program.  The SMTP server, the
    clock and [make_msgid] are asked once per recipient and are indexed by
    the recipient's position in the run (1 for the first). *)
Record world : Type := mkWorld {
  w_env_username : option string;
  w_env_password : option string;
  (** [MAIL_PORT]: unset or empty; set to text [int] rejects; a number. *)
  w_env_port : option (option Z);
  (** [open(path, "r").read()] of a template; [None]: it raises. *)
  w_read_text : string -> option string;
  (** what [csv.DictReader] gives at each step: a row, or the exception
      reading it raises; [None]: [open] raises. *)
  w_read_csv : string -> option (list (exn + row));
  (** reading a file to attach and wrapping it in a MIME part. *)
  w_read_binary : string -> read_result;
  (** [mimetypes.guess_type(path)[0]], already split at the slash. *)
  w_guess_type : string -> option (string * string);
  (** the text [formataddr] makes of a name and an ASCII address. *)
  w_formataddr : string -> string -> string;
  w_make_msgid : nat -> string;
  (** [int(time.time())] *)
  w_clock : nat -> Z;
  (** the text of a message whose boundaries are set. *)
  w_as_string : message -> string;
  (** [os.makedirs], [open(dest, "w")] and [f.write] all succeed. *)
  w_write_eml : string -> bool;
  (** [smtplib.SMTP(...)], [starttls] and [login] all succeed. *)
  w_smtp_connect : bool;
  (** [smtp.send_message(msg)] returns; [false]: it raises. *)
  w_smtp_send : nat -> message -> bool;
  (** [time.monotonic_ns()] when [time.sleep] is entered. *)
  w_monotonic : nat -> Z;
  (** the boundaries the generator makes up for the alternative child and
      for the message. *)
  w_make_boundaries : nat -> string * string;
  (** where writing the file fails: [true] when [open] had succeeded, so
      that [msg.as_string()] was evaluated before [f.write] raised. *)
  w_eml_serialised : string -> bool
}.

(** Log lines and calls to the outside, in program order. *)
Inductive event : Type :=
| LogDryRunMode
| LogMissingCredentials
| LogConnectFailed
| LogTemplateReadFailed (path : string)
| LogInvalid (addr : string)
| LogDuplicate (addr : string)
| LogNoConsent (addr : string)
| LogMissingVariable (missing : string)
| LogAttached (filename : string)
| LogAttachmentMissing (path : string)
| LogAttachmentError (path : string)
| LogInlined (filename cid : string)
| LogInlineMissing (path : string)
| LogInlineError (path : string)
| WriteFile (dest content : string)
| LogEmlSaved (dest : string)
| LogEmlFailed
| SmtpSend (msg : message)
| LogSent (addr : string)
| LogSendFailed (addr : string)
| LogDryRun (addr : string)
| Sleep (seconds : float)
| SmtpQuit
| LogDone (total sent skipped : nat).

(* ===================================================================== *)
(** ** Attaching files and building the message *)
(* ===================================================================== *)

Definition guess_mime_type (w : world) (path : string) : string * string :=
  match w_guess_type w path with
  | None => ("application", "octet-stream")
  | Some (maintype, subtype) => (maintype, subtype)
  end.

(** [os.path.basename] *)
Fixpoint basename (path : string) : string :=
  match path with
  | EmptyString => EmptyString
  | String _ r =>
      if PyStr.existsb (Ascii.eqb "/") path then basename r else path
  end.

(** [os.path.join(dir, name)] for a non-empty [dir]. *)
Definition path_join (dir name : string) : string :=
  match name with
  | String "/" _ => name
  | _ => if PyStr.endswith dir "/" then dir +:+ name else dir +:+ "/" +:+ name
  end.

(** The body is one [try] whose handlers catch [FileNotFoundError] and
    every other [Exception]: the function returns in all cases, with the
    part attached only when the file was read. *)
Definition attach_regular (w : world) (msg : message) (path : string)
  : list event * message :=
  let '(maintype, subtype) := guess_mime_type w path in
  let filename := basename path in
  match w_read_binary w path with
  | ReadOk data =>
      let part := mkPart Attachment maintype subtype filename None data in
      ([LogAttached filename], msg_attach msg part)
  | ReadNotFound => ([LogAttachmentMissing path], msg)
  | ReadError => ([LogAttachmentError path], msg)
  end.

(** The same [try], returning the content-ID, or the empty string when
    nothing was attached. *)
Definition attach_inline (w : world) (msg : message) (path : string)
  : list event * message * string :=
  let '(maintype, subtype) := guess_mime_type w path in
  let filename := basename path in
  match w_read_binary w path with
  | ReadOk data =>
      let cid := filename in
      let part := mkPart Inline maintype subtype filename (Some cid) data in
      ([LogInlined filename cid], msg_attach msg part, cid)
  | ReadNotFound => ([LogInlineMissing path], msg, EmptyString)
  | ReadError => ([LogInlineError path], msg, EmptyString)
  end.

(** [[a-zA-Z0-9_.-]] *)
Definition eml_safe (c : ascii) : bool :=
  let n := N_of_ascii c in
  ((97 <=? n) && (n <=? 122) || (65 <=? n) && (n <=? 90)
   || (48 <=? n) && (n <=? 57) || (n =? 95) || (n =? 46) || (n =? 45))%N.

(** [re.sub] of a pattern that is one negated character class: every
    character outside [keep] is replaced by [repl]. *)
Fixpoint re_sub_not (keep : ascii -> bool) (repl : string) (s : string)
  : string :=
  match s with
  | EmptyString => EmptyString
  | String c r =>
      (if keep c then String c EmptyString else repl)
      +:+ re_sub_not keep repl r
  end.

(** [str(n)] of an [int]. *)
Definition str_of_int (n : Z) : string :=
  NilZero.string_of_int (Z.to_int n).

(** The file name of a saved message. *)
Definition eml_filename (to_addr : string) (now : Z) : string :=
  re_sub_not eml_safe "_" (to_addr +:+ "_" +:+ str_of_int now +:+ ".eml").

Definition truthy_opt (o : option string) : bool :=
  match o with
  | Some s => PyStr.truthy s
  | None => false
  end.

(** [x or y] on optional strings. *)
Definition or_else (x y : option string) : option string :=
  if truthy_opt x then x else y.

Definition inline_loop (w : world) (inline_paths : list string)
  (acc : list event * message * gmap string string)
  : list event * message * gmap string string :=
  fold_left
    (fun '(ev, msg, cid_map) p =>
       let '(ev', msg', cid) := attach_inline w msg p in
       (ev ++ ev', msg',
        if PyStr.truthy cid then <[basename p := cid]> cid_map else cid_map))
    inline_paths acc.

Definition attach_loop (w : world) (attach_paths : list string)
  (acc : list event * message) : list event * message :=
  fold_left
    (fun '(ev, msg) p =>
       let '(ev', msg') := attach_regular w msg p in (ev ++ ev', msg'))
    attach_paths acc.

(** What [msg.as_string()] does to the message: the generator gives the
    alternative child and the message a boundary each, unless they have
    one, and sets it on the objects themselves. *)
Definition serialise (w : world) (n : nat) (msg : message) : message :=
  match boundaries msg with
  | Some _ => msg
  | None =>
      mkMsg (headers msg) (alternative msg) (parts msg)
        (Some (w_make_boundaries w n))
  end.

(** Writing the message to [save_eml_dir]; [n] is the recipient's
    position.  The message comes back as the [try] block leaves it:
    serialised when [msg.as_string()] was reached, untouched when
    [os.makedirs] or [open] raised before. *)
Definition save_eml (w : world) (n : nat) (msg : message)
  (to_addr : string) (save_eml_dir : option string)
  : list event * message :=
  match save_eml_dir with
  | Some dir =>
      if PyStr.truthy dir then
        let filename := eml_filename to_addr (w_clock w n) in
        let dest := path_join dir filename in
        if w_write_eml w dest
        then ([WriteFile dest (w_as_string w (serialise w n msg));
               LogEmlSaved dest], serialise w n msg)
        else ([LogEmlFailed],
              if w_eml_serialised w dest then serialise w n msg else msg)
      else ([], msg)
  | None => ([], msg)
  end.

Definition is_ascii (c : ascii) : bool := (N_of_ascii c <? 128)%N.

(** [email.utils.formataddr((name, address))]: the address must encode
    as ASCII. *)
Definition formataddr (w : world) (name address : string) : exn + string :=
  if PyStr.forallb is_ascii address then
    inr (if PyStr.truthy name then w_formataddr w name address else address)
  else inl UnicodeError.

(** [formataddr((from_name, from_addr)) if from_name else from_addr] *)
Definition from_header (w : world) (from_name from_addr : string)
  : exn + string :=
  if PyStr.truthy from_name then formataddr w from_name from_addr
  else inr from_addr.

Definition build_message (w : world) (n : nat)
  (from_name from_addr to_addr subject text_body html_body : string)
  (inline_paths attach_paths : list string)
  (reply_to unsubscribe save_eml_dir : option string)
  : exn + list event * (message * gmap string string) :=
  match from_header w from_name from_addr with
  | inl e => inl e
  | inr from =>
      let hdrs :=
        [("From", from);
         ("To", to_addr);
         ("Subject", subject);
         ("Message-ID", w_make_msgid w n)]
        ++ (if truthy_opt reply_to then [("Reply-To", default "" reply_to)]
            else [])
        ++ (if truthy_opt unsubscribe
            then [("List-Unsubscribe", default "" unsubscribe)] else []) in
      let alt :=
        (if PyStr.truthy text_body then [("plain", text_body)] else [])
        ++ (if PyStr.truthy html_body then [("html", html_body)] else []) in
      let msg := mkMsg hdrs alt [] None in
      let '(ev1, msg1, cid_map) := inline_loop w inline_paths ([], msg, ∅) in
      let '(ev2, msg2) := attach_loop w attach_paths (ev1, msg1) in
      let '(ev3, msg3) := save_eml w n msg2 to_addr save_eml_dir in
      inr (ev2 ++ ev3, (msg3, cid_map))
  end.

(** *** The vocabulary of the builder properties *)

Definition readable (w : world) (path : string) : bool :=
  match w_read_binary w path with
  | ReadOk _ => true
  | _ => false
  end.

(** The part a path contributes to a message: none when it cannot be read. *)
Definition part_of (w : world) (d : disposition) (path : string)
  : list mime_part :=
  match w_read_binary w path with
  | ReadOk data =>
      [mkPart d (fst (guess_mime_type w path)) (snd (guess_mime_type w path))
         (basename path)
         (match d with Inline => Some (basename path) | Attachment => None end)
         data]
  | _ => []
  end.

Definition file_parts (w : world) (d : disposition) (paths : list string)
  : list mime_part :=
  flat_map (part_of w d) paths.

(* ===================================================================== *)
(** ** The command line *)
(* ===================================================================== *)

Module Args.

(** The namespace [argparse] returns.  [to] is the empty string when
    [--to] is not given ([is_valid_email] rejects [None] and the empty
    string alike); [attach] and [inline] are empty when not given. *)
Record t : Type := mk {
  to : string;
  name : option string;
  csv : option string;
  email_field : string;
  name_field : string;
  consent_field : string;
  require_consent : bool;
  subject : string;
  from_addr : option string;
  from_name : string;
  reply_to : option string;
  unsubscribe : option string;
  template_text : option string;
  template_html : option string;
  attach : list string;
  inline : list string;
  save_eml_dir : option string;
  port : option Z;
  username : option string;
  password : option string;
  rate_per_minute : option float;
  dry_run : bool
}.

End Args.

(* ===================================================================== *)
(** ** [send_messages] *)
(* ===================================================================== *)

(** The local variables of [send_messages] that the loop updates. *)
Record state : Type := mkState {
  total : nat;
  sent : nat;
  skipped : nat;
  seen : gset string
}.

Definition initial : state := mkState 0 0 0 ∅.

Definition count_total (st : state) : state :=
  mkState (S (total st)) (sent st) (skipped st) (seen st).
Definition count_sent (st : state) : state :=
  mkState (total st) (S (sent st)) (skipped st) (seen st).
Definition count_skipped (st : state) : state :=
  mkState (total st) (sent st) (S (skipped st)) (seen st).
Definition seen_add (addr : string) (st : state) : state :=
  mkState (total st) (sent st) (skipped st) ({[addr]} ∪ seen st).

(** How the function ends: it returns; [sys.exit(1)]; an exception nobody
    catches; a template outside the modelled fragment of [str.format]. *)
Inductive termination : Type :=
| Completed
| SysExit
| Uncaught (e : exn)
| OutsideModel.

(** After one recipient: go on with the next, or leave the function. *)
Inductive control : Type :=
| Next
| Stop (t : termination).

(** What [iter_recipients] yields. *)
Definition recipient : Type := string * string * row.

(** What the statements before the loop compute. *)
Record setup : Type := mkSetup {
  su_username : option string;
  su_template_text : string;
  su_template_html : string;
  su_rate_delay : float
}.

Definition default_text : string :=
  "Hi {name}," +:+ String "010" (String "010" "This is a friendly message.")
  +:+ String "010" EmptyString.
Definition default_html : string :=
  "<p>Hi <strong>{name}</strong>,</p><p>This is a friendly message.</p>".

(** Truth value of a [float]: not zero (a NaN is true). *)
Definition float_truthy (x : float) : bool := negb (PrimFloat.eqb x 0).

Definition rate_delay (a : Args.t) : float :=
  match Args.rate_per_minute a with
  | Some r =>
      if float_truthy r && PrimFloat.ltb 0 r then PrimFloat.div 60 r
      else 0%float
  | None => 0%float
  end.

(** The integer next to a float on the side away from zero, the rounding
    of a timeout ([_PyTime_ROUND_UP]); for a finite float. *)
Definition round_away (f : float) : Z :=
  match Prim2SF f with
  | S754_finite s m e =>
      let v := if (0 <=? e)%Z then (Z.pos m * 2 ^ e)%Z
               else ((Z.pos m + 2 ^ (- e) - 1) / 2 ^ (- e))%Z in
      if s then (- v)%Z else v
  | _ => 0%Z
  end.

(** [time.sleep(d)], entered when the monotonic clock reads [now]
    nanoseconds.  A NaN is refused.  The delay becomes a number of
    nanoseconds, which must lie between -2^63 and 2^63 as a float; the
    conversion to a signed 64-bit integer turns 2^63 itself into -2^63,
    and a negative number is refused.  The function then sleeps until
    [now + ns] on the monotonic clock, and the system call rejects a
    deadline past 2^63 - 1, which has wrapped to a negative one. *)
Definition time_sleep (now : Z) (d : float) : option exn :=
  let ns := PrimFloat.mul d 1e9 in
  if negb (PrimFloat.eqb d d) then Some ValueError
  else if PrimFloat.leb (-0x1p63) ns && PrimFloat.leb ns 0x1p63 then
    if PrimFloat.ltb d 0 || PrimFloat.eqb ns 0x1p63 then Some ValueError
    else if (2 ^ 63 <=? now + round_away ns)%Z then Some OSError
    else None
  else Some OverflowError.

Definition csv_mode (a : Args.t) : bool := truthy_opt (Args.csv a).

Definition affirmative : list string := ["1"; "true"; "yes"; "y"].

(** The consent test of the loop: [inr true] lets the recipient through,
    [inr false] skips it, [inl] is the exception of [None.strip()]. *)
Definition consent_gate (a : Args.t) (r : row) : exn + bool :=
  if Args.require_consent a then
    match val_strip (if row_truthy r then row_get r (Args.consent_field a)
                     else PStr EmptyString) with
    | inl e => inl e
    | inr stripped =>
        let consent_value := PyStr.lower stripped in
        if csv_mode a && negb (PyStr.in_tuple consent_value affirmative)
        then inr false else inr true
    end
  else inr true.

Definition has_key (k : string) (l : list (string * pyval)) : bool :=
  match assoc k l with Some _ => true | None => false end.

(** The [variables] dict of one recipient. *)
Definition build_variables (email_addr name : string) (r : row)
  : Format.kwargs :=
  let base := [("name", PStr (if PyStr.truthy name then name else email_addr));
               ("email", PStr email_addr)] in
  if row_truthy r then
    Format.mkKw
      (fold_left (fun vs kv => if has_key (fst kv) vs then vs else vs ++ [kv])
         (cols r) base)
      (rest r)
  else Format.mkKw base false.

(** [render_template(tpl, variables) if tpl else ""] *)
Definition render_or_empty (tpl : string) (variables : Format.kwargs)
  : rendering :=
  if PyStr.truthy tpl then render_template tpl variables
  else RText EmptyString.

(** The last statement of the loop body. *)
Definition dispatch (a : Args.t) (w : world) (su : setup) (st : state)
  (email_addr : string) (msg : message) : list event * state :=
  if Args.dry_run a then ([LogDryRun email_addr], count_sent st)
  else if w_smtp_send w (total st) msg then
    let st1 := count_sent st in
    if PrimFloat.ltb 0 (su_rate_delay su) then
      match time_sleep (w_monotonic w (total st)) (su_rate_delay su) with
      | None =>
          ([SmtpSend msg; LogSent email_addr; Sleep (su_rate_delay su)], st1)
      | Some _ =>
          ([SmtpSend msg; LogSent email_addr; Sleep (su_rate_delay su);
            LogSendFailed email_addr], count_skipped st1)
      end
    else ([SmtpSend msg; LogSent email_addr], st1)
  else ([SmtpSend msg; LogSendFailed email_addr], count_skipped st).

Definition str_or_empty (o : option string) : string :=
  if truthy_opt o then default "" o else "".

(** [args.from_addr or username or ""] *)
Definition from_addr_of (a : Args.t) (su : setup) : string :=
  str_or_empty (or_else (Args.from_addr a) (su_username su)).

(** The call of [build_message] in the loop body. *)
Definition build_for (a : Args.t) (w : world) (su : setup) (st : state)
  (email_addr text_body html_body : string)
  : exn + list event * (message * gmap string string) :=
  build_message w (total st) (Args.from_name a) (from_addr_of a su)
    email_addr (Args.subject a) text_body html_body
    (Args.inline a) (Args.attach a)
    (Args.reply_to a) (Args.unsubscribe a) (Args.save_eml_dir a).

(** Rendering, building and dispatching, for a recipient past the gates. *)
Definition deliver (a : Args.t) (w : world) (su : setup) (st : state)
  (r : recipient) : list event * state * control :=
  let '(email_addr, name, row) := r in
  let variables := build_variables email_addr name row in
  match render_or_empty (su_template_text su) variables with
  | RExit missing => ([LogMissingVariable missing], st, Stop SysExit)
  | RRaise e => ([], st, Stop (Uncaught e))
  | RUnmodelled => ([], st, Stop OutsideModel)
  | RText text_body =>
      match render_or_empty (su_template_html su) variables with
      | RExit missing => ([LogMissingVariable missing], st, Stop SysExit)
      | RRaise e => ([], st, Stop (Uncaught e))
      | RUnmodelled => ([], st, Stop OutsideModel)
      | RText html_body =>
          match build_for a w su st email_addr text_body html_body with
          | inl e => ([], st, Stop (Uncaught e))
          | inr (ev, (msg, _)) =>
              let '(ev', st') := dispatch a w su st email_addr msg in
              (ev ++ ev', st', Next)
          end
      end
  end.

(** The body of the [for] loop. *)
Definition process (a : Args.t) (w : world) (su : setup) (st0 : state)
  (r : recipient) : list event * state * control :=
  let '(email_addr, name, row) := r in
  let st := count_total st0 in
  if negb (is_valid_email email_addr) then
    ([LogInvalid email_addr], count_skipped st, Next)
  else if bool_decide (email_addr ∈ seen st) then
    ([LogDuplicate email_addr], count_skipped st, Next)
  else
    let st := seen_add email_addr st in
    match consent_gate a row with
    | inl e => ([], st, Stop (Uncaught e))
    | inr false => ([LogNoConsent email_addr], count_skipped st, Next)
    | inr true => deliver a w su st r
    end.

(** One item of the generator [iter_recipients]: the triple it yields, or
    the exception of [.strip()] on a missing field. *)
Definition recipient_of_row (a : Args.t) (r : row) : exn + recipient :=
  let email_key :=
    if PyStr.truthy (Args.email_field a) then Args.email_field a else "email" in
  let name_key :=
    if PyStr.truthy (Args.name_field a) then Args.name_field a else "name" in
  match val_strip (row_get r email_key) with
  | inl e => inl e
  | inr email_addr =>
      match val_strip (row_get r name_key) with
      | inl e => inl e
      | inr name => inr (email_addr, name, r)
      end
  end.

(** [None]: [open(args.csv)] raises. *)
Definition iter_recipients (a : Args.t) (w : world)
  : option (list (exn + recipient)) :=
  if csv_mode a then
    match w_read_csv w (default "" (Args.csv a)) with
    | Some items =>
        Some (map (fun item => match item with
                               | inl e => inl e
                               | inr r => recipient_of_row a r
                               end) items)
    | None => None
    end
  else Some [inr (Args.to a, str_or_empty (Args.name a), empty_row)].

(** The [for] loop.  The events come grouped: one list for each recipient
    the body was entered for, in order. *)
Fixpoint loop (a : Args.t) (w : world) (su : setup) (st : state)
  (items : list (exn + recipient))
  : list (list event) * state * termination :=
  match items with
  | [] => ([], st, Completed)
  | inl e :: _ => ([], st, Uncaught e)
  | inr r :: items' =>
      let '(ev, st', c) := process a w su st r in
      match c with
      | Next =>
          let '(evs, st'', t) := loop a w su st' items' in
          (ev :: evs, st'', t)
      | Stop t => ([ev], st', t)
      end
  end.

(** [load_text(path) if path else default]; [None]: [sys.exit(1)]. *)
Definition load_template (w : world) (path : option string)
  (default_tpl : string) : option string :=
  if truthy_opt path then w_read_text w (default "" path) else Some default_tpl.

Definition port_is_int (a : Args.t) (w : world) : bool :=
  match Args.port a with
  | Some p => if (p =? 0)%Z then
                match w_env_port w with Some None => false | _ => true end
              else true
  | None => match w_env_port w with Some None => false | _ => true end
  end.

Definition send_messages (a : Args.t) (w : world)
  : list event * state * termination :=
  let username := or_else (Args.username a) (w_env_username w) in
  let password := or_else (Args.password a) (w_env_password w) in
  if negb (port_is_int a w) then ([], initial, Uncaught ValueError) else
  let ev0 := if Args.dry_run a then [LogDryRunMode] else [] in
  if negb (Args.dry_run a)
     && (negb (truthy_opt username) || negb (truthy_opt password))
  then (ev0 ++ [LogMissingCredentials], initial, SysExit)
  else if negb (Args.dry_run a) && negb (w_smtp_connect w)
  then (ev0 ++ [LogConnectFailed], initial, SysExit)
  else
    match load_template w (Args.template_text a) default_text with
    | None =>
        (ev0 ++ [LogTemplateReadFailed (default "" (Args.template_text a))],
         initial, SysExit)
    | Some template_text =>
        match load_template w (Args.template_html a) default_html with
        | None =>
            (ev0 ++ [LogTemplateReadFailed (default "" (Args.template_html a))],
             initial, SysExit)
        | Some template_html =>
            let su := mkSetup username template_text template_html
                        (rate_delay a) in
            match iter_recipients a w with
            | None => (ev0, initial, Uncaught OSError)
            | Some items =>
                let '(ev, st, t) := loop a w su initial items in
                match t with
                | Completed =>
                    (ev0 ++ concat ev
                     ++ (if Args.dry_run a then [] else [SmtpQuit])
                     ++ [LogDone (total st) (sent st) (skipped st)],
                     st, Completed)
                | _ => (ev0 ++ concat ev, st, t)
                end
            end
        end
    end.

(* ===================================================================== *)
(** ** The vocabulary of the loop properties *)
(* ===================================================================== *)

(** The events [build_message] can emit. *)
Definition builder_event (e : event) : bool :=
  match e with
  | LogAttached _ | LogAttachmentMissing _ | LogAttachmentError _
  | LogInlined _ _ | LogInlineMissing _ | LogInlineError _
  | WriteFile _ _ | LogEmlSaved _ | LogEmlFailed => true
  | _ => false
  end.

(** The log lines of the two first gates. *)
Definition gate_event (e : event) : bool :=
  match e with
  | LogInvalid _ | LogDuplicate _ => true
  | _ => false
  end.

(** The addresses of the messages handed to [smtp.send_message]. *)
Definition transport_addresses (ev : list event) : list string :=
  flat_map (fun e => match e with
                     | SmtpSend msg => [default "" (header "To" msg)]
                     | _ => []
                     end) ev.

(** The lengths of the pauses asked of [time.sleep]. *)
Definition pauses (ev : list event) : list float :=
  flat_map (fun e => match e with Sleep d => [d] | _ => [] end) ev.

(** A live send that returned: its log line is among the events. *)
Definition has_sent (ev : list event) : bool :=
  existsb (fun e => match e with LogSent _ => true | _ => false end) ev.

(** The addresses the generator yields. *)
Definition emails (items : list (exn + recipient)) : list string :=
  flat_map (fun i => match i with
                     | inr (email_addr, _, _) => [email_addr]
                     | inl _ => []
                     end) items.

Section Step.

Variables (a : Args.t) (w : world) (su : setup).

(** The ways one pass through the loop body can go, for the address
    [email_addr] met in state [st]: the events, the state after it and
    whether the loop goes on. *)
Inductive step (st : state) (email_addr : string)
  : list event -> state -> control -> Prop :=
| step_invalid :
    is_valid_email email_addr = false ->
    step st email_addr [LogInvalid email_addr]
      (count_skipped (count_total st)) Next
| step_duplicate :
    is_valid_email email_addr = true ->
    email_addr ∈ seen st ->
    step st email_addr [LogDuplicate email_addr]
      (count_skipped (count_total st)) Next
| step_no_consent :
    is_valid_email email_addr = true ->
    email_addr ∉ seen st ->
    step st email_addr [LogNoConsent email_addr]
      (count_skipped (seen_add email_addr (count_total st))) Next
| step_abort ev t :
    is_valid_email email_addr = true ->
    email_addr ∉ seen st ->
    ev = [] \/ (exists missing, ev = [LogMissingVariable missing]) ->
    t <> Completed ->
    step st email_addr ev (seen_add email_addr (count_total st)) (Stop t)
| step_dry_run evb :
    is_valid_email email_addr = true ->
    email_addr ∉ seen st ->
    forallb builder_event evb = true ->
    Args.dry_run a = true ->
    step st email_addr (evb ++ [LogDryRun email_addr])
      (count_sent (seen_add email_addr (count_total st))) Next
| step_sent evb msg :
    is_valid_email email_addr = true ->
    email_addr ∉ seen st ->
    forallb builder_event evb = true ->
    header "To" msg = Some email_addr ->
    Args.dry_run a = false ->
    w_smtp_send w (S (total st)) msg = true ->
    PrimFloat.ltb 0 (su_rate_delay su) = false ->
    step st email_addr (evb ++ [SmtpSend msg; LogSent email_addr])
      (count_sent (seen_add email_addr (count_total st))) Next
| step_sent_paused evb msg :
    is_valid_email email_addr = true ->
    email_addr ∉ seen st ->
    forallb builder_event evb = true ->
    header "To" msg = Some email_addr ->
    Args.dry_run a = false ->
    w_smtp_send w (S (total st)) msg = true ->
    PrimFloat.ltb 0 (su_rate_delay su) = true ->
    time_sleep (w_monotonic w (S (total st))) (su_rate_delay su) = None ->
    step st email_addr
      (evb ++ [SmtpSend msg; LogSent email_addr; Sleep (su_rate_delay su)])
      (count_sent (seen_add email_addr (count_total st))) Next
| step_pause_failed evb msg e :
    is_valid_email email_addr = true ->
    email_addr ∉ seen st ->
    forallb builder_event evb = true ->
    header "To" msg = Some email_addr ->
    Args.dry_run a = false ->
    w_smtp_send w (S (total st)) msg = true ->
    PrimFloat.ltb 0 (su_rate_delay su) = true ->
    time_sleep (w_monotonic w (S (total st))) (su_rate_delay su) = Some e ->
    step st email_addr
      (evb ++ [SmtpSend msg; LogSent email_addr; Sleep (su_rate_delay su);
               LogSendFailed email_addr])
      (count_skipped (count_sent (seen_add email_addr (count_total st)))) Next
| step_send_failed evb msg :
    is_valid_email email_addr = true ->
    email_addr ∉ seen st ->
    forallb builder_event evb = true ->
    header "To" msg = Some email_addr ->
    Args.dry_run a = false ->
    w_smtp_send w (S (total st)) msg = false ->
    step st email_addr (evb ++ [SmtpSend msg; LogSendFailed email_addr])
      (count_skipped (seen_add email_addr (count_total st))) Next.

End Step.

(* ===================================================================== *)
(** ** Concrete runs *)
(* ===================================================================== *)

(** A command line with the defaults of [build_parser], SMTP credentials,
    and the given recipient source, rate, mode and save directory. *)
Definition example_args (to : string) (csv : option string)
  (rate : option float) (dry_run : bool) (save_eml_dir : option string)
  : Args.t :=
  Args.mk to None csv "email" "name" "consent" true "Hello from Example"
    None "Example Team" None None None None [] [] save_eml_dir None
    (Some "user") (Some "secret") rate dry_run.

(** A world with the given CSV rows, in which no file to attach exists,
    the server answers every send with [send_ok] and every message file is
    written or not as [write_ok] says, failing at [open] when it fails;
    the machine has been up for an hour. *)
Definition example_world (rows : list row) (send_ok write_ok : bool)
  : world :=
  mkWorld None None None
    (fun _ => None) (fun _ => Some (map inr rows)) (fun _ => ReadNotFound)
    (fun _ => None)
    (fun name addr => name +:+ " <" +:+ addr +:+ ">")
    (fun _ => "<1@example>") (fun _ => 1700000000%Z) (fun _ => "")
    (fun _ => write_ok) true (fun _ _ => send_ok)
    (fun _ => 3600000000000%Z) (fun _ => ("==alt==", "==mixed==")) (fun _ => false).

Definition example_row (email_addr consent : string) : row :=
  mkRow [("email", PStr email_addr); ("name", PStr ""); ("consent", PStr consent)]
    false.

(** The [setup] of a run with the default templates. *)
Definition example_setup (a : Args.t) : setup :=
  mkSetup (Args.username a) default_text default_html (rate_delay a).

(* ===================================================================== *)
(** ** The vocabulary of the further properties *)
(* ===================================================================== *)

(** The literal pieces of a text and the names of the holes of a template. *)
Definition lits (s : string) : list Template.piece :=
  map Template.Lit (list_ascii_of_string s).


(** [name or email_addr], the value of [{name}]. *)
Definition shown_name (email_addr name : string) : string :=
  if PyStr.truthy name then name else email_addr.

(** A string that does not begin with whitespace. *)
Definition no_lead (s : string) : bool :=
  match s with
  | EmptyString => true
  | String c _ => negb (PyStr.isspace c)
  end.

(** A string that does not end with whitespace. *)
Fixpoint no_trail (s : string) : bool :=
  match s with
  | EmptyString => true
  | String c EmptyString => negb (PyStr.isspace c)
  | String _ r => no_trail r
  end.

Definition has_slash (s : string) : bool := PyStr.existsb (Ascii.eqb "/") s.

(** The content-ID a part must carry: its file name when inline, none when
    attached. *)
Definition expected_cid (p : mime_part) : option string :=
  match part_disposition p with
  | Inline => Some (part_filename p)
  | Attachment => None
  end.

(** Whether building a message gets as far as [msg.as_string()]: a save
    directory is given and the file was written, or writing it failed
    after [open]. *)
Definition eml_serialised (w : world) (n : nat) (to_addr : string)
  (save_eml_dir : option string) : bool :=
  match save_eml_dir with
  | Some dir =>
      PyStr.truthy dir
      && (let dest := path_join dir (eml_filename to_addr (w_clock w n)) in
          w_write_eml w dest || w_eml_serialised w dest)
  | None => false
  end.

(** The example world in which one file exists, a PNG image. *)
Definition example_world_with_file (path data : string) : world :=
  mkWorld None None None
    (fun _ => None) (fun _ => Some [])
    (fun p => if String.eqb p path then ReadOk data else ReadNotFound)
    (fun p => if String.eqb p path then Some ("image", "png") else None)
    (fun name addr => name +:+ " <" +:+ addr +:+ ">")
    (fun _ => "<1@example>") (fun _ => 1700000000%Z) (fun _ => "")
    (fun _ => true) true (fun _ _ => true)
    (fun _ => 3600000000000%Z) (fun _ => ("==alt==", "==mixed==")) (fun _ => false).

(** The log lines that count a recipient as sent, and as skipped. *)
Definition sent_events (ev : list event) : nat :=
  length (List.filter (fun e => match e with
                                | LogSent _ | LogDryRun _ => true
                                | _ => false
                                end) ev).

Definition skip_events (ev : list event) : nat :=
  length (List.filter (fun e => match e with
                                | LogInvalid _ | LogDuplicate _ | LogNoConsent _
                                | LogSendFailed _ => true
                                | _ => false
                                end) ev).

(** The events of a recipient logged both as sent and as failed. *)
Definition double_counted (ev : list event) : bool :=
  has_sent ev
  && existsb (fun e => match e with LogSendFailed _ => true | _ => false end) ev.

Definition double_counts (evs : list (list event)) : nat :=
  length (List.filter double_counted evs).

(** The events that only a live run can have. *)
Definition live_event (e : event) : bool :=
  match e with
  | LogMissingCredentials | LogConnectFailed
  | SmtpSend _ | LogSent _ | LogSendFailed _ | Sleep _ | SmtpQuit => true
  | _ => false
  end.

(** The events the loop body emits. *)
Definition body_event (e : event) : bool :=
  match e with
  | LogInvalid _ | LogDuplicate _ | LogNoConsent _ | LogMissingVariable _
  | SmtpSend _ | LogSent _ | LogSendFailed _ | LogDryRun _ | Sleep _ => true
  | other => builder_event other
  end.

(** The log lines written before the loop. *)
Definition startup_event (e : event) : bool :=
  match e with
  | LogDryRunMode | LogMissingCredentials | LogConnectFailed
  | LogTemplateReadFailed _ => true
  | _ => false
  end.

(** The log line of a recipient stopped at one of the three gates. *)
Definition gate_skip (e : event) : bool :=
  match e with
  | LogInvalid _ | LogDuplicate _ | LogNoConsent _ => true
  | _ => false
  end.


(* ===================================================================== *)
(** ** Proof tools *)
(* ===================================================================== *)

(** Case analysis on the eight bits of a character, for facts that hold
    by computation on each of the 256 characters. *)
Ltac by_bits c :=
  destruct c as [[] [] [] [] [] [] [] []]; try reflexivity; try discriminate.

(* ===================================================================== *)
(** * Properties *)
(* ===================================================================== *)

(** ** The model on small inputs *)

Example is_valid_email_examples :
  map is_valid_email
    ["a@b.com"; "a@b.c.d"; "a@b..c"; "@b.com"; "a@.com"; "a@b."; "a@b";
     "a b@c.d"; "not-an-email"; ""; " "]
  = [true; true; true; false; false; false; false; false; false; false; false].
Proof. reflexivity. Qed.

(** [$] also matches before a final line feed. *)
Example is_valid_email_trailing_line_feed :
  is_valid_email ("a@b.com" +:+ LF) = true
  /\ is_valid_email ("a@b.com" +:+ LF +:+ LF) = false.
Proof. split; reflexivity. Qed.

Example format_examples :
  map (fun t => Format.format t (Format.mkKw [("name", PStr "Ann"); ("n", PNone)] false))
    ["Hi {name}"; "{{{name}}}"; "{n}"; "Hi {}"; "Hi {0}"; "}"; "{";
     "{missing} }"; "{ name}"; "{name!r}"; ""]
  = [Format.Rendered "Hi Ann"; Format.Rendered "{Ann}"; Format.Rendered "None";
     Format.Raises IndexError; Format.Raises IndexError;
     Format.Raises ValueError; Format.Raises ValueError;
     Format.KeyError "missing"; Format.KeyError " name"; Format.Unmodelled;
     Format.Rendered ""].
Proof. reflexivity. Qed.

(** The last three delays are 2^63 ns itself and 0.854775808 s less: the
    second is refused on a machine that has been up for longer than that. *)
Example time_sleep_examples :
  time_sleep 0 0.5 = None
  /\ time_sleep 0 6e10 = Some OverflowError
  /\ time_sleep 0 infinity = Some OverflowError
  /\ time_sleep 0 (-1) = Some ValueError
  /\ time_sleep 0 nan = Some ValueError
  /\ time_sleep 0 (0x1p63 / 1e9) = Some ValueError
  /\ time_sleep 3600000000000 9223372036 = Some OSError
  /\ time_sleep 0 9223372036 = None.
Proof. repeat split; vm_compute; reflexivity. Qed.

(** A non-ASCII sender address makes [formataddr] raise. *)
Example from_header_examples :
  from_header (example_world [] true true) "Example Team" "user@example.com"
  = inr "Example Team <user@example.com>"
  /\ from_header (example_world [] true true) "Example Team"
       (String (ascii_of_N 246) "@example.com")
     = inl UnicodeError
  /\ from_header (example_world [] true true) ""
       (String (ascii_of_N 246) "@example.com")
     = inr (String (ascii_of_N 246) "@example.com").
Proof. repeat split; reflexivity. Qed.

(** A line shorter than the header leaves [None] under the consent
    column, and [None.strip()] ends the run; a line longer than the header
    puts the key [None] among the variables, which [str.format] never
    looks up: the row is processed like any other. *)
Example malformed_rows :
  let a := example_args "" (Some "list.csv") None true None in
  let w := example_world [] true true in
  let short :=
    mkRow [("email", PStr "a@b.com"); ("name", PStr "Ann"); ("consent", PNone)]
      false in
  let long :=
    mkRow [("email", PStr "a@b.com"); ("name", PStr "Ann"); ("consent", PStr "yes")]
      true in
  process a w (example_setup a) initial ("a@b.com", "Ann", short)
  = ([], seen_add "a@b.com" (count_total initial), Stop (Uncaught AttributeError))
  /\ process a w (example_setup a) initial ("a@b.com", "Ann", long)
     = ([LogDryRun "a@b.com"],
        count_sent (seen_add "a@b.com" (count_total initial)), Next).
Proof. split; vm_compute; reflexivity. Qed.

Example dry_run_of_two_rows :
  let a := example_args "" (Some "list.csv") None true None in
  let w := example_world [example_row "a@b.com" "yes"; example_row "c@d.org" ""]
             true true in
  fst (fst (send_messages a w))
  = [LogDryRunMode; LogDryRun "a@b.com"; LogNoConsent "c@d.org"; LogDone 2 1 1].
Proof. vm_compute. reflexivity. Qed.

(** ** Regular expressions and strings *)

Module ReFacts.
Import Re.

Lemma app_nil_inv (u v : string) : u +:+ v = EmptyString -> u = EmptyString /\ v = EmptyString.
Proof. destruct u; simpl; [auto | discriminate]. Qed.

Lemma nullable_sound r : nullable r = true -> matches r EmptyString.
Proof.
  induction r; simpl; intros H; try discriminate.
  - constructor.
  - apply andb_true_iff in H as [H1 H2].
    change EmptyString with (EmptyString +:+ EmptyString). constructor; auto.
  - apply orb_true_iff in H as [H|H]; [apply m_alt_l | apply m_alt_r]; auto.
  - constructor.
Qed.

Lemma nullable_complete r s : matches r s -> s = EmptyString -> nullable r = true.
Proof.
  induction 1; simpl; intros E; try reflexivity; try discriminate.
  - apply app_nil_inv in E as [-> ->]. rewrite IHmatches1, IHmatches2; auto.
  - rewrite IHmatches; auto.
  - rewrite IHmatches; auto using orb_true_r.
Qed.

Lemma deriv_sound c r : forall s, matches (deriv c r) s -> matches r (String c s).
Proof.
  induction r; simpl; intros s H.
  - inversion H.
  - inversion H.
  - destruct (p c) eqn:E; inversion H; subst. constructor; exact E.
  - inversion H; subst.
    + match goal with M : matches (Seq _ _) _ |- _ => inversion M; subst end.
      change (matches (Seq r1 r2) (String c u +:+ v)). constructor; auto.
    + destruct (nullable r1) eqn:E; [| match goal with M : matches Void _ |- _ => inversion M end].
      change (matches (Seq r1 r2) (EmptyString +:+ String c s)).
      constructor; auto using nullable_sound.
  - inversion H; subst; [apply m_alt_l | apply m_alt_r]; auto.
  - inversion H; subst.
    change (matches (Star r) (String c u +:+ v)). constructor; auto.
Qed.

Lemma deriv_complete c r w : matches r w -> forall s, w = String c s -> matches (deriv c r) s.
Proof.
  induction 1; simpl; intros s E; try discriminate.
  - injection E as -> <-. rewrite H. constructor.
  - destruct u as [|c' u']; simpl in E.
    + apply m_alt_r. rewrite (nullable_complete _ _ H eq_refl). auto.
    + injection E as -> <-. apply m_alt_l. constructor; auto.
  - apply m_alt_l; auto.
  - apply m_alt_r; auto.
  - destruct u as [|c' u']; simpl in E.
    + apply IHmatches2 in E. exact E.
    + injection E as -> <-. constructor; auto.
Qed.

Lemma match_dollar_sound : forall s r, match_dollar r s = true ->
  exists u t, s = u +:+ t /\ matches r u /\ at_dollar t = true.
Proof.
  induction s as [|c s IH]; intros r H; simpl in H.
  - rewrite orb_false_r in H. apply andb_true_iff in H as [H _].
    exists EmptyString, EmptyString; auto using nullable_sound.
  - apply orb_true_iff in H as [H|H].
    + apply andb_true_iff in H as [H1 H2].
      exists EmptyString, (String c s); auto using nullable_sound.
    + apply IH in H as (u & t & -> & M & D).
      exists (String c u), t; auto using deriv_sound.
Qed.

Lemma match_dollar_complete : forall u r t, matches r u -> at_dollar t = true ->
  match_dollar r (u +:+ t) = true.
Proof.
  induction u as [|c u IH]; intros r t M D; simpl.
  - assert (N : nullable r = true) by (eapply nullable_complete; eauto).
    destruct t; simpl; rewrite N; simpl; [reflexivity|].
    simpl in D. rewrite D. reflexivity.
  - apply orb_true_iff. right. apply IH; auto.
    eapply deriv_complete; eauto.
Qed.

Lemma matches_star_class p u : matches (Star (Class p)) u <-> PyStr.forallb p u = true.
Proof.
  split.
  - intros H. remember (Star (Class p)) as r eqn:E.
    induction H; try discriminate; [reflexivity|].
    injection E as ->. inversion H; subst. cbn.
    rewrite IHmatches2 by reflexivity.
    match goal with Hp : p _ = true |- _ => rewrite Hp end. reflexivity.
  - induction u as [|c u IH]; simpl; intros H.
    + constructor.
    + apply andb_true_iff in H as [H1 H2].
      change (matches (Star (Class p)) (String c EmptyString +:+ u)).
      constructor; [constructor|]; auto.
Qed.

Lemma matches_plus_class p u :
  matches (Plus (Class p)) u <-> u <> EmptyString /\ PyStr.forallb p u = true.
Proof.
  unfold Plus. split.
  - intros H. inversion H; subst.
    match goal with M : matches (Class p) _ |- _ => inversion M; subst end.
    cbn. split; [discriminate|].
    match goal with Hp : p _ = true |- _ => rewrite Hp end.
    apply matches_star_class. assumption.
  - intros [N H]. destruct u as [|c u]; [congruence|]. simpl in H.
    apply andb_true_iff in H as [H1 H2].
    change (matches (Seq (Class p) (Star (Class p))) (String c EmptyString +:+ u)).
    constructor; [constructor; auto | apply matches_star_class; auto].
Qed.

Lemma matches_chr c u : matches (Chr c) u <-> u = String c EmptyString.
Proof.
  unfold Chr. split.
  - intros H. inversion H; subst.
    match goal with Hp : Ascii.eqb _ _ = true |- _ => apply Ascii.eqb_eq in Hp; subst end.
    reflexivity.
  - intros ->. constructor. apply Ascii.eqb_refl.
Qed.


Lemma endswith_app u t : PyStr.endswith (u +:+ t) t = true.
Proof.
  induction u as [|c u IH]; simpl.
  - destruct t; simpl; [reflexivity|]. rewrite Ascii.eqb_refl, String.eqb_refl. reflexivity.
  - rewrite IH. apply orb_true_r.
Qed.

Lemma at_dollar_cases t : at_dollar t = true -> t = EmptyString \/ t = LF.
Proof.
  destruct t as [|c [|c' t']]; simpl; intros H; auto; try discriminate.
  apply Ascii.eqb_eq in H. subst. right. reflexivity.
Qed.

End ReFacts.

Module StrFacts.

Lemma append_nil_r u : u +:+ EmptyString = u.
Proof. induction u; simpl; congruence. Qed.

Lemma append_assoc u v t : (u +:+ v) +:+ t = u +:+ v +:+ t.
Proof. induction u; simpl; congruence. Qed.

Lemma forallb_app p u v : PyStr.forallb p (u +:+ v) = PyStr.forallb p u && PyStr.forallb p v.
Proof. induction u; simpl; [reflexivity|]. rewrite IHu. apply andb_assoc. Qed.

Lemma existsb_app p u v : PyStr.existsb p (u +:+ v) = PyStr.existsb p u || PyStr.existsb p v.
Proof. induction u; simpl; [reflexivity|]. rewrite IHu. apply orb_assoc. Qed.

Lemma count_app p u v : PyStr.count p (u +:+ v) = PyStr.count p u + PyStr.count p v.
Proof. induction u; simpl; [reflexivity|]. rewrite IHu. lia. Qed.

Lemma addr_char_forallb u :
  PyStr.forallb addr_char u = true <->
  PyStr.count is_at u = 0 /\ PyStr.existsb PyStr.isspace u = false.
Proof.
  induction u as [|c u IH]; simpl; [tauto|].
  unfold addr_char at 1, is_at at 1.
  destruct (Ascii.eqb c "@"), (PyStr.isspace c); simpl; try tauto;
    split; try (intros [? ?]; discriminate); try discriminate.
Qed.

End StrFacts.


Import Re ReFacts StrFacts.

Lemma email_re_matches u :
  matches email_re u <->
  exists l d1 d2, u = l +:+ "@" +:+ d1 +:+ "." +:+ d2
    /\ (l <> EmptyString /\ PyStr.forallb addr_char l = true)
    /\ (d1 <> EmptyString /\ PyStr.forallb addr_char d1 = true)
    /\ (d2 <> EmptyString /\ PyStr.forallb addr_char d2 = true).
Proof.
  unfold email_re. split.
  - intros H.
    inversion H as [| |? ? l x1 Hl H1| | | |]; subst.
    inversion H1 as [| |? ? a x2 Ha H2| | | |]; subst.
    inversion H2 as [| |? ? d1 x3 Hd1 H3| | | |]; subst.
    inversion H3 as [| |? ? b d2 Hb Hd2| | | |]; subst.
    apply matches_chr in Ha, Hb. subst.
    apply matches_plus_class in Hl, Hd1, Hd2.
    exists l, d1, d2. auto.
  - intros (l & d1 & d2 & -> & Hl & Hd1 & Hd2).
    apply matches_plus_class in Hl, Hd1, Hd2.
    repeat (constructor; auto); apply matches_chr; reflexivity.
Qed.

Lemma is_valid_email_true s :
  is_valid_email s = true <->
  exists u t, s = u +:+ t /\ matches email_re u /\ at_dollar t = true.
Proof.
  unfold is_valid_email. split.
  - destruct s; simpl PyStr.truthy; simpl negb; cbv iota; [discriminate|].
    apply match_dollar_sound.
  - intros (u & t & -> & M & D).
    assert (N : PyStr.truthy (u +:+ t) = true).
    { apply email_re_matches in M as (l & d1 & d2 & -> & [Hl _] & _).
      destruct l; [congruence | reflexivity]. }
    rewrite N. simpl. apply match_dollar_complete; auto.
Qed.

Lemma shape_of_match u : matches email_re u <-> address_shape u.
Proof.
  rewrite email_re_matches. unfold address_shape. split.
  - intros (l & d1 & d2 & -> & [Nl Hl] & [N1 H1] & [N2 H2]).
    apply addr_char_forallb in Hl as [Cl Sl], H1 as [C1 S1], H2 as [C2 S2].
    exists l, d1, d2. repeat split; auto.
    + rewrite !count_app, Cl, C1, C2. reflexivity.
    + rewrite !existsb_app, Sl, S1, S2. reflexivity.
  - intros (l & d1 & d2 & -> & Nl & N1 & N2 & C & S).
    rewrite !count_app in C. rewrite !existsb_app in S.
    simpl in C, S.
    repeat (apply orb_false_iff in S as [? S]).
    exists l, d1, d2. repeat split; auto; apply addr_char_forallb; split; auto; lia.
Qed.

(** C5, for strings that do not end in a line feed.  [is_valid_email]
    rejects the empty string and every string of whitespace only; a string
    that does not end in a line feed is accepted exactly when it reads
    local@d1.d2 with the three parts not empty, one [@] in all and no
    whitespace; so a@b.com is valid, and not-an-email, the empty string and
    a@b are not. *)
Theorem is_valid_email_shape :
  (forall s, PyStr.forallb PyStr.isspace s = true -> is_valid_email s = false)
  /\ (forall s, PyStr.endswith s LF = false ->
                (is_valid_email s = true <-> address_shape s))
  /\ is_valid_email "a@b.com" = true
  /\ is_valid_email "not-an-email" = false
  /\ is_valid_email "" = false
  /\ is_valid_email "a@b" = false.
Proof.
  split; [| split; [| repeat split; reflexivity]].
  - intros s W. destruct (is_valid_email s) eqn:V; [|reflexivity].
    apply is_valid_email_true in V as (u & t & -> & M & _).
    apply email_re_matches in M as (l & d1 & d2 & -> & [Nl Hl] & _).
    destruct l as [|c l]; [congruence|]. simpl in W, Hl.
    apply andb_true_iff in W as [W _]. apply andb_true_iff in Hl as [Hl _].
    unfold addr_char in Hl. rewrite W in Hl. rewrite andb_false_r in Hl. discriminate.
  - intros s E. rewrite is_valid_email_true. split.
    + intros (u & t & -> & M & D).
      apply at_dollar_cases in D as [-> | ->].
      * rewrite append_nil_r. apply shape_of_match. exact M.
      * rewrite endswith_app in E. discriminate.
    + intros Sh. exists s, EmptyString. rewrite append_nil_r.
      repeat split. apply shape_of_match. exact Sh.
Qed.

Lemma is_valid_email_shape_witness :
  PyStr.endswith "a@b.com" LF = false /\
  (is_valid_email "a@b.com" = true <-> address_shape "a@b.com").
Proof.
  split; [reflexivity|].
  apply (proj1 (proj2 is_valid_email_shape) "a@b.com"). reflexivity.
Defined.

(** C5 as worded asks for less than the pattern: one [@], no whitespace
    and a dot after the [@] do not make [@b.com] valid. *)
Lemma is_valid_email_not_spec :
  spec_is_valid_email "@b.com" = true /\ is_valid_email "@b.com" = false.
Proof. split; reflexivity. Qed.


Module FormatFacts.
Import Format Template.

Lemma scan_text_other kw c r :
  is_brace c = false ->
  scan kw Text (String c r) = emit c (scan kw Text r).
Proof. intros H. by_bits c. Qed.

Lemma scan_text_brace kw c r :
  is_brace c = true ->
  scan kw Text (String c (String c r)) = emit c (scan kw Text r).
Proof. intros H. by_bits c. Qed.

Lemma scan_open kw c r :
  name_char c = true ->
  scan kw Text (String "{" (String c r)) = scan kw (Field EmptyString) (String c r).
Proof. intros H. by_bits c. Qed.

Lemma scan_field_char kw acc c r :
  name_char c = true ->
  scan kw (Field acc) (String c r) = scan kw (Field (acc +:+ String c EmptyString)) r.
Proof. intros H. by_bits c. Qed.

Lemma scan_field_name kw rest : forall name acc,
  PyStr.forallb name_char name = true ->
  scan kw (Field acc) (name +:+ String "}" rest) =
  match get_field kw (acc +:+ name) with
  | Rendered v => emit_str v (scan kw Text rest)
  | other => other
  end.
Proof.
  induction name as [|c name IH]; intros acc H.
  - rewrite append_nil_r. reflexivity.
  - simpl in H. apply andb_true_iff in H as [Hc Hn].
    simpl String.append. rewrite scan_field_char by exact Hc.
    rewrite IH by exact Hn. rewrite append_assoc. reflexivity.
Qed.

Lemma get_field_plain kw name :
  plain_name name = true ->
  get_field kw name = match assoc name kw with
                      | Some v => Rendered (str_of v)
                      | None => KeyError name
                      end.
Proof.
  unfold plain_name, get_field. intros H.
  apply andb_true_iff in H as [H _]. apply negb_true_iff in H. rewrite H. reflexivity.
Qed.

Lemma scan_hole kw name rest :
  plain_name name = true ->
  scan kw Text (unparse_piece (Hole name) +:+ rest) =
  match assoc name kw with
  | Some v => emit_str (str_of v) (scan kw Text rest)
  | None => KeyError name
  end.
Proof.
  intros P. pose proof P as P'. unfold plain_name in P'.
  apply andb_true_iff in P' as [D N].
  destruct name as [|c name]; [discriminate|].
  simpl unparse_piece. simpl String.append. rewrite append_assoc.
  simpl in N. apply andb_true_iff in N as [Nc Nn].
  rewrite scan_open by exact Nc.
  change (String c (name +:+ "}" +:+ rest)) with (String c name +:+ String "}" rest).
  rewrite scan_field_name by (simpl; rewrite Nc, Nn; reflexivity).
  simpl String.append. rewrite get_field_plain by exact P.
  destruct (assoc (String c name) kw); reflexivity.
Qed.

Lemma scan_unparse kw : forall ps,
  forallb plain ps = true ->
  scan kw Text (unparse ps) =
  match expand kw ps with
  | inr s => Rendered s
  | inl k => KeyError k
  end.
Proof.
  induction ps as [|[c|name] ps IH]; intros H; simpl in H.
  - reflexivity.
  - simpl unparse. simpl expand. unfold unparse_piece.
    destruct (is_brace c) eqn:B; simpl String.append.
    + rewrite scan_text_brace by exact B. rewrite IH by exact H.
      destruct (expand kw ps); reflexivity.
    + rewrite scan_text_other by exact B. rewrite IH by exact H.
      destruct (expand kw ps); reflexivity.
  - apply andb_true_iff in H as [P H].
    change (unparse (Hole name :: ps))
      with (unparse_piece (Hole name) +:+ unparse ps).
    rewrite scan_hole by exact P. simpl expand.
    destruct (assoc name kw); [|reflexivity].
    rewrite IH by exact H. destruct (expand kw ps); reflexivity.
Qed.








End FormatFacts.

Module LoopFacts.

Lemma process_invalid a w su st email name r :
  is_valid_email email = false ->
  process a w su st (email, name, r) =
  ([LogInvalid email], count_skipped (count_total st), Next).
Proof. intros H. unfold process. rewrite H. reflexivity. Qed.

Lemma process_duplicate a w su st email name r :
  is_valid_email email = true -> email ∈ seen st ->
  process a w su st (email, name, r) =
  ([LogDuplicate email], count_skipped (count_total st), Next).
Proof.
  intros H S. unfold process. rewrite H. simpl negb. cbv iota.
  rewrite bool_decide_eq_true_2 by exact S. reflexivity.
Qed.

Lemma process_fresh a w su st email name r :
  is_valid_email email = true -> email ∉ seen st ->
  process a w su st (email, name, r) =
  match consent_gate a r with
  | inl e => ([], seen_add email (count_total st), Stop (Uncaught e))
  | inr false =>
      ([LogNoConsent email], count_skipped (seen_add email (count_total st)), Next)
  | inr true => deliver a w su (seen_add email (count_total st)) (email, name, r)
  end.
Proof.
  intros H S. unfold process. rewrite H. simpl negb. cbv iota.
  rewrite bool_decide_eq_false_2 by exact S. reflexivity.
Qed.


Lemma loop_cons a w su st r items :
  loop a w su st (inr r :: items) =
  let '(ev, st', c) := process a w su st r in
  match c with
  | Next => let '(evs, st'', t) := loop a w su st' items in (ev :: evs, st'', t)
  | Stop t => ([ev], st', t)
  end.
Proof. reflexivity. Qed.

Lemma loop_next a w su st r items ev st' :
  process a w su st r = (ev, st', Next) ->
  loop a w su st (inr r :: items) =
  let '(evs, st'', t) := loop a w su st' items in (ev :: evs, st'', t).
Proof. intros H. simpl. rewrite H. reflexivity. Qed.

Lemma none_key_variables email name r :
  Format.none_key (build_variables email name r) = rest r.
Proof.
  unfold build_variables, row_truthy. destruct r as [[|kv cs] b]; simpl; [destruct b|]; reflexivity.
Qed.

End LoopFacts.

Import LoopFacts FormatFacts.





Module BuildFacts.

Lemma attach_regular_parts w msg path :
  headers (snd (attach_regular w msg path)) = headers msg
  /\ alternative (snd (attach_regular w msg path)) = alternative msg
  /\ parts (snd (attach_regular w msg path)) = parts msg ++ part_of w Attachment path.
Proof.
  unfold attach_regular, part_of.
  destruct (guess_mime_type w path) as [mt sub].
  destruct (w_read_binary w path); simpl; rewrite ?app_nil_r; auto.
Qed.

Lemma attach_inline_parts w msg path :
  headers (snd (fst (attach_inline w msg path))) = headers msg
  /\ alternative (snd (fst (attach_inline w msg path))) = alternative msg
  /\ parts (snd (fst (attach_inline w msg path))) = parts msg ++ part_of w Inline path.
Proof.
  unfold attach_inline, part_of.
  destruct (guess_mime_type w path) as [mt sub].
  destruct (w_read_binary w path); simpl; rewrite ?app_nil_r; auto.
Qed.

Lemma attach_inline_cid w msg path :
  snd (attach_inline w msg path) =
  if readable w path then basename path else EmptyString.
Proof.
  unfold attach_inline, readable.
  destruct (guess_mime_type w path) as [mt sub].
  destruct (w_read_binary w path); reflexivity.
Qed.

Lemma attach_loop_parts w : forall paths acc,
  headers (snd (attach_loop w paths acc)) = headers (snd acc)
  /\ alternative (snd (attach_loop w paths acc)) = alternative (snd acc)
  /\ parts (snd (attach_loop w paths acc)) =
     parts (snd acc) ++ file_parts w Attachment paths.
Proof.
  unfold attach_loop, file_parts.
  induction paths as [|p paths IH]; intros [ev msg]; simpl.
  - rewrite app_nil_r. auto.
  - destruct (attach_regular_parts w msg p) as (H1 & H2 & H3).
    destruct (attach_regular w msg p) as [ev' msg'] eqn:E. simpl in *.
    destruct (IH (ev ++ ev', msg')) as (I1 & I2 & I3). simpl in *.
    rewrite I1, I2, I3, H1, H2, H3, <- app_assoc. auto.
Qed.

Lemma inline_loop_parts w : forall paths acc,
  headers (snd (fst (inline_loop w paths acc))) = headers (snd (fst acc))
  /\ alternative (snd (fst (inline_loop w paths acc))) = alternative (snd (fst acc))
  /\ parts (snd (fst (inline_loop w paths acc))) =
     parts (snd (fst acc)) ++ file_parts w Inline paths.
Proof.
  unfold inline_loop, file_parts.
  induction paths as [|p paths IH]; intros [[ev msg] cids]; simpl.
  - rewrite app_nil_r. auto.
  - destruct (attach_inline_parts w msg p) as (H1 & H2 & H3).
    destruct (attach_inline w msg p) as [[ev' msg'] cid] eqn:E. simpl in *.
    match goal with |- context [fold_left _ paths ?acc] =>
      destruct (IH acc) as (I1 & I2 & I3) end. simpl in *.
    rewrite I1, I2, I3, H1, H2, H3, <- app_assoc. auto.
Qed.

Lemma inline_loop_cids w : forall paths acc k cid,
  snd (inline_loop w paths acc) !! k = Some cid ->
  snd acc !! k = Some cid
  \/ exists p, In p paths /\ readable w p = true /\ basename p = k /\ cid = k.
Proof.
  unfold inline_loop.
  induction paths as [|p paths IH]; intros [[ev msg] cids] k cid; simpl; [auto|].
  pose proof (attach_inline_cid w msg p) as C.
  destruct (attach_inline w msg p) as [[ev' msg'] c] eqn:E. simpl in C.
  intros H. apply IH in H. simpl in H.
  destruct H as [H | (q & Hq & R & B & K)]; [| right; exists q; auto].
  destruct (PyStr.truthy c) eqn:T; [| auto].
  destruct (decide (basename p = k)) as [<- | N].
  - rewrite lookup_insert_eq in H. injection H as <-.
    destruct (readable w p) eqn:R; subst c; [| discriminate].
    right. exists p. auto.
  - rewrite lookup_insert_ne in H by exact N. auto.
Qed.

Lemma serialise_keeps w n msg :
  headers (serialise w n msg) = headers msg
  /\ alternative (serialise w n msg) = alternative msg
  /\ parts (serialise w n msg) = parts msg.
Proof. unfold serialise. destruct (boundaries msg); auto. Qed.

Lemma save_eml_keeps w n msg to sd :
  headers (snd (save_eml w n msg to sd)) = headers msg
  /\ alternative (snd (save_eml w n msg to sd)) = alternative msg
  /\ parts (snd (save_eml w n msg to sd)) = parts msg.
Proof.
  unfold save_eml. destruct sd as [dir|]; [| auto].
  destruct (PyStr.truthy dir); [| auto].
  destruct (w_write_eml w _); [apply serialise_keeps|].
  destruct (w_eml_serialised w _); [apply serialise_keeps | auto].
Qed.

Lemma build_message_spec w n fn fa to subj tb hb inls atts rt un sd from :
  from_header w fn fa = inr from ->
  exists ev msg cids,
    build_message w n fn fa to subj tb hb inls atts rt un sd
    = inr (ev ++ fst (save_eml w n msg to sd),
           (snd (save_eml w n msg to sd), cids))
    /\ header "To" msg = Some to
    /\ parts msg = file_parts w Inline inls ++ file_parts w Attachment atts
    /\ (forall k cid, cids !! k = Some cid ->
         exists p, In p inls /\ readable w p = true /\ basename p = k).
Proof.
  intros F. unfold build_message. rewrite F.
  match goal with |- context [inline_loop w inls ?acc] =>
    pose proof (inline_loop_parts w inls acc) as (H1 & _ & H3);
    pose proof (inline_loop_cids w inls acc) as HC;
    destruct (inline_loop w inls acc) as [[ev1 msg1] cids] eqn:E1 end.
  pose proof (attach_loop_parts w atts (ev1, msg1)) as (A1 & _ & A3).
  destruct (attach_loop w atts (ev1, msg1)) as [ev2 msg2] eqn:E2.
  simpl in *. exists ev2, msg2, cids.
  destruct (save_eml w n msg2 to sd) as [ev3 msg3]. simpl. repeat split.
  - unfold header. rewrite A1, H1. reflexivity.
  - rewrite A3, H3. reflexivity.
  - intros k cid L. apply HC in L as [L | (p & I & R & B & _)].
    + rewrite lookup_empty in L. discriminate.
    + exists p. auto.
Qed.

Lemma build_message_raises w n fn fa to subj tb hb inls atts rt un sd e :
  from_header w fn fa = inl e ->
  build_message w n fn fa to subj tb hb inls atts rt un sd = inl e.
Proof. intros F. unfold build_message. rewrite F. reflexivity. Qed.

Lemma deliver_rendered a w su st email name r tb hb ev msg cids :
  render_or_empty (su_template_text su) (build_variables email name r) = RText tb ->
  render_or_empty (su_template_html su) (build_variables email name r) = RText hb ->
  build_for a w su st email tb hb = inr (ev, (msg, cids)) ->
  deliver a w su st (email, name, r) =
  (ev ++ fst (dispatch a w su st email msg),
   snd (dispatch a w su st email msg), Next).
Proof.
  intros T H B. unfold deliver. rewrite T, H, B.
  destruct (dispatch a w su st email msg). reflexivity.
Qed.

Lemma build_for_spec a w su st email tb hb from :
  from_header w (Args.from_name a) (from_addr_of a su) = inr from ->
  exists ev msg cids,
    build_for a w su st email tb hb
    = inr (ev ++ fst (save_eml w (total st) msg email (Args.save_eml_dir a)),
           (snd (save_eml w (total st) msg email (Args.save_eml_dir a)), cids))
    /\ header "To" msg = Some email
    /\ parts msg =
       file_parts w Inline (Args.inline a)
       ++ file_parts w Attachment (Args.attach a).
Proof.
  intros F. unfold build_for.
  destruct (build_message_spec w (total st) (Args.from_name a) (from_addr_of a su)
              email (Args.subject a) tb hb (Args.inline a) (Args.attach a)
              (Args.reply_to a) (Args.unsubscribe a) (Args.save_eml_dir a) from F)
    as (ev & msg & cids & E & T & P & _).
  exists ev, msg, cids. auto.
Qed.

End BuildFacts.

Import BuildFacts.

(** C6. A file that cannot be read, whether missing or failing otherwise,
    leaves the message as it was: no part, and for an inline resource no
    content-ID; whatever the reads do, the message is built, with exactly
    the parts of the readable paths, and the recipient goes on to
    dispatch. *)
Theorem unreadable_resource_is_omitted :
  (forall w msg path,
      readable w path = false ->
      snd (attach_regular w msg path) = msg
      /\ snd (fst (attach_inline w msg path)) = msg
      /\ snd (attach_inline w msg path) = EmptyString
      /\ part_of w Attachment path = []
      /\ part_of w Inline path = [])
  /\ (forall w n fn fa to subj tb hb inls atts rt un sd from,
        from_header w fn fa = inr from ->
        exists ev msg cids,
          build_message w n fn fa to subj tb hb inls atts rt un sd
          = inr (ev, (msg, cids))
          /\ parts msg = file_parts w Inline inls ++ file_parts w Attachment atts
          /\ (forall k cid,
                cids !! k = Some cid ->
                exists p, In p inls /\ readable w p = true /\ basename p = k))
  /\ (forall a w su st email name r tb hb from,
        render_or_empty (su_template_text su) (build_variables email name r)
        = RText tb ->
        render_or_empty (su_template_html su) (build_variables email name r)
        = RText hb ->
        from_header w (Args.from_name a) (from_addr_of a su) = inr from ->
        exists ev msg,
          deliver a w su st (email, name, r) =
          (ev ++ fst (dispatch a w su st email msg),
           snd (dispatch a w su st email msg), Next)
          /\ parts msg =
             file_parts w Inline (Args.inline a)
             ++ file_parts w Attachment (Args.attach a)).
Proof.
  split; [| split].
  - intros w msg path R. unfold readable in R.
    unfold attach_regular, attach_inline, part_of.
    destruct (guess_mime_type w path) as [mt sub].
    destruct (w_read_binary w path); [discriminate | |]; simpl; auto.
  - intros w n fn fa to subj tb hb inls atts rt un sd from F.
    destruct (build_message_spec w n fn fa to subj tb hb inls atts rt un sd from F)
      as (ev & msg & cids & E & _ & P & C).
    destruct (save_eml_keeps w n msg to sd) as (_ & _ & K).
    rewrite <- K in P. eauto 10.
  - intros a w su st email name r tb hb from T H F.
    destruct (build_for_spec a w su st email tb hb from F)
      as (ev & msg & cids & B & _ & P).
    destruct (save_eml_keeps w (total st) msg email (Args.save_eml_dir a))
      as (_ & _ & K).
    rewrite <- K in P.
    rewrite (deliver_rendered _ _ _ _ _ _ _ _ _ _ _ _ T H B). eauto.
Qed.

Module EmlFacts.



Lemma re_sub_not_safe keep repl s :
  PyStr.forallb keep repl = true ->
  PyStr.forallb keep (re_sub_not keep repl s) = true.
Proof.
  intros R. induction s as [|c s IH]; simpl; [reflexivity|].
  rewrite forallb_app, IH, andb_true_r.
  destruct (keep c) eqn:K; simpl; [rewrite K; reflexivity | exact R].
Qed.




End EmlFacts.
Import EmlFacts.


(** C10. With a save directory, the message file is written while the
    message is built: the write comes before the dispatch events, in a
    dry run and in a live run alike, and when the live send then fails the
    recipient is counted as skipped with nothing done to the file. *)
Theorem eml_saved_before_dispatch :
  forall a w su st email name r tb hb from dir,
    render_or_empty (su_template_text su) (build_variables email name r)
    = RText tb ->
    render_or_empty (su_template_html su) (build_variables email name r)
    = RText hb ->
    from_header w (Args.from_name a) (from_addr_of a su) = inr from ->
    Args.save_eml_dir a = Some dir ->
    PyStr.truthy dir = true ->
    w_write_eml w
      (path_join dir (eml_filename email (w_clock w (total st)))) = true ->
    let dest := path_join dir (eml_filename email (w_clock w (total st))) in
    exists ev msg,
      deliver a w su st (email, name, r) =
      (ev ++ [WriteFile dest (w_as_string w msg); LogEmlSaved dest]
          ++ fst (dispatch a w su st email msg),
       snd (dispatch a w su st email msg), Next)
      /\ (Args.dry_run a = true ->
          dispatch a w su st email msg = ([LogDryRun email], count_sent st))
      /\ (Args.dry_run a = false ->
          w_smtp_send w (total st) msg = false ->
          dispatch a w su st email msg =
          ([SmtpSend msg; LogSendFailed email], count_skipped st)).
Proof.
  intros a w su st email name r tb hb from dir T H F D Td Wt dest.
  subst dest.
  destruct (build_for_spec a w su st email tb hb from F)
    as (ev & msg & cids & B & _).
  exists ev, (serialise w (total st) msg). split; [| split].
  - rewrite (deliver_rendered _ _ _ _ _ _ _ _ _ _ _ _ T H B).
    unfold save_eml. rewrite D, Td, Wt. cbn [fst snd].
    rewrite <- app_assoc. reflexivity.
  - intros Dr. unfold dispatch. rewrite Dr. reflexivity.
  - intros Dr S. unfold dispatch. rewrite Dr, S. reflexivity.
Qed.

Module StepFacts.

Lemma attach_regular_events w msg p :
  forallb builder_event (fst (attach_regular w msg p)) = true.
Proof.
  unfold attach_regular. destruct (guess_mime_type w p).
  destruct (w_read_binary w p); reflexivity.
Qed.

Lemma attach_inline_events w msg p :
  forallb builder_event (fst (fst (attach_inline w msg p))) = true.
Proof.
  unfold attach_inline. destruct (guess_mime_type w p).
  destruct (w_read_binary w p); reflexivity.
Qed.

Lemma attach_loop_events w : forall paths acc,
  forallb builder_event (fst acc) = true ->
  forallb builder_event (fst (attach_loop w paths acc)) = true.
Proof.
  unfold attach_loop.
  induction paths as [|p paths IH]; intros [ev msg] H; simpl; [exact H|].
  pose proof (attach_regular_events w msg p) as E.
  destruct (attach_regular w msg p) as [ev' msg']. apply IH. simpl in *.
  rewrite List.forallb_app, H, E. reflexivity.
Qed.

Lemma inline_loop_events w : forall paths acc,
  forallb builder_event (fst (fst acc)) = true ->
  forallb builder_event (fst (fst (inline_loop w paths acc))) = true.
Proof.
  unfold inline_loop.
  induction paths as [|p paths IH]; intros [[ev msg] cids] H; simpl; [exact H|].
  pose proof (attach_inline_events w msg p) as E.
  destruct (attach_inline w msg p) as [[ev' msg'] cid]. apply IH. simpl in *.
  rewrite List.forallb_app, H, E. reflexivity.
Qed.

Lemma save_eml_events w n msg to sd :
  forallb builder_event (fst (save_eml w n msg to sd)) = true.
Proof.
  unfold save_eml. destruct sd as [dir|]; [|reflexivity].
  destruct (PyStr.truthy dir); [|reflexivity].
  destruct (w_write_eml w _); reflexivity.
Qed.

Lemma build_message_events w n fn fa to subj tb hb inls atts rt un sd ev x :
  build_message w n fn fa to subj tb hb inls atts rt un sd = inr (ev, x) ->
  forallb builder_event ev = true.
Proof.
  unfold build_message. destruct (from_header w fn fa) as [e|from]; [discriminate|].
  match goal with |- context [inline_loop w inls ?acc] =>
    pose proof (inline_loop_events w inls acc eq_refl) as H1;
    destruct (inline_loop w inls acc) as [[ev1 msg1] cids] end.
  pose proof (attach_loop_events w atts (ev1, msg1) H1) as H2.
  destruct (attach_loop w atts (ev1, msg1)) as [ev2 msg2].
  pose proof (save_eml_events w n msg2 to sd) as H3.
  destruct (save_eml w n msg2 to sd) as [ev3 msg3].
  simpl in *. intros E. injection E as <- _.
  rewrite List.forallb_app, H2, H3. reflexivity.
Qed.

Lemma build_for_to a w su st email tb hb ev msg cids :
  build_for a w su st email tb hb = inr (ev, (msg, cids)) ->
  header "To" msg = Some email.
Proof.
  intros B. unfold build_for in B.
  destruct (from_header w (Args.from_name a) (from_addr_of a su)) as [e|from] eqn:F.
  - rewrite (build_message_raises _ _ _ _ _ _ _ _ _ _ _ _ _ _ F) in B. discriminate.
  - destruct (build_message_spec w (total st) (Args.from_name a) (from_addr_of a su)
                email (Args.subject a) tb hb (Args.inline a) (Args.attach a)
                (Args.reply_to a) (Args.unsubscribe a) (Args.save_eml_dir a) from F)
      as (ev' & msg' & cids' & E & T & _).
    rewrite E in B. injection B as _ <- _. unfold header in *.
    rewrite (proj1 (save_eml_keeps _ _ _ _ _)). exact T.
Qed.

Lemma process_step a w su st email name r :
  step a w su st email
    (fst (fst (process a w su st (email, name, r))))
    (snd (fst (process a w su st (email, name, r))))
    (snd (process a w su st (email, name, r))).
Proof.
  destruct (is_valid_email email) eqn:V.
  2:{ rewrite process_invalid by exact V. simpl. constructor. exact V. }
  destruct (decide (email ∈ seen st)) as [Hs|Hs].
  { rewrite process_duplicate by assumption. simpl. constructor; assumption. }
  rewrite process_fresh by assumption.
  destruct (consent_gate a r) as [e|[|]]; simpl;
    [apply step_abort; auto; discriminate | | apply step_no_consent; assumption].
  unfold deliver.
  destruct (render_or_empty (su_template_text su) _) as [tb|m|e|]; simpl;
    try (apply step_abort; eauto; discriminate).
  destruct (render_or_empty (su_template_html su) _) as [hb|m|e|]; simpl;
    try (apply step_abort; eauto; discriminate).
  destruct (build_for a w su (seen_add email (count_total st)) email tb hb)
    as [e|[evb [msg cids]]] eqn:B; simpl.
  { apply step_abort; auto; discriminate. }
  pose proof (build_for_to _ _ _ _ _ _ _ _ _ _ B) as T.
  pose proof (build_message_events _ _ _ _ _ _ _ _ _ _ _ _ _ _ _ B) as Be.
  unfold dispatch. simpl total.
  destruct (Args.dry_run a) eqn:D; simpl.
  { apply step_dry_run; assumption. }
  destruct (w_smtp_send w (S (total st)) msg) eqn:Sd; simpl.
  2:{ apply step_send_failed; assumption. }
  destruct (PrimFloat.ltb 0 (su_rate_delay su)) eqn:L; simpl.
  2:{ apply step_sent; assumption. }
  destruct (time_sleep _ (su_rate_delay su)) eqn:Sl; simpl.
  - eapply step_pause_failed; eassumption.
  - apply step_sent_paused; assumption.
Qed.

End StepFacts.

Import StepFacts.

Module TallyFacts.

Lemma step_tally a w su st email ev st' c :
  step a w su st email ev st' c ->
  (PrimFloat.ltb 0 (su_rate_delay su) = true ->
   forall n, time_sleep (w_monotonic w n) (su_rate_delay su) = None) ->
  c = Next ->
  total st' = S (total st) /\ sent st' + skipped st' = S (sent st + skipped st).
Proof.
  intros H P C. destruct H; try discriminate; simpl; try (split; lia).
  match goal with L : PrimFloat.ltb _ _ = true, T : time_sleep _ _ = Some _ |- _ =>
    rewrite (P L _) in T; discriminate end.
Qed.

(** The tally adds up at the end of every run in which no pause fails. *)
Lemma loop_tally a w su : forall items st evs st',
  (PrimFloat.ltb 0 (su_rate_delay su) = true ->
   forall n, time_sleep (w_monotonic w n) (su_rate_delay su) = None) ->
  loop a w su st items = (evs, st', Completed) ->
  sent st + skipped st = total st ->
  sent st' + skipped st' = total st'.
Proof.
  induction items as [|[e|[[email name] r]] items IH]; intros st evs st' P L I.
  - injection L as _ <-. exact I.
  - discriminate.
  - rewrite loop_cons in L.
    pose proof (process_step a w su st email name r) as H.
    destruct (process a w su st (email, name, r)) as [[ev st1] c]. simpl in H.
    destruct c as [|t0].
    + destruct (loop a w su st1 items) as [[evs1 st2] t1] eqn:L1.
      injection L as _ <- ->.
      destruct (step_tally _ _ _ _ _ _ _ _ H P eq_refl) as [T S].
      eapply IH; eauto. lia.
    + injection L as _ <- ->.
      clear -H. exfalso. inversion H. congruence.
Qed.

Lemma loop_total a w su : forall items st evs st',
  loop a w su st items = (evs, st', Completed) ->
  total st' = total st + length items.
Proof.
  induction items as [|[e|[[email name] r]] items IH]; intros st evs st' L.
  - injection L as _ <-. simpl. lia.
  - discriminate.
  - rewrite loop_cons in L.
    pose proof (process_step a w su st email name r) as H.
    destruct (process a w su st (email, name, r)) as [[ev st1] c]. simpl in H.
    destruct c as [|t0].
    + destruct (loop a w su st1 items) as [[evs1 st2] t1] eqn:L1.
      injection L as _ <- ->. rewrite (IH _ _ _ L1).
      assert (T : total st1 = S (total st)) by (destruct H; reflexivity).
      rewrite T. simpl. lia.
    + injection L as _ <- ->. clear -H. exfalso. inversion H. congruence.
Qed.

(** A run of [send_messages] that returns went through the loop. *)
Lemma send_messages_completed a w ev st :
  send_messages a w = (ev, st, Completed) ->
  exists su items evs,
    iter_recipients a w = Some items
    /\ su_rate_delay su = rate_delay a
    /\ loop a w su initial items = (evs, st, Completed).
Proof.
  unfold send_messages.
  destruct (negb (port_is_int a w)); [discriminate|].
  destruct (negb (Args.dry_run a) && _); [discriminate|].
  destruct (negb (Args.dry_run a) && negb (w_smtp_connect w)); [discriminate|].
  destruct (load_template w (Args.template_text a) default_text) as [tt|];
    [| discriminate].
  destruct (load_template w (Args.template_html a) default_html) as [th|];
    [| discriminate].
  destruct (iter_recipients a w) as [items|]; [| discriminate].
  match goal with |- context [loop a w ?su initial items] =>
    destruct (loop a w su initial items) as [[evs st0] t] eqn:L;
    intros E; exists su, items, evs end.
  destruct t; try discriminate. injection E as _ <-. auto.
Qed.

(** When no pause fails, a run that returns has counted every item the
    recipient source yielded, each as sent or as skipped. *)
Lemma send_messages_tally a w ev st :
  send_messages a w = (ev, st, Completed) ->
  (PrimFloat.ltb 0 (rate_delay a) = true ->
   forall n, time_sleep (w_monotonic w n) (rate_delay a) = None) ->
  sent st + skipped st = total st
  /\ exists items, iter_recipients a w = Some items /\ total st = length items.
Proof.
  intros E P.
  destruct (send_messages_completed _ _ _ _ E) as (su & items & evs & I & D & L).
  split.
  - eapply loop_tally; [| exact L | reflexivity]. rewrite D. exact P.
  - exists items. split; [exact I|]. rewrite (loop_total _ _ _ _ _ _ _ L). reflexivity.
Qed.

End TallyFacts.

Module SeenFacts.

Lemma step_seen a w su st email ev st' c :
  step a w su st email ev st' c ->
  seen st' = if is_valid_email email then {[email]} ∪ seen st else seen st.
Proof.
  intros H. destruct H;
    repeat match goal with V : is_valid_email _ = _ |- _ => rewrite V; clear V end;
    simpl; try reflexivity.
  set_solver.
Qed.

Lemma process_seen a w su st email name r :
  seen (snd (fst (process a w su st (email, name, r)))) =
  if is_valid_email email then {[email]} ∪ seen st else seen st.
Proof. eapply step_seen, process_step. Qed.

(** The [j]-th group of events is the loop body run on the [j]-th item, in
    a state whose set holds the valid addresses met before. *)
Lemma loop_state_at a w su : forall items st evs st' t j ev_j,
  loop a w su st items = (evs, st', t) ->
  evs !! j = Some ev_j ->
  exists email name r st_j,
    items !! j = Some (inr (email, name, r))
    /\ ev_j = fst (fst (process a w su st_j (email, name, r)))
    /\ (forall x, x ∈ seen st_j <->
                  x ∈ seen st
                  \/ (is_valid_email x = true /\ In x (emails (take j items)))).
Proof.
  induction items as [|[e|[[email name] r]] items IH]; intros st evs st' t j ev_j L J.
  - injection L as <- _ _. destruct j; discriminate.
  - injection L as <- _ _. destruct j; discriminate.
  - rewrite loop_cons in L.
    pose proof (process_seen a w su st email name r) as Sn.
    destruct (process a w su st (email, name, r)) as [[ev st1] c] eqn:P.
    simpl in Sn.
    assert (Z : ev_j = ev -> j = 0 ->
              exists email0 name0 r0 st_j,
                (inr (email, name, r) :: items) !! j = Some (inr (email0, name0, r0))
                /\ ev_j = fst (fst (process a w su st_j (email0, name0, r0)))
                /\ (forall x, x ∈ seen st_j <->
                     x ∈ seen st \/ (is_valid_email x = true
                       /\ In x (emails (take j (inr (email, name, r) :: items)))))).
    { intros -> ->. exists email, name, r, st. rewrite P. simpl.
      repeat split; auto. intros [?|[_ []]]; auto. }
    destruct c as [|t0].
    + destruct (loop a w su st1 items) as [[evs1 st2] t1] eqn:L1.
      injection L as <- _ _.
      destruct j as [|j]; [injection J as <-; apply Z; reflexivity|].
      simpl in J.
      destruct (IH _ _ _ _ _ _ L1 J) as (e' & n' & r' & st_j & I & E & Sj).
      exists e', n', r', st_j. repeat split; auto.
      * intros X. apply Sj in X as [X|[V X]]; [| right; simpl; auto].
        rewrite Sn in X. destruct (is_valid_email email) eqn:Ve; [| auto].
        apply elem_of_union in X as [X|X]; [| auto].
        apply elem_of_singleton in X. subst x. right. simpl. auto.
      * intros X. apply Sj. rewrite Sn.
        destruct X as [X|[V [X|X]]].
        -- left. destruct (is_valid_email email); set_solver.
        -- subst x. rewrite V. left. set_solver.
        -- right. auto.
    + injection L as <- _ _.
      destruct j as [|j]; [injection J as <-; apply Z; reflexivity|].
      destruct j; discriminate.
Qed.

Lemma loop_seen a w su : forall items st evs st' t,
  loop a w su st items = (evs, st', t) ->
  seen st ⊆ seen st'
  /\ forall x, x ∈ seen st' ->
       x ∈ seen st \/ (is_valid_email x = true /\ In x (emails items)).
Proof.
  induction items as [|[e|[[email name] r]] items IH]; intros st evs st' t L.
  - injection L as _ <- _. split; [set_solver | auto].
  - injection L as _ <- _. split; [set_solver | auto].
  - rewrite loop_cons in L.
    pose proof (process_seen a w su st email name r) as Sn.
    destruct (process a w su st (email, name, r)) as [[ev st1] c] eqn:P.
    simpl in Sn.
    assert (A : seen st ⊆ seen st1
                /\ forall x, x ∈ seen st1 ->
                     x ∈ seen st \/ (is_valid_email x = true
                                     /\ In x (emails (inr (email, name, r) :: items)))).
    { rewrite Sn. split.
      - destruct (is_valid_email email); set_solver.
      - intros x X. destruct (is_valid_email email) eqn:V; [| auto].
        apply elem_of_union in X as [X|X]; [| auto].
        apply elem_of_singleton in X. subst x. right. simpl. auto. }
    destruct A as [A1 A2].
    destruct c as [|t0].
    + destruct (loop a w su st1 items) as [[evs1 st2] t1] eqn:L1.
      injection L as _ <- _.
      destruct (IH _ _ _ _ L1) as [I1 I2]. split; [set_solver|].
      intros x X. apply I2 in X as [X|[V X]]; [auto | right; simpl; auto].
    + injection L as _ <- _. auto.
Qed.

End SeenFacts.

Import SeenFacts TallyFacts.

Lemma row_get_falsy r k : row_truthy r = false -> row_get r k = PStr EmptyString.
Proof.
  unfold row_truthy, row_get. destruct (cols r); [reflexivity | discriminate].
Qed.

(** The consent test on a row whose consent cell holds a string.  It
    applies only with consent required and a CSV source: the row goes on to
    rendering exactly when the value, stripped and lower-cased, is one of
    1, true, yes, y, and is skipped as having no consent otherwise; the
    single recipient of [--to] is never skipped for consent. *)
Theorem consent_gate_csv_only :
  (forall a w su st email name r v,
      is_valid_email email = true ->
      email ∉ seen st ->
      Args.require_consent a = true ->
      csv_mode a = true ->
      row_get r (Args.consent_field a) = PStr v ->
      consent_gate a r
      = inr (PyStr.in_tuple (PyStr.lower (PyStr.strip v)) affirmative)
      /\ process a w su st (email, name, r) =
         if PyStr.in_tuple (PyStr.lower (PyStr.strip v)) affirmative
         then deliver a w su (seen_add email (count_total st)) (email, name, r)
         else ([LogNoConsent email],
               count_skipped (seen_add email (count_total st)), Next))
  /\ map (fun v => PyStr.in_tuple (PyStr.lower (PyStr.strip v)) affirmative)
        ["yes"; "Y"; "true"; "TRUE"; "1"; " Yes "]
     = [true; true; true; true; true; true]
  /\ map (fun v => PyStr.in_tuple (PyStr.lower (PyStr.strip v)) affirmative)
        [""; "no"; "0"; "ok"; "yes please"]
     = [false; false; false; false; false]
  /\ (forall a r, Args.require_consent a = false -> consent_gate a r = inr true)
  /\ (forall a r, csv_mode a = false -> consent_gate a r <> inr false)
  /\ (forall a w,
        csv_mode a = false ->
        iter_recipients a w
        = Some [inr (Args.to a, str_or_empty (Args.name a), empty_row)]
        /\ consent_gate a empty_row = inr true).
Proof.
  split; [| split; [reflexivity | split; [reflexivity | split; [| split]]]].
  - intros a w su st email name r v V S R C G.
    assert (E : consent_gate a r
                = inr (PyStr.in_tuple (PyStr.lower (PyStr.strip v)) affirmative)).
    { unfold consent_gate. rewrite R, C.
      assert (X : (if row_truthy r then row_get r (Args.consent_field a)
                   else PStr EmptyString) = PStr v).
      { destruct (row_truthy r) eqn:T; [exact G|].
        rewrite <- G. symmetry. apply row_get_falsy. exact T. }
      rewrite X. unfold val_strip.
      destruct (PyStr.in_tuple (PyStr.lower (PyStr.strip v)) affirmative);
        reflexivity. }
    split; [exact E|].
    rewrite process_fresh by assumption. rewrite E.
    destruct (PyStr.in_tuple (PyStr.lower (PyStr.strip v)) affirmative);
      reflexivity.
  - intros a r R. unfold consent_gate. rewrite R. reflexivity.
  - intros a r C. unfold consent_gate. rewrite C.
    destruct (Args.require_consent a); [| discriminate].
    destruct (val_strip _); simpl; discriminate.
  - intros a w C. unfold iter_recipients, consent_gate. rewrite C.
    split; [reflexivity|].
    destruct (Args.require_consent a); reflexivity.
Qed.

(** C3. A CSV line shorter than the header has no consent value:
    [csv.DictReader] stores [None] under the column, the default of
    [row.get] does not apply, and [strip] is called on [None].  The row is
    not skipped as having no consent: the run ends there with
    [AttributeError], the counters are never reported, and the row after
    it, which has consented, is never processed. *)
Theorem missing_consent_cell_ends_run :
  let a := example_args "" (Some "list.csv") None true None in
  let short :=
    mkRow [("email", PStr "a@b.com"); ("name", PStr "Ann"); ("consent", PNone)]
      false in
  let w := example_world [short; example_row "c@d.com" "yes"] true true in
  let '(ev, st, t) := send_messages a w in
  Args.require_consent a = true
  /\ csv_mode a = true
  /\ row_get short (Args.consent_field a) = PNone
  /\ consent_gate a short = inl AttributeError
  /\ t = Uncaught AttributeError
  /\ ev = [LogDryRunMode]
  /\ total st = 1 /\ sent st = 0 /\ skipped st = 0.
Proof. vm_compute. repeat split. Qed.

(** C9. The set of seen addresses holds only addresses that passed
    validation and were met in the run; an invalid address is logged as
    invalid at every occurrence and leaves the set as it is; an address
    that got past the duplicate test is in the set afterwards, also when
    it is then skipped for consent or its send fails; the set only grows,
    and an address in it is skipped as a duplicate. *)
Theorem seen_holds_valid_first_occurrences :
  (forall a w su items evs st' t x,
      loop a w su initial items = (evs, st', t) ->
      x ∈ seen st' ->
      is_valid_email x = true /\ In x (emails items))
  /\ (forall a w su st email name r,
        is_valid_email email = false ->
        process a w su st (email, name, r)
        = ([LogInvalid email], count_skipped (count_total st), Next)
        /\ seen (count_skipped (count_total st)) = seen st)
  /\ (forall a w su st email name r,
        is_valid_email email = true ->
        email ∈ seen (snd (fst (process a w su st (email, name, r)))))
  /\ (forall a w su st email name r,
        In (LogNoConsent email) (fst (fst (process a w su st (email, name, r))))
        \/ In (LogSendFailed email)
             (fst (fst (process a w su st (email, name, r)))) ->
        email ∈ seen (snd (fst (process a w su st (email, name, r)))))
  /\ (forall a w su st items evs st' t,
        loop a w su st items = (evs, st', t) -> seen st ⊆ seen st')
  /\ (forall a w su st email name r,
        is_valid_email email = true ->
        email ∈ seen st ->
        process a w su st (email, name, r)
        = ([LogDuplicate email], count_skipped (count_total st), Next)).
Proof.
  split; [| split; [| split; [| split; [| split]]]].
  - intros a w su items evs st' t x L X.
    destruct (loop_seen _ _ _ _ _ _ _ _ L) as [_ H].
    apply H in X as [X|X]; [| exact X].
    simpl in X. apply not_elem_of_empty in X. contradiction.
  - intros. split; [apply process_invalid; assumption | reflexivity].
  - intros a w su st email name r V. rewrite process_seen, V. set_solver.
  - intros a w su st email name r H. rewrite process_seen.
    destruct (is_valid_email email) eqn:V; [set_solver|].
    rewrite process_invalid in H by exact V. simpl in H.
    destruct H as [[H|[]]|[H|[]]]; discriminate.
  - intros a w su st items evs st' t L. eapply loop_seen; eauto.
  - intros. apply process_duplicate; assumption.
Qed.

Module DedupFacts.

Lemma emails_take_In x : forall items j,
  In x (emails (take j items)) <->
  exists k n r, k < j /\ items !! k = Some (inr (x, n, r)).
Proof.
  induction items as [|i items IH]; intros j.
  - rewrite take_nil. simpl. split; [tauto|].
    intros (k & n & r & _ & H). destruct k; discriminate.
  - destruct j as [|j].
    + simpl. split; [tauto|]. intros (k & n & r & H & _). lia.
    + change (take (S j) (i :: items)) with (i :: take j items).
      change (emails (i :: take j items))
        with ((match i with inr (e, _, _) => [e] | inl _ => [] end)
                ++ emails (take j items)).
      rewrite in_app_iff, IH. split.
      * intros [H | (k & n & r & K & H)].
        -- destruct i as [e|[[e n] r]]; [destruct H|].
           destruct H as [<-|[]]. exists 0, n, r. split; [lia | reflexivity].
        -- exists (S k), n, r. split; [lia | exact H].
      * intros (k & n & r & K & H). destruct k as [|k].
        -- injection H as ->. left. left. reflexivity.
        -- right. exists k, n, r. split; [lia | exact H].
Qed.

Lemma builder_not_gate evb :
  forallb builder_event evb = true ->
  forallb (fun e => negb (gate_event e)) evb = true.
Proof.
  induction evb as [|e evb IH]; simpl; [reflexivity|].
  intros H. apply andb_true_iff in H as [He H]. rewrite IH by exact H.
  destruct e; try discriminate; reflexivity.
Qed.

Lemma builder_no_transport evb :
  forallb builder_event evb = true -> transport_addresses evb = [].
Proof.
  induction evb as [|e evb IH]; simpl; [reflexivity|].
  intros H. apply andb_true_iff in H as [He H].
  unfold transport_addresses in *. simpl. rewrite IH by exact H.
  destruct e; try discriminate; reflexivity.
Qed.

Lemma transport_app ev1 ev2 :
  transport_addresses (ev1 ++ ev2)
  = transport_addresses ev1 ++ transport_addresses ev2.
Proof. apply flat_map_app. Qed.

Lemma step_gate a w su st email ev st' c :
  step a w su st email ev st' c ->
  is_valid_email email = true -> email ∉ seen st ->
  forallb (fun e => negb (gate_event e)) ev = true.
Proof.
  intros H V S. destruct H; try congruence; try contradiction;
    try (rewrite List.forallb_app, builder_not_gate by assumption; reflexivity);
    try reflexivity.
  match goal with D : _ \/ _ |- _ => destruct D as [-> | [m ->]] end; reflexivity.
Qed.

Lemma step_transport a w su st email ev st' c :
  step a w su st email ev st' c ->
  transport_addresses ev = []
  \/ (transport_addresses ev = [email] /\ (email ∉ seen st)
      /\ is_valid_email email = true).
Proof.
  intros H. destruct H;
    try (left; reflexivity);
    try (right; rewrite transport_app, builder_no_transport by assumption;
         unfold transport_addresses; simpl;
         match goal with T : header _ _ = Some _ |- _ => rewrite T end;
         auto; fail).
  - left. match goal with D : _ \/ _ |- _ => destruct D as [-> | [m ->]] end;
      reflexivity.
  - left. rewrite transport_app, builder_no_transport by assumption. reflexivity.
Qed.

Lemma loop_transport a w su : forall items st evs st' t,
  loop a w su st items = (evs, st', t) ->
  NoDup (transport_addresses (concat evs))
  /\ forall x, In x (transport_addresses (concat evs)) -> x ∉ seen st.
Proof.
  induction items as [|[e|[[email name] r]] items IH]; intros st evs st' t L.
  - injection L as <- _ _. split; [constructor | intros x []].
  - injection L as <- _ _. split; [constructor | intros x []].
  - rewrite loop_cons in L.
    pose proof (process_step a w su st email name r) as H.
    pose proof (process_seen a w su st email name r) as Sn.
    destruct (process a w su st (email, name, r)) as [[ev st1] c].
    simpl in H, Sn. apply step_transport in H.
    destruct c as [|t0].
    + destruct (loop a w su st1 items) as [[evs1 st2] t1] eqn:L1.
      injection L as <- _ _.
      destruct (IH _ _ _ _ L1) as [N F].
      change (concat (ev :: evs1)) with (ev ++ concat evs1).
      rewrite transport_app.
      destruct H as [-> | (-> & Fr & V)]; simpl.
      * split; [exact N|]. intros x X. apply F in X. rewrite Sn in X.
        destruct (is_valid_email email); set_solver.
      * rewrite V in Sn. split.
        -- constructor; [| exact N]. intros X.
           apply list_elem_of_In, F in X. rewrite Sn in X. set_solver.
        -- intros x [<- | X]; [exact Fr|]. apply F in X. rewrite Sn in X.
           set_solver.
    + injection L as <- _ _. simpl. rewrite app_nil_r.
      destruct H as [-> | (-> & Fr & V)].
      * split; [constructor | intros x []].
      * split; [| intros x [<- | []]; exact Fr].
        constructor; [| constructor]. intros X.
        apply list_elem_of_In in X. destruct X.
Qed.

End DedupFacts.
Import DedupFacts.

(** C2, for addresses that pass validation.  With the same valid address
    in several items, the first occurrence gets past the validity and
    duplicate tests, every later one that is processed is skipped as a
    duplicate whatever its row holds, and no address is handed to the
    transport twice. *)
Theorem later_occurrences_are_duplicates :
  forall a w su items evs st' t,
    loop a w su initial items = (evs, st', t) ->
    NoDup (transport_addresses (concat evs))
    /\ (forall i email name r ev_i,
          is_valid_email email = true ->
          items !! i = Some (inr (email, name, r)) ->
          (forall k n' r', k < i -> items !! k <> Some (inr (email, n', r'))) ->
          evs !! i = Some ev_i ->
          forallb (fun e => negb (gate_event e)) ev_i = true)
    /\ (forall i j email name_i r_i name_j r_j ev_j,
          is_valid_email email = true ->
          i < j ->
          items !! i = Some (inr (email, name_i, r_i)) ->
          items !! j = Some (inr (email, name_j, r_j)) ->
          evs !! j = Some ev_j ->
          ev_j = [LogDuplicate email]).
Proof.
  intros a w su items evs st' t L. split; [| split].
  - eapply loop_transport; eauto.
  - intros i email name r ev_i V I First E.
    destruct (loop_state_at _ _ _ _ _ _ _ _ _ _ L E)
      as (e' & n' & r' & st_i & I' & -> & Si).
    rewrite I in I'. injection I' as <- <- <-.
    eapply step_gate; [apply process_step | exact V |].
    intros X. apply Si in X as [X | [_ X]].
    + simpl in X. apply not_elem_of_empty in X. exact X.
    + apply emails_take_In in X as (k & n0 & r0 & K & X).
      exact (First k n0 r0 K X).
  - intros i j email name_i r_i name_j r_j ev_j V Lt Ii Ij E.
    destruct (loop_state_at _ _ _ _ _ _ _ _ _ _ L E)
      as (e' & n' & r' & st_j & I' & -> & Sj).
    rewrite Ij in I'. injection I' as <- <- <-.
    rewrite process_duplicate; [reflexivity | exact V |].
    apply Sj. right. split; [exact V|].
    apply emails_take_In. exists i, name_i, r_i. auto.
Qed.

Module PauseFacts.

Lemma positive_is_truthy r : PrimFloat.ltb 0 r = true -> float_truthy r = true.
Proof.
  unfold float_truthy. rewrite FloatAxioms.ltb_spec, FloatAxioms.eqb_spec.
  change (Prim2SF 0) with (S754_zero false).
  destruct (Prim2SF r) as [s|s| |s m e]; simpl; try discriminate;
    destruct s; simpl; try discriminate; reflexivity.
Qed.

Lemma pauses_app ev1 ev2 : pauses (ev1 ++ ev2) = pauses ev1 ++ pauses ev2.
Proof. apply flat_map_app. Qed.

Lemma has_sent_app ev1 ev2 : has_sent (ev1 ++ ev2) = has_sent ev1 || has_sent ev2.
Proof. apply List.existsb_app. Qed.

Lemma builder_no_pause evb :
  forallb builder_event evb = true -> pauses evb = [] /\ has_sent evb = false.
Proof.
  induction evb as [|e evb IH]; simpl; [auto|].
  intros H. apply andb_true_iff in H as [He H]. destruct (IH H) as [P S].
  unfold pauses in *. simpl. rewrite P, S.
  destruct e; try discriminate; auto.
Qed.

Lemma builder_no_send evb msg :
  forallb builder_event evb = true -> ~ In (SmtpSend msg) evb.
Proof.
  intros H I. rewrite forallb_forall in H. specialize (H _ I). discriminate.
Qed.

(** The events of one recipient around the pause. *)
Lemma step_pause a w su st email ev st' c :
  step a w su st email ev st' c ->
  (has_sent ev = false /\ pauses ev = []
   /\ (Args.dry_run a = true
       \/ forall msg, In (SmtpSend msg) ev ->
                      w_smtp_send w (S (total st)) msg = false))
  \/ (Args.dry_run a = false
      /\ exists pre msg tail,
           ev = pre ++ SmtpSend msg :: LogSent email
                   :: (if PrimFloat.ltb 0 (su_rate_delay su)
                       then Sleep (su_rate_delay su) :: tail else tail)
           /\ w_smtp_send w (S (total st)) msg = true
           /\ has_sent ev = true
           /\ pauses pre = [] /\ pauses tail = []).
Proof.
  intros H. destruct H.
  1-3: left; repeat split; right; intros m [I | []]; discriminate.
  - left. match goal with D : _ \/ _ |- _ => destruct D as [-> | [m ->]] end;
      repeat split; right; intros m' I; cbn in I; intuition discriminate.
  - left. destruct (builder_no_pause evb) as [P S]; [assumption|].
    rewrite has_sent_app, pauses_app, P, S. repeat split. left. assumption.
  - right. split; [assumption|]. destruct (builder_no_pause evb) as [P S]; [assumption|].
    exists evb, msg, []. rewrite has_sent_app, S.
    match goal with L : PrimFloat.ltb _ _ = _ |- _ => rewrite L end. auto.
  - right. split; [assumption|]. destruct (builder_no_pause evb) as [P S]; [assumption|].
    exists evb, msg, []. rewrite has_sent_app, S.
    match goal with L : PrimFloat.ltb _ _ = _ |- _ => rewrite L end. auto.
  - right. split; [assumption|]. destruct (builder_no_pause evb) as [P S]; [assumption|].
    exists evb, msg, [LogSendFailed email]. rewrite has_sent_app, S.
    match goal with L : PrimFloat.ltb _ _ = _ |- _ => rewrite L end. auto.
  - left. destruct (builder_no_pause evb) as [P S]; [assumption|].
    rewrite has_sent_app, pauses_app, P, S. repeat split. right.
    intros m I. apply in_app_iff in I as [I | [I | [I | []]]].
    + destruct (builder_no_send _ _ ltac:(eassumption) I).
    + injection I as <-. assumption.
    + discriminate.
Qed.

End PauseFacts.
Import PauseFacts.

(** Where [time.sleep] is called.  The delay is 60 divided by the rate
    when the rate is given and positive, and zero otherwise.  A send is
    logged as sent exactly when the run is live and the server took the
    message; for each recipient [time.sleep] is called exactly then and
    when the delay is positive; it is called with the delay, right after
    the log line of that send, and not at all in a dry run, after a skip,
    after a send that failed, or with a delay of zero. *)
Theorem pause_only_after_live_send :
  (forall a,
      Args.rate_per_minute a = None ->
      rate_delay a = 0%float /\ PrimFloat.ltb 0 (rate_delay a) = false)
  /\ (forall a r,
        Args.rate_per_minute a = Some r ->
        PrimFloat.ltb 0 r = false ->
        rate_delay a = 0%float /\ PrimFloat.ltb 0 (rate_delay a) = false)
  /\ (forall a r,
        Args.rate_per_minute a = Some r ->
        PrimFloat.ltb 0 r = true ->
        rate_delay a = PrimFloat.div 60 r)
  /\ (forall a w su st email name r,
        su_rate_delay su = rate_delay a ->
        let ev := fst (fst (process a w su st (email, name, r))) in
        pauses ev
        = (if has_sent ev && PrimFloat.ltb 0 (rate_delay a)
           then [rate_delay a] else [])
        /\ (Args.dry_run a = true -> has_sent ev = false)
        /\ (has_sent ev = true <->
            Args.dry_run a = false
            /\ exists msg, In (SmtpSend msg) ev
                           /\ w_smtp_send w (S (total st)) msg = true)
        /\ (has_sent ev = true ->
            exists pre msg tail,
              ev = pre ++ SmtpSend msg :: LogSent email
                      :: (if PrimFloat.ltb 0 (rate_delay a)
                          then Sleep (rate_delay a) :: tail else tail)
              /\ w_smtp_send w (S (total st)) msg = true
              /\ pauses pre = [] /\ pauses tail = [])).
Proof.
  split; [| split; [| split]].
  - intros a R. unfold rate_delay. rewrite R. split; reflexivity.
  - intros a r R L. unfold rate_delay. rewrite R, L, andb_false_r.
    split; reflexivity.
  - intros a r R L. unfold rate_delay.
    rewrite R, L, (positive_is_truthy r L). reflexivity.
  - intros a w su st email name r D ev.
    pose proof (process_step a w su st email name r) as H.
    apply step_pause in H. rewrite D in H. fold ev in H. clearbody ev.
    destruct H as [(S & P & N) | (Dr & pre & msg & tail & E & Sd & S & Pp & Pt)].
    + rewrite S, P. simpl. split; [reflexivity|]. split; [reflexivity|].
      split; [| discriminate]. split; [discriminate|].
      intros (Dr & msg & I & Sd). destruct N as [N | N]; [congruence|].
      rewrite (N msg I) in Sd. discriminate.
    + rewrite S. simpl. split; [| split; [| split]].
      * rewrite E, pauses_app, Pp. simpl.
        destruct (PrimFloat.ltb 0 (rate_delay a)); unfold pauses in *; simpl;
          rewrite Pt; reflexivity.
      * congruence.
      * split; [| reflexivity]. intros _. split; [exact Dr|].
        exists msg. split; [| exact Sd]. rewrite E.
        apply in_app_iff. right. left. reflexivity.
      * intros _. exists pre, msg, tail. auto.
Qed.

(** C7. With a rate so small that [time.sleep] rejects the delay, no pause
    follows a live send that succeeded: both recipients are sent to and
    logged as sent, [time.sleep] is called after each with 60 divided by
    the rate, and each call raises at once, whatever the clock reads, so
    that the second send follows the first without any pause. *)
Theorem rejected_pause_is_no_pause :
  let a := example_args "" (Some "list.csv") (Some 1e-9%float) false None in
  let w := example_world [example_row "a@b.com" "yes"; example_row "c@d.com" "yes"]
             true true in
  let d := PrimFloat.div 60 1e-9 in
  let '(ev, st, t) := send_messages a w in
  rate_delay a = d
  /\ (forall now, time_sleep now d = Some OverflowError)
  /\ t = Completed
  /\ transport_addresses ev = ["a@b.com"; "c@d.com"]
  /\ List.filter (fun e => match e with SmtpSend _ => false | _ => true end) ev
     = [LogSent "a@b.com"; Sleep d; LogSendFailed "a@b.com";
        LogSent "c@d.com"; Sleep d; LogSendFailed "c@d.com";
        SmtpQuit; LogDone 2 2 2].
Proof. vm_compute. repeat split. Qed.

(** C1. With a rate so small that [time.sleep] rejects the delay, the
    recipient whose send succeeded is counted as sent and then, by the
    handler of the failed pause, as skipped: the run ends normally with
    sent + skipped = total + 1. *)
Theorem tally_counts_failed_pause_twice :
  let '(ev, st, t) :=
    send_messages (example_args "a@b.com" None (Some 1e-9%float) false None)
      (example_world [] true true) in
  t = Completed
  /\ total st = 1 /\ sent st = 1 /\ skipped st = 1
  /\ sent st + skipped st <> total st
  /\ last ev = Some (LogDone 1 1 1).
Proof. vm_compute. repeat split; discriminate. Qed.

(** C2 as worded fails on an address that is not valid: met twice, it is
    logged as invalid twice, and neither occurrence gets to the duplicate
    test. *)
Lemma invalid_address_repeated_is_not_duplicate :
  let a := example_args "" (Some "list.csv") None true None in
  let rows := [example_row "not-an-email" "yes"; example_row "not-an-email" "yes"] in
  let w := example_world rows true true in
  fst (fst (loop a w (example_setup a) initial (map (recipient_of_row a) rows)))
  = [[LogInvalid "not-an-email"]; [LogInvalid "not-an-email"]]
  /\ fst (fst (send_messages a w))
     = [LogDryRunMode; LogInvalid "not-an-email"; LogInvalid "not-an-email";
        LogDone 2 0 2].
Proof. split; vm_compute; reflexivity. Qed.

(** At an infinite rate, which is given and positive, the delay 60/inf is
    zero and [time.sleep] is not called after the live send that
    returned. *)
Lemma no_pause_at_infinite_rate :
  let a := example_args "a@b.com" None (Some infinity) false None in
  let ev := fst (fst (send_messages a (example_world [] true true))) in
  PrimFloat.ltb 0 infinity = true
  /\ has_sent ev = true
  /\ pauses ev = [].
Proof. vm_compute. repeat split. Qed.


(** ** Instances of the theorems *)


Lemma unreadable_resource_is_omitted_witness :
  readable (example_world [] true true) "logo.png" = false
  /\ snd (attach_regular (example_world [] true true) (mkMsg [] [] [] None) "logo.png")
     = mkMsg [] [] [] None
  /\ snd (attach_inline (example_world [] true true) (mkMsg [] [] [] None) "logo.png")
     = EmptyString.
Proof.
  pose proof unreadable_resource_is_omitted as (Omit & _).
  destruct (Omit (example_world [] true true) (mkMsg [] [] [] None) "logo.png" eq_refl)
    as (R & _ & C & _).
  split; [reflexivity | split; [exact R | exact C]].
Defined.


Lemma eml_saved_before_dispatch_witness :
  w_write_eml (example_world [] false true)
    (path_join "out" (eml_filename "x@y.com" 1700000000)) = true
  /\ exists ev msg,
       deliver (example_args "x@y.com" None None false (Some "out"))
         (example_world [] false true) (mkSetup None "Hi {name}" "" 0%float)
         (count_total initial) ("x@y.com", "", empty_row)
       = (ev ++ [WriteFile "out/x_y.com_1700000000.eml" ""%string;
                 LogEmlSaved "out/x_y.com_1700000000.eml"]
             ++ [SmtpSend msg; LogSendFailed "x@y.com"],
          count_skipped (count_total initial), Next).
Proof.
  split; [reflexivity|].
  destruct (eml_saved_before_dispatch
              (example_args "x@y.com" None None false (Some "out"))
              (example_world [] false true) (mkSetup None "Hi {name}" "" 0%float)
              (count_total initial) "x@y.com" "" empty_row "Hi x@y.com" ""
              "Example Team <>" "out"
              eq_refl eq_refl eq_refl eq_refl eq_refl eq_refl)
    as (ev & msg & E & _ & Failed).
  rewrite (Failed eq_refl eq_refl) in E.
  exists ev, msg. exact E.
Defined.

Lemma consent_gate_csv_only_witness :
  row_get (example_row "a@b.com" "Y") "consent" = PStr "Y"
  /\ consent_gate (example_args "" (Some "list.csv") None true None)
       (example_row "a@b.com" "Y") = inr true.
Proof.
  pose proof consent_gate_csv_only as (Gate & _).
  split; [reflexivity|].
  exact (proj1 (Gate (example_args "" (Some "list.csv") None true None)
                  (example_world [] true true)
                  (example_setup (example_args "" (Some "list.csv") None true None))
                  initial "a@b.com" "" (example_row "a@b.com" "Y") "Y"
                  eq_refl (not_elem_of_empty _) eq_refl eq_refl eq_refl)).
Defined.

Lemma seen_holds_valid_first_occurrences_witness :
  is_valid_email "not-an-email" = false
  /\ process (example_args "" (Some "list.csv") None true None)
       (example_world [] true true)
       (example_setup (example_args "" (Some "list.csv") None true None))
       initial ("not-an-email", "", example_row "not-an-email" "yes")
     = ([LogInvalid "not-an-email"], count_skipped (count_total initial), Next).
Proof.
  pose proof seen_holds_valid_first_occurrences as (_ & Invalid & _).
  split; [reflexivity|].
  exact (proj1 (Invalid (example_args "" (Some "list.csv") None true None)
                  (example_world [] true true)
                  (example_setup (example_args "" (Some "list.csv") None true None))
                  initial "not-an-email" "" (example_row "not-an-email" "yes")
                  eq_refl)).
Defined.

Lemma later_occurrences_are_duplicates_witness :
  let a := example_args "" (Some "list.csv") None false None in
  let items :=
    map (recipient_of_row a)
      [example_row "a@b.com" "yes"; example_row "a@b.com" "no"] in
  let run := loop a (example_world [] true true) (example_setup a) initial items in
  run = (fst (fst run), snd (fst run), snd run)
  /\ NoDup (transport_addresses (concat (fst (fst run)))).
Proof.
  intros a items run.
  assert (E : run = (fst (fst run), snd (fst run), snd run))
    by (destruct run as [[evs st] t]; reflexivity).
  split; [exact E|].
  exact (proj1 (later_occurrences_are_duplicates a (example_world [] true true)
                  (example_setup a) items (fst (fst run)) (snd (fst run))
                  (snd run) E)).
Defined.

Lemma pause_only_after_live_send_witness :
  PrimFloat.ltb 0 120 = true
  /\ rate_delay (example_args "a@b.com" None (Some 120%float) false None)
     = PrimFloat.div 60 120.
Proof.
  pose proof pause_only_after_live_send as (_ & _ & Positive & _).
  split; [reflexivity|].
  exact (Positive (example_args "a@b.com" None (Some 120%float) false None)
           120%float eq_refl eq_refl).
Defined.

(* ===================================================================== *)
(** * Further properties of the code *)
(* ===================================================================== *)

(** ** Addresses *)

Module AddrFacts.

Lemma is_valid_email_cases s :
  is_valid_email s = true <->
  address_shape s \/ exists u, s = u +:+ LF /\ address_shape u.
Proof.
  rewrite is_valid_email_true. split.
  - intros (u & t & -> & M & D). apply shape_of_match in M.
    apply at_dollar_cases in D as [-> | ->].
    + left. rewrite append_nil_r. exact M.
    + right. exists u. auto.
  - intros [Sh | (u & -> & Sh)].
    + exists s, EmptyString. rewrite append_nil_r.
      repeat split. apply shape_of_match. exact Sh.
    + exists u, LF. repeat split. apply shape_of_match. exact Sh.
Qed.

Lemma valid_without_line_feed s :
  PyStr.endswith s LF = false ->
  (is_valid_email s = true <-> address_shape s).
Proof.
  intros E. rewrite is_valid_email_cases. split; [| auto].
  intros [Sh | (u & -> & _)]; [exact Sh|].
  rewrite endswith_app in E. discriminate.
Qed.

End AddrFacts.
Import AddrFacts.

(** X1. [is_valid_email] accepts exactly the strings local@d1.d2 (three
    non-empty parts, one [@], no whitespace) and those strings followed by
    one line feed. *)
Theorem is_valid_email_accepts :
  forall s,
    is_valid_email s = true <->
    address_shape s \/ exists u, s = u +:+ LF /\ address_shape u.
Proof. exact is_valid_email_cases. Qed.

Module StripFacts.

Lemma lstrip_no_lead s : no_lead (PyStr.lstrip s) = true.
Proof.
  induction s as [|c s IH]; simpl; [reflexivity|].
  destruct (PyStr.isspace c) eqn:E; [exact IH|]. simpl. rewrite E. reflexivity.
Qed.

Lemma lstrip_id s : no_lead s = true -> PyStr.lstrip s = s.
Proof.
  destruct s as [|c s]; simpl; [reflexivity|].
  intros H. apply negb_true_iff in H. rewrite H. reflexivity.
Qed.

Lemma rstrip_cons c r :
  PyStr.rstrip (String c r) =
  match PyStr.rstrip r with
  | EmptyString => if PyStr.isspace c then EmptyString else String c EmptyString
  | r' => String c r'
  end.
Proof. reflexivity. Qed.

Lemma rstrip_no_lead s : no_lead s = true -> no_lead (PyStr.rstrip s) = true.
Proof.
  destruct s as [|c s]; [reflexivity|]. intros H. rewrite rstrip_cons.
  simpl in H. apply negb_true_iff in H.
  destruct (PyStr.rstrip s); [rewrite H|]; simpl; rewrite H; reflexivity.
Qed.

Lemma rstrip_no_trail s : no_trail (PyStr.rstrip s) = true.
Proof.
  induction s as [|c s IH]; [reflexivity|]. rewrite rstrip_cons.
  destruct (PyStr.rstrip s) as [|c' r'] eqn:E.
  - destruct (PyStr.isspace c) eqn:W; simpl; [reflexivity | rewrite W; reflexivity].
  - exact IH.
Qed.

Lemma rstrip_id s : no_trail s = true -> PyStr.rstrip s = s.
Proof.
  induction s as [|c s IH]; [reflexivity|]. intros H. rewrite rstrip_cons.
  destruct s as [|c' s'].
  - simpl in *. apply negb_true_iff in H. rewrite H. reflexivity.
  - rewrite IH by exact H. reflexivity.
Qed.

Lemma strip_no_lead s : no_lead (PyStr.strip s) = true.
Proof. apply rstrip_no_lead, lstrip_no_lead. Qed.

Lemma strip_no_trail s : no_trail (PyStr.strip s) = true.
Proof. apply rstrip_no_trail. Qed.

Lemma strip_id s : no_lead s = true -> no_trail s = true -> PyStr.strip s = s.
Proof.
  intros L T. unfold PyStr.strip. rewrite (lstrip_id s L). apply rstrip_id, T.
Qed.

Lemma strip_idempotent s : PyStr.strip (PyStr.strip s) = PyStr.strip s.
Proof. apply strip_id; [apply strip_no_lead | apply strip_no_trail]. Qed.

Lemma no_trail_not_LF s : no_trail s = true -> PyStr.endswith s LF = false.
Proof.
  induction s as [|c s IH]; [reflexivity|]. intros H.
  change (PyStr.endswith (String c s) LF)
    with (String.eqb (String c s) LF || PyStr.endswith s LF).
  destruct s as [|c' s'].
  - simpl in H. apply negb_true_iff in H. simpl.
    destruct (Ascii.eqb c "010") eqn:E; [| reflexivity].
    apply Ascii.eqb_eq in E. subst c. discriminate.
  - rewrite IH by exact H. rewrite orb_false_r.
    unfold LF. simpl. destruct (Ascii.eqb c "010"); reflexivity.
Qed.

Lemma recipient_of_row_inv a r e n r' :
  recipient_of_row a r = inr (e, n, r') ->
  exists ve vn,
    e = PyStr.strip ve /\ n = PyStr.strip vn /\ r' = r
    /\ row_get r (if PyStr.truthy (Args.email_field a)
                  then Args.email_field a else "email") = PStr ve
    /\ row_get r (if PyStr.truthy (Args.name_field a)
                  then Args.name_field a else "name") = PStr vn.
Proof.
  unfold recipient_of_row.
  destruct (row_get r (if PyStr.truthy (Args.email_field a) then _ else _))
    as [ve|]; simpl; [| discriminate].
  destruct (row_get r (if PyStr.truthy (Args.name_field a) then _ else _))
    as [vn|]; simpl; [| discriminate].
  intros E. injection E as <- <- <-. exists ve, vn. auto.
Qed.

End StripFacts.
Import StripFacts.

(** X2. What the CSV generator yields is trimmed: the address is the
    stripped value of the address column, the name the stripped value of
    the name column, and the row is passed on as it is; so the address and
    the name are unchanged by [strip], and the address is valid exactly
    when it has the shape local@d1.d2 (the line feed that [$] lets through
    cannot be there). *)
Theorem csv_recipient_is_trimmed :
  forall a r e n r',
    recipient_of_row a r = inr (e, n, r') ->
    r' = r
    /\ (exists v,
          row_get r (if PyStr.truthy (Args.email_field a)
                     then Args.email_field a else "email") = PStr v
          /\ e = PyStr.strip v)
    /\ (exists v,
          row_get r (if PyStr.truthy (Args.name_field a)
                     then Args.name_field a else "name") = PStr v
          /\ n = PyStr.strip v)
    /\ PyStr.strip e = e
    /\ PyStr.strip n = n
    /\ (is_valid_email e = true <-> address_shape e).
Proof.
  intros a r e n r' H.
  apply recipient_of_row_inv in H as (ve & vn & -> & -> & -> & Ge & Gn).
  split; [reflexivity|]. split; [eauto|]. split; [eauto|].
  split; [apply strip_idempotent|]. split; [apply strip_idempotent|].
  apply valid_without_line_feed, no_trail_not_LF, strip_no_trail.
Qed.

Lemma csv_recipient_is_trimmed_witness :
  recipient_of_row (example_args "" (Some "list.csv") None true None)
    (example_row "  a@b.com " "yes")
  = inr ("a@b.com", "", example_row "  a@b.com " "yes")
  /\ PyStr.strip "a@b.com" = "a@b.com".
Proof.
  split; [reflexivity|].
  exact (proj1 (proj2 (proj2 (proj2
    (csv_recipient_is_trimmed
       (example_args "" (Some "list.csv") None true None)
       (example_row "  a@b.com " "yes") "a@b.com" ""
       (example_row "  a@b.com " "yes") eq_refl))))).
Defined.

(** ** Template variables and rendering *)

Module VarFacts.

Lemma assoc_app {A} k (l1 l2 : list (string * A)) :
  assoc k (l1 ++ l2) =
  match assoc k l1 with
  | Some v => Some v
  | None => assoc k l2
  end.
Proof.
  induction l1 as [|[k' v] l1 IH]; simpl; [reflexivity|].
  destruct (String.eqb k k'); [reflexivity | exact IH].
Qed.

Lemma merge_assoc k : forall (l vs : list (string * pyval)),
  assoc k (fold_left (fun vs kv => if has_key (fst kv) vs then vs else vs ++ [kv])
             l vs)
  = match assoc k vs with
    | Some v => Some v
    | None => assoc k l
    end.
Proof.
  induction l as [|[k' v] l IH]; intros vs; simpl.
  - destruct (assoc k vs); reflexivity.
  - rewrite IH. unfold has_key. simpl.
    destruct (assoc k' vs) as [v'|] eqn:E.
    + destruct (assoc k vs) eqn:F; [reflexivity|].
      destruct (String.eqb k k') eqn:K; [| reflexivity].
      apply String.eqb_eq in K. subst k'. congruence.
    + rewrite assoc_app. simpl.
      destruct (assoc k vs); [reflexivity|].
      destruct (String.eqb k k'); reflexivity.
Qed.

Lemma variables_lookup e n r k :
  assoc k (Format.vars (build_variables e n r)) =
  if String.eqb k "name" then Some (PStr (shown_name e n))
  else if String.eqb k "email" then Some (PStr e)
  else assoc k (cols r).
Proof.
  unfold build_variables, shown_name.
  destruct (row_truthy r) eqn:T; simpl.
  - rewrite merge_assoc. simpl.
    destruct (String.eqb k "name"); [reflexivity|].
    destruct (String.eqb k "email"); reflexivity.
  - assert (C : cols r = []).
    { unfold row_truthy in T. destruct (cols r); [reflexivity | discriminate]. }
    rewrite C. simpl.
    destruct (String.eqb k "name"); [reflexivity|].
    destruct (String.eqb k "email"); reflexivity.
Qed.

End VarFacts.
Import VarFacts.

(** X3. In the variables of a recipient, [email] is the address and
    [name] is the name, or the address when the name is empty; a CSV column
    called [name] or [email] does not replace them, and every other column
    is there with its value. *)
Theorem variables_of_recipient :
  forall e n r,
    assoc "email" (Format.vars (build_variables e n r)) = Some (PStr e)
    /\ assoc "name" (Format.vars (build_variables e n r))
       = Some (PStr (if PyStr.truthy n then n else e))
    /\ (forall k,
          k <> "name"%string -> k <> "email"%string ->
          assoc k (Format.vars (build_variables e n r)) = assoc k (cols r))
    /\ Format.none_key (build_variables e n r) = rest r.
Proof.
  intros e n r. repeat split.
  - rewrite variables_lookup. reflexivity.
  - rewrite variables_lookup. reflexivity.
  - intros k N E. rewrite variables_lookup.
    apply String.eqb_neq in N, E. rewrite N, E. reflexivity.
  - apply none_key_variables.
Qed.

Lemma variables_of_recipient_witness :
  assoc "city"
    (Format.vars
       (build_variables "a@b.com" "Ann"
          (mkRow [("email", PStr "other"); ("city", PStr "Oslo")] false)))
  = Some (PStr "Oslo").
Proof.
  apply (proj1 (proj2 (proj2
    (variables_of_recipient "a@b.com" "Ann"
       (mkRow [("email", PStr "other"); ("city", PStr "Oslo")] false)))));
    discriminate.
Defined.

Module RenderFacts.
Import Format Template.

Lemma unparse_app ps qs : unparse (ps ++ qs) = unparse ps +:+ unparse qs.
Proof.
  induction ps as [|p ps IH]; simpl; [reflexivity|].
  rewrite IH, append_assoc. reflexivity.
Qed.

Lemma expand_lits vars s : forall ps,
  expand vars (lits s ++ ps) =
  match expand vars ps with
  | inr t => inr (s +:+ t)
  | inl k => inl k
  end.
Proof.
  unfold lits. induction s as [|c s IH]; intros ps; simpl.
  - destruct (expand vars ps); reflexivity.
  - rewrite IH. destruct (expand vars ps); reflexivity.
Qed.

Lemma plain_lits s : forallb plain (lits s) = true.
Proof. unfold lits. induction s; simpl; auto. Qed.



Lemma expand_lits_only vars s : expand vars (lits s) = inr s.
Proof.
  rewrite <- (app_nil_r (lits s)), expand_lits. simpl.
  rewrite append_nil_r. reflexivity.
Qed.

Lemma scan_one_hole vars pre name post v :
  plain_name name = true ->
  assoc name vars = Some v ->
  scan vars Text (unparse (lits pre ++ Hole name :: lits post))
  = Rendered (pre +:+ str_of v +:+ post).
Proof.
  intros P A. rewrite scan_unparse.
  - rewrite expand_lits. simpl. rewrite A, expand_lits_only. reflexivity.
  - rewrite List.forallb_app, plain_lits. simpl. rewrite P, plain_lits. reflexivity.
Qed.

Lemma default_text_pieces :
  default_text
  = unparse (lits "Hi " ++ Hole "name"
               :: lits ("," +:+ LF +:+ LF +:+ "This is a friendly message." +:+ LF)).
Proof. reflexivity. Qed.

Lemma default_html_pieces :
  default_html
  = unparse (lits "<p>Hi <strong>" ++ Hole "name"
               :: lits "</strong>,</p><p>This is a friendly message.</p>").
Proof. reflexivity. Qed.

End RenderFacts.
Import RenderFacts.

(** X4. With the built-in templates every recipient, whatever its row
    holds, gets both bodies, with the name (or, without a name, the
    address) in place of [{name}]: no recipient can make the run exit for a
    missing variable. *)
Theorem default_templates_render :
  forall e n r,
    render_or_empty default_text (build_variables e n r)
    = RText ("Hi " +:+ shown_name e n +:+ "," +:+ LF +:+ LF
             +:+ "This is a friendly message." +:+ LF)
    /\ render_or_empty default_html (build_variables e n r)
       = RText ("<p>Hi <strong>" +:+ shown_name e n
                +:+ "</strong>,</p><p>This is a friendly message.</p>").
Proof.
  intros e n r.
  assert (A : assoc "name" (Format.vars (build_variables e n r))
              = Some (PStr (shown_name e n)))
    by (rewrite variables_lookup; reflexivity).
  unfold render_or_empty, render_template, Format.format. split.
  - change (PyStr.truthy default_text) with true. cbv iota.
    rewrite default_text_pieces.
    rewrite (scan_one_hole _ _ "name" _ _ eq_refl A). reflexivity.
  - change (PyStr.truthy default_html) with true. cbv iota.
    rewrite default_html_pieces.
    rewrite (scan_one_hole _ _ "name" _ _ eq_refl A). reflexivity.
Qed.





(** ** The message builder *)

Module EnvelopeFacts.

Lemma build_message_inv w n fn fa to subj tb hb inls atts rt un sd ev msg cids :
  build_message w n fn fa to subj tb hb inls atts rt un sd = inr (ev, (msg, cids)) ->
  exists from,
    from_header w fn fa = inr from
    /\ headers msg =
       [("From", from); ("To", to); ("Subject", subj);
        ("Message-ID", w_make_msgid w n)]
       ++ (if truthy_opt rt then [("Reply-To", default "" rt)] else [])
       ++ (if truthy_opt un then [("List-Unsubscribe", default "" un)] else [])
    /\ alternative msg =
       (if PyStr.truthy tb then [("plain", tb)] else [])
       ++ (if PyStr.truthy hb then [("html", hb)] else [])
    /\ parts msg = file_parts w Inline inls ++ file_parts w Attachment atts.
Proof.
  unfold build_message. destruct (from_header w fn fa) as [e|from]; [discriminate|].
  match goal with |- context [inline_loop w inls ?acc] =>
    pose proof (inline_loop_parts w inls acc) as (H1 & H2 & H3);
    destruct (inline_loop w inls acc) as [[ev1 msg1] cids1] end.
  pose proof (attach_loop_parts w atts (ev1, msg1)) as (A1 & A2 & A3).
  destruct (attach_loop w atts (ev1, msg1)) as [ev2 msg2].
  pose proof (save_eml_keeps w n msg2 to sd) as (K1 & K2 & K3).
  destruct (save_eml w n msg2 to sd) as [ev3 msg3].
  simpl in *. intros E. injection E as _ <- _.
  exists from. rewrite K1, K2, K3, A1, A2, A3, H1, H2, H3. auto.
Qed.

Lemma basename_no_slash p : has_slash (basename p) = false.
Proof.
  unfold has_slash. induction p as [|c r IH]; [reflexivity|].
  change (basename (String c r))
    with (if PyStr.existsb (Ascii.eqb "/") (String c r) then basename r
          else String c r).
  destruct (PyStr.existsb (Ascii.eqb "/") (String c r)) eqn:E; [exact IH | exact E].
Qed.

Lemma basename_id p : has_slash p = false -> basename p = p.
Proof.
  unfold has_slash. destruct p as [|c r]; [reflexivity|]. intros H.
  change (basename (String c r))
    with (if PyStr.existsb (Ascii.eqb "/") (String c r) then basename r
          else String c r).
  rewrite H. reflexivity.
Qed.

Lemma part_of_props w d p q :
  In q (part_of w d p) ->
  readable w p = true
  /\ part_disposition q = d
  /\ part_filename q = basename p
  /\ part_content_id q = expected_cid q.
Proof.
  unfold part_of, readable, expected_cid.
  destruct (w_read_binary w p); simpl; try tauto.
  intros [<- | []]. simpl. destruct d; auto.
Qed.

Lemma file_parts_names w d paths :
  map part_filename (file_parts w d paths)
  = map basename (List.filter (readable w) paths).
Proof.
  unfold file_parts. induction paths as [|p paths IH]; [reflexivity|].
  simpl. rewrite map_app, IH. unfold part_of, readable.
  destruct (w_read_binary w p); reflexivity.
Qed.

Lemma file_parts_disposition w d paths q :
  In q (file_parts w d paths) ->
  part_disposition q = d
  /\ has_slash (part_filename q) = false
  /\ part_content_id q = expected_cid q.
Proof.
  unfold file_parts. intros H. apply in_flat_map in H as (p & _ & H).
  apply part_of_props in H as (_ & D & F & C).
  rewrite F. auto using basename_no_slash.
Qed.

Lemma inline_loop_keeps w : forall paths acc k,
  snd acc !! k = Some k -> snd (inline_loop w paths acc) !! k = Some k.
Proof.
  unfold inline_loop.
  induction paths as [|p paths IH]; intros [[ev msg] cids] k H; simpl; [exact H|].
  pose proof (attach_inline_cid w msg p) as C.
  destruct (attach_inline w msg p) as [[ev' msg'] c]. simpl in C.
  apply IH. simpl in *.
  destruct (PyStr.truthy c) eqn:T; [| exact H].
  destruct (decide (basename p = k)) as [E | N].
  - destruct (readable w p); subst c; [| discriminate].
    rewrite E. apply lookup_insert_eq.
  - rewrite lookup_insert_ne by exact N. exact H.
Qed.

Lemma inline_loop_records w : forall paths acc p,
  In p paths -> readable w p = true -> PyStr.truthy (basename p) = true ->
  snd (inline_loop w paths acc) !! basename p = Some (basename p).
Proof.
  induction paths as [|q paths IH]; intros [[ev msg] cids] p I R T; [destruct I|].
  destruct I as [-> | I].
  - unfold inline_loop. simpl.
    pose proof (attach_inline_cid w msg p) as C.
    destruct (attach_inline w msg p) as [[ev' msg'] c]. simpl in C.
    rewrite R in C. subst c. rewrite T.
    apply (inline_loop_keeps w paths (ev ++ ev', msg', _)). simpl.
    apply lookup_insert_eq.
  - unfold inline_loop. simpl.
    destruct (attach_inline w msg q) as [[ev' msg'] c].
    apply (IH (ev ++ ev', msg', _) p I R T).
Qed.

Lemma build_message_records w n fn fa to subj tb hb inls atts rt un sd ev msg cids :
  build_message w n fn fa to subj tb hb inls atts rt un sd = inr (ev, (msg, cids)) ->
  forall p,
    In p inls -> readable w p = true -> PyStr.truthy (basename p) = true ->
    cids !! basename p = Some (basename p).
Proof.
  unfold build_message. destruct (from_header w fn fa) as [e|from]; [discriminate|].
  match goal with |- context [inline_loop w inls ?acc] =>
    pose proof (inline_loop_records w inls acc) as R;
    destruct (inline_loop w inls acc) as [[ev1 msg1] cids1] end.
  destruct (attach_loop w atts (ev1, msg1)) as [ev2 msg2].
  destruct (save_eml w n msg2 to sd) as [ev3 msg3].
  simpl in *. intros E. injection E as _ _ <-. exact R.
Qed.

Lemma inline_loop_sources w : forall paths acc k cid,
  snd (inline_loop w paths acc) !! k = Some cid ->
  snd acc !! k = Some cid
  \/ (cid = k /\ PyStr.truthy k = true
      /\ exists p, In p paths /\ readable w p = true /\ basename p = k).
Proof.
  unfold inline_loop.
  induction paths as [|p paths IH]; intros [[ev msg] cids] k cid; simpl; [auto|].
  pose proof (attach_inline_cid w msg p) as C.
  destruct (attach_inline w msg p) as [[ev' msg'] c] eqn:E. simpl in C.
  intros H. apply IH in H. simpl in H.
  destruct H as [H | (K & T & q & Hq & R & B)]; [| right; eauto 8].
  destruct (PyStr.truthy c) eqn:T; [| auto].
  destruct (readable w p) eqn:R; subst c; [| discriminate].
  destruct (decide (basename p = k)) as [<- | N].
  - rewrite lookup_insert_eq in H. injection H as <-. right. eauto 8.
  - rewrite lookup_insert_ne in H by exact N. auto.
Qed.

Lemma build_message_sources w n fn fa to subj tb hb inls atts rt un sd ev msg cids :
  build_message w n fn fa to subj tb hb inls atts rt un sd = inr (ev, (msg, cids)) ->
  forall k cid,
    cids !! k = Some cid ->
    cid = k /\ PyStr.truthy k = true
    /\ exists p, In p inls /\ readable w p = true /\ basename p = k.
Proof.
  unfold build_message. destruct (from_header w fn fa) as [e|from]; [discriminate|].
  match goal with |- context [inline_loop w inls ?acc] =>
    pose proof (inline_loop_sources w inls acc) as R;
    destruct (inline_loop w inls acc) as [[ev1 msg1] cids1] end.
  destruct (attach_loop w atts (ev1, msg1)) as [ev2 msg2].
  destruct (save_eml w n msg2 to sd) as [ev3 msg3].
  simpl in *. intros E. injection E as _ _ <-. intros k cid L.
  apply R in L as [L | L]; [| exact L].
  rewrite lookup_empty in L. discriminate.
Qed.

Lemma inline_loop_boundaries w : forall paths acc,
  boundaries (snd (fst (inline_loop w paths acc))) = boundaries (snd (fst acc)).
Proof.
  unfold inline_loop.
  induction paths as [|p paths IH]; intros [[ev msg] cids]; [reflexivity|].
  simpl. assert (B : boundaries (snd (fst (attach_inline w msg p))) = boundaries msg).
  { unfold attach_inline. destruct (guess_mime_type w p).
    destruct (w_read_binary w p); reflexivity. }
  destruct (attach_inline w msg p) as [[ev' msg'] c]. simpl in B.
  match goal with |- context [fold_left _ paths ?acc] => rewrite (IH acc) end.
  exact B.
Qed.

Lemma attach_loop_boundaries w : forall paths acc,
  boundaries (snd (attach_loop w paths acc)) = boundaries (snd acc).
Proof.
  unfold attach_loop.
  induction paths as [|p paths IH]; intros [ev msg]; [reflexivity|].
  simpl. assert (B : boundaries (snd (attach_regular w msg p)) = boundaries msg).
  { unfold attach_regular. destruct (guess_mime_type w p).
    destruct (w_read_binary w p); reflexivity. }
  destruct (attach_regular w msg p) as [ev' msg']. simpl in B.
  rewrite (IH (ev ++ ev', msg')). exact B.
Qed.

Lemma save_eml_message w n msg to sd :
  snd (save_eml w n msg to sd)
  = if eml_serialised w n to sd then serialise w n msg else msg.
Proof.
  unfold save_eml, eml_serialised. destruct sd as [dir|]; [| reflexivity].
  destruct (PyStr.truthy dir); [| reflexivity]. simpl.
  destruct (w_write_eml w _); [reflexivity|].
  destruct (w_eml_serialised w _); reflexivity.
Qed.

End EnvelopeFacts.
Import EnvelopeFacts.

(** X7. A message that is built has the headers From, To, Subject and
    Message-ID, in that order, then Reply-To and List-Unsubscribe, each
    only when a non-empty value was given; its alternative bodies are the
    non-empty ones among the text and the HTML body, text first; none of
    this depends on the files attached. *)
Theorem message_envelope :
  forall w n fn fa to subj tb hb inls atts rt un sd ev msg cids,
    build_message w n fn fa to subj tb hb inls atts rt un sd
    = inr (ev, (msg, cids)) ->
    (exists from,
        from_header w fn fa = inr from
        /\ headers msg =
           [("From", from); ("To", to); ("Subject", subj);
            ("Message-ID", w_make_msgid w n)]
           ++ (if truthy_opt rt then [("Reply-To", default "" rt)] else [])
           ++ (if truthy_opt un then [("List-Unsubscribe", default "" un)]
               else []))
    /\ header "Reply-To" msg = (if truthy_opt rt then rt else None)
    /\ header "List-Unsubscribe" msg = (if truthy_opt un then un else None)
    /\ alternative msg =
       (if PyStr.truthy tb then [("plain", tb)] else [])
       ++ (if PyStr.truthy hb then [("html", hb)] else []).
Proof.
  intros w n fn fa to subj tb hb inls atts rt un sd ev msg cids B.
  destruct (build_message_inv _ _ _ _ _ _ _ _ _ _ _ _ _ _ _ _ B)
    as (from & F & H & A & _).
  split; [eauto|]. unfold header. rewrite H. repeat split; [| | exact A].
  - destruct rt as [x|]; simpl; [| destruct (truthy_opt un); reflexivity].
    destruct (PyStr.truthy x); [reflexivity|].
    destruct (truthy_opt un); reflexivity.
  - destruct rt as [x|], un as [y|]; simpl;
      try destruct (PyStr.truthy x); try destruct (PyStr.truthy y); reflexivity.
Qed.

Lemma message_envelope_witness :
  exists ev msg cids,
    build_message (example_world [] true true) 1 "" "me@example.com" "a@b.com"
      "Hello" "text" "" [] [] (Some "") (Some "<mailto:u@example.com>") None
    = inr (ev, (msg, cids))
    /\ header "Reply-To" msg = None
    /\ header "List-Unsubscribe" msg = Some "<mailto:u@example.com>"
    /\ alternative msg = [("plain", "text")].
Proof.
  eexists. eexists. eexists. split; [reflexivity|].
  pose proof (message_envelope (example_world [] true true) 1 "" "me@example.com"
                "a@b.com" "Hello" "text" "" [] [] (Some "")
                (Some "<mailto:u@example.com>") None _ _ _ eq_refl)
    as (_ & R & U & A).
  exact (conj R (conj U A)).
Defined.

(** X8. [build_message] can fail only where the From header is formed,
    and then before any file is read or written.  A message built without
    a save directory has no boundary set.  With a save directory the
    headers, the bodies, the parts and the content-ID map are the same,
    and the message itself is the same unless building got as far as
    serialising it for the file: then it comes back with the boundaries
    that the serialisation has set on it. *)
Theorem saving_sets_only_the_boundaries :
  forall w n fn fa to subj tb hb inls atts rt un sd,
    (forall e, from_header w fn fa = inl e <->
               build_message w n fn fa to subj tb hb inls atts rt un sd = inl e)
    /\ (forall ev msg cids,
          build_message w n fn fa to subj tb hb inls atts rt un None
          = inr (ev, (msg, cids)) ->
          boundaries msg = None
          /\ exists ev',
               build_message w n fn fa to subj tb hb inls atts rt un sd
               = inr (ev', (if eml_serialised w n to sd
                            then mkMsg (headers msg) (alternative msg) (parts msg)
                                   (Some (w_make_boundaries w n))
                            else msg, cids))).
Proof.
  intros w n fn fa to subj tb hb inls atts rt un sd. split.
  - intros e. split.
    + apply build_message_raises.
    + destruct (from_header w fn fa) as [e'|from] eqn:F.
      * rewrite (build_message_raises _ _ _ _ _ _ _ _ _ _ _ _ _ _ F). congruence.
      * destruct (build_message_spec w n fn fa to subj tb hb inls atts rt un sd
                    from F) as (ev & msg & cids & E & _).
        rewrite E. discriminate.
  - intros ev msg cids. unfold build_message.
    destruct (from_header w fn fa); [discriminate|].
    match goal with |- context [inline_loop w inls ?acc] =>
      pose proof (inline_loop_boundaries w inls acc) as B1;
      destruct (inline_loop w inls acc) as [[ev1 msg1] cids1] end.
    pose proof (attach_loop_boundaries w atts (ev1, msg1)) as B2.
    destruct (attach_loop w atts (ev1, msg1)) as [ev2 msg2].
    pose proof (save_eml_message w n msg2 to sd) as M.
    destruct (save_eml w n msg2 to sd) as [ev3 msg3].
    simpl in *. intros E. injection E as _ <- <-.
    assert (B : boundaries msg2 = None) by (rewrite B2, B1; reflexivity).
    split; [exact B|]. exists (ev2 ++ ev3). rewrite M.
    unfold serialise. rewrite B. reflexivity.
Qed.

Lemma saving_sets_only_the_boundaries_witness :
  exists ev msg cids,
    build_message (example_world [] true true) 1 "" "me@example.com" "a@b.com"
      "Hello" "text" "" [] [] None None None
    = inr (ev, (msg, cids))
    /\ boundaries msg = None
    /\ exists ev',
         build_message (example_world [] true true) 1 "" "me@example.com"
           "a@b.com" "Hello" "text" "" [] [] None None (Some "out")
         = inr (ev', (mkMsg (headers msg) (alternative msg) (parts msg)
                       (Some ("==alt==", "==mixed==")), cids)).
Proof.
  eexists. eexists. eexists. split; [reflexivity|].
  exact (proj2 (saving_sets_only_the_boundaries (example_world [] true true) 1 ""
                  "me@example.com" "a@b.com" "Hello" "text" "" [] [] None None
                  (Some "out")) _ _ _ eq_refl).
Defined.

(** X9. In a message that is built, the parts of the inline files come
    first and those of the attachments after, each group in the order of
    its paths and with one part for each readable path; every part is named
    by the base name of its path, which holds no slash; an inline part
    carries that name as its content-ID and an attachment carries none. *)
Theorem message_parts_in_order :
  forall w n fn fa to subj tb hb inls atts rt un sd ev msg cids,
    build_message w n fn fa to subj tb hb inls atts rt un sd
    = inr (ev, (msg, cids)) ->
    exists ins ats,
      parts msg = ins ++ ats
      /\ map part_filename ins = map basename (List.filter (readable w) inls)
      /\ map part_filename ats = map basename (List.filter (readable w) atts)
      /\ (forall q, In q ins -> part_disposition q = Inline)
      /\ (forall q, In q ats -> part_disposition q = Attachment)
      /\ (forall q, In q (parts msg) ->
            has_slash (part_filename q) = false
            /\ part_content_id q = expected_cid q).
Proof.
  intros w n fn fa to subj tb hb inls atts rt un sd ev msg cids B.
  destruct (build_message_inv _ _ _ _ _ _ _ _ _ _ _ _ _ _ _ _ B)
    as (from & _ & _ & _ & P).
  exists (file_parts w Inline inls), (file_parts w Attachment atts).
  split; [exact P|]. split; [apply file_parts_names|].
  split; [apply file_parts_names|].
  split; [intros q Q; apply (file_parts_disposition _ _ _ _ Q)|].
  split; [intros q Q; apply (file_parts_disposition _ _ _ _ Q)|].
  intros q Q. rewrite P in Q. apply in_app_iff in Q as [Q|Q];
    apply (file_parts_disposition _ _ _ _ Q).
Qed.

Lemma message_parts_in_order_witness :
  exists ev msg cids ins ats,
    build_message (example_world_with_file "img/logo.png" "PNG") 1 ""
      "me@example.com" "a@b.com" "Hello" "text" "" ["img/logo.png"; "gone.gif"]
      ["doc/terms.pdf"] None None None
    = inr (ev, (msg, cids))
    /\ parts msg = ins ++ ats
    /\ map part_filename ins = ["logo.png"]
    /\ map part_filename ats = [].
Proof.
  eexists. eexists. eexists.
  destruct (message_parts_in_order (example_world_with_file "img/logo.png" "PNG")
              1 "" "me@example.com" "a@b.com" "Hello" "text" ""
              ["img/logo.png"; "gone.gif"] ["doc/terms.pdf"] None None None
              _ _ _ eq_refl)
    as (ins & ats & P & Ni & Na & _).
  exists ins, ats. split; [reflexivity|]. exact (conj P (conj Ni Na)).
Defined.

(** X10. The content-ID map of a built message has an entry for the base
    name of every inline path that was read and has a base name, and only
    for those; each entry maps the name to itself. *)
Theorem cid_map_of_readable_inlines :
  forall w n fn fa to subj tb hb inls atts rt un sd ev msg cids,
    build_message w n fn fa to subj tb hb inls atts rt un sd
    = inr (ev, (msg, cids)) ->
    forall k cid,
      cids !! k = Some cid <->
      cid = k /\ PyStr.truthy k = true
      /\ exists p, In p inls /\ readable w p = true /\ basename p = k.
Proof.
  intros w n fn fa to subj tb hb inls atts rt un sd ev msg cids B k cid. split.
  - apply (build_message_sources _ _ _ _ _ _ _ _ _ _ _ _ _ _ _ _ B).
  - intros (-> & T & p & I & R & <-).
    apply (build_message_records _ _ _ _ _ _ _ _ _ _ _ _ _ _ _ _ B p I R T).
Qed.

Lemma cid_map_of_readable_inlines_witness :
  exists ev msg cids,
    build_message (example_world_with_file "img/logo.png" "PNG") 1 ""
      "me@example.com" "a@b.com" "Hello" "text" "" ["img/logo.png"; "gone.gif"]
      [] None None None
    = inr (ev, (msg, cids))
    /\ cids !! "logo.png" = Some "logo.png".
Proof.
  eexists. eexists. eexists. split; [reflexivity|].
  apply (cid_map_of_readable_inlines
           (example_world_with_file "img/logo.png" "PNG") 1 ""
           "me@example.com" "a@b.com" "Hello" "text" ""
           ["img/logo.png"; "gone.gif"] [] None None None _ _ _ eq_refl).
  split; [reflexivity|]. split; [reflexivity|].
  exists "img/logo.png". repeat split. left. reflexivity.
Defined.

Module PathFacts.

Lemma safe_not_slash c : eml_safe c = true -> Ascii.eqb "/" c = false.
Proof. intros H. by_bits c. Qed.

Lemma safe_no_slash s : PyStr.forallb eml_safe s = true -> has_slash s = false.
Proof.
  unfold has_slash. induction s as [|c s IH]; [reflexivity|].
  cbn [PyStr.existsb PyStr.forallb].
  intros H. apply andb_true_iff in H as [Hc Hs].
  rewrite (safe_not_slash c Hc), IH by exact Hs. reflexivity.
Qed.

Lemma path_join_relative dir name :
  has_slash name = false ->
  path_join dir name =
  if PyStr.endswith dir "/" then dir +:+ name else dir +:+ "/" +:+ name.
Proof.
  unfold has_slash, path_join. destruct name as [|c r]; [reflexivity|].
  simpl PyStr.existsb. intros H. apply orb_false_iff in H as [H _].
  by_bits c.
Qed.

Lemma basename_cons c r :
  basename (String c r) = if has_slash (String c r) then basename r else String c r.
Proof. reflexivity. Qed.

Lemma basename_after_slash name : forall d,
  has_slash name = false -> basename (d +:+ "/" +:+ name) = name.
Proof.
  intros d H. induction d as [|c d IH].
  - simpl String.append. rewrite basename_cons.
    change (has_slash (String "/" name)) with true. cbv iota.
    apply basename_id, H.
  - simpl String.append. rewrite basename_cons.
    match goal with |- context [has_slash ?x] =>
      assert (E : has_slash x = true) end.
    { unfold has_slash. cbn [PyStr.existsb]. rewrite existsb_app.
      cbn [PyStr.existsb]. rewrite Ascii.eqb_refl.
      rewrite orb_true_r. apply orb_true_r. }
    rewrite E. exact IH.
Qed.

Lemma endswith_slash dir :
  PyStr.endswith dir "/" = true -> exists d, dir = d +:+ "/".
Proof.
  induction dir as [|c r IH]; [discriminate|].
  change (PyStr.endswith (String c r) "/")
    with (String.eqb (String c r) "/" || PyStr.endswith r "/").
  intros H. apply orb_true_iff in H as [H|H].
  - apply String.eqb_eq in H. exists EmptyString. exact H.
  - destruct (IH H) as (d & ->). exists (String c d). reflexivity.
Qed.

Lemma basename_path_join dir name :
  has_slash name = false -> basename (path_join dir name) = name.
Proof.
  intros H. rewrite path_join_relative by exact H.
  destruct (PyStr.endswith dir "/") eqn:E.
  - destruct (endswith_slash dir E) as (d & ->).
    rewrite append_assoc. apply basename_after_slash, H.
  - apply basename_after_slash, H.
Qed.

End PathFacts.
Import PathFacts.

(** X11. A message file is written directly in the save directory: its
    path is the directory, a slash unless the directory ends in one, and
    the file name; the name is the only part of the path that comes from
    the address, it holds no slash, and it is the base name of the path.
    What is written is the text of the message as the serialisation
    leaves it, which is the message that is returned. *)
Theorem eml_file_stays_in_directory :
  forall w n msg to dir dest content,
    In (WriteFile dest content) (fst (save_eml w n msg to (Some dir))) ->
    PyStr.truthy dir = true
    /\ content = w_as_string w (snd (save_eml w n msg to (Some dir)))
    /\ snd (save_eml w n msg to (Some dir)) = serialise w n msg
    /\ dest = (if PyStr.endswith dir "/" then dir else dir +:+ "/")
              +:+ eml_filename to (w_clock w n)
    /\ has_slash (eml_filename to (w_clock w n)) = false
    /\ basename dest = eml_filename to (w_clock w n).
Proof.
  intros w n msg to dir dest content H. unfold save_eml in *.
  assert (S : has_slash (eml_filename to (w_clock w n)) = false)
    by (apply safe_no_slash; unfold eml_filename; apply re_sub_not_safe;
        reflexivity).
  destruct (PyStr.truthy dir) eqn:T; [| destruct H].
  destruct (w_write_eml w _); simpl in H.
  - destruct H as [H | [H | []]]; [| discriminate].
    injection H as <- <-. split; [reflexivity|]. split; [reflexivity|].
    split; [reflexivity|].
    split; [| split; [exact S | apply basename_path_join, S]].
    rewrite path_join_relative by exact S.
    destruct (PyStr.endswith dir "/"); [reflexivity|].
    rewrite append_assoc. reflexivity.
  - destruct H as [H | []]. discriminate.
Qed.

Lemma eml_file_stays_in_directory_witness :
  In (WriteFile "out/x_y.com_1700000000.eml" "")
     (fst (save_eml (example_world [] true true) 1 (mkMsg [] [] [] None)
             "x@y.com" (Some "out")))
  /\ basename "out/x_y.com_1700000000.eml" = eml_filename "x@y.com" 1700000000.
Proof.
  assert (I : In (WriteFile "out/x_y.com_1700000000.eml" "")
                (fst (save_eml (example_world [] true true) 1
                        (mkMsg [] [] [] None) "x@y.com" (Some "out"))))
    by (left; reflexivity).
  split; [exact I|].
  exact (proj2 (proj2 (proj2 (proj2 (proj2
    (eml_file_stays_in_directory (example_world [] true true) 1 (mkMsg [] [] [] None)
       "x@y.com" "out" "out/x_y.com_1700000000.eml" "" I)))))).
Defined.

(* ===================================================================== *)
(** ** The loop and the run *)
(* ===================================================================== *)

Module RunFacts.

Section Induction.

Variables (a : Args.t) (w : world) (su : setup).
Variable P : state -> list (exn + recipient) -> list (list event) -> state
             -> termination -> Prop.

Hypothesis P_nil : forall st, P st [] [] st Completed.
Hypothesis P_raise : forall st e items, P st (inl e :: items) [] st (Uncaught e).
Hypothesis P_next : forall st email name r items ev st1 evs st2 t,
  process a w su st (email, name, r) = (ev, st1, Next) ->
  step a w su st email ev st1 Next ->
  loop a w su st1 items = (evs, st2, t) ->
  P st1 items evs st2 t ->
  P st (inr (email, name, r) :: items) (ev :: evs) st2 t.
Hypothesis P_stop : forall st email name r items ev st1 t,
  process a w su st (email, name, r) = (ev, st1, Stop t) ->
  step a w su st email ev st1 (Stop t) ->
  P st (inr (email, name, r) :: items) [ev] st1 t.

(** Induction on the passes of the loop. *)
Lemma loop_induction : forall items st evs st' t,
  loop a w su st items = (evs, st', t) -> P st items evs st' t.
Proof.
  induction items as [|[e|[[email name] r]] items IH]; intros st evs st' t L.
  - injection L as <- <- <-. apply P_nil.
  - injection L as <- <- <-. apply P_raise.
  - rewrite loop_cons in L.
    pose proof (process_step a w su st email name r) as H.
    destruct (process a w su st (email, name, r)) as [[ev st1] c] eqn:Pr.
    simpl in H. destruct c as [|t0].
    + destruct (loop a w su st1 items) as [[evs1 st2] t1] eqn:L1.
      injection L as <- <- <-. eapply P_next; eauto.
    + injection L as <- <- <-. eapply P_stop; eauto.
Qed.

End Induction.

Lemma sent_events_app ev1 ev2 :
  sent_events (ev1 ++ ev2) = sent_events ev1 + sent_events ev2.
Proof. unfold sent_events. rewrite List.filter_app, length_app. reflexivity. Qed.

Lemma skip_events_app ev1 ev2 :
  skip_events (ev1 ++ ev2) = skip_events ev1 + skip_events ev2.
Proof. unfold skip_events. rewrite List.filter_app, length_app. reflexivity. Qed.

Lemma builder_sent evb : forallb builder_event evb = true -> sent_events evb = 0.
Proof.
  induction evb as [|e evb IH]; [reflexivity|]. simpl. intros H.
  apply andb_true_iff in H as [He H]. specialize (IH H).
  unfold sent_events in *. destruct e; try discriminate; exact IH.
Qed.

Lemma builder_skip evb : forallb builder_event evb = true -> skip_events evb = 0.
Proof.
  induction evb as [|e evb IH]; [reflexivity|]. simpl. intros H.
  apply andb_true_iff in H as [He H]. specialize (IH H).
  unfold skip_events in *. destruct e; try discriminate; exact IH.
Qed.

Lemma builder_not_live evb :
  forallb builder_event evb = true ->
  forallb (fun e => negb (live_event e)) evb = true.
Proof.
  induction evb as [|e evb IH]; [reflexivity|]. simpl. intros H.
  apply andb_true_iff in H as [He H]. rewrite (IH H).
  destruct e; try discriminate; reflexivity.
Qed.

Lemma builder_body evb :
  forallb builder_event evb = true -> forallb body_event evb = true.
Proof.
  induction evb as [|e evb IH]; [reflexivity|]. simpl. intros H.
  apply andb_true_iff in H as [He H]. rewrite (IH H).
  destruct e; try discriminate; reflexivity.
Qed.

Lemma builder_no_sent evb : forallb builder_event evb = true -> has_sent evb = false.
Proof.
  induction evb as [|e evb IH]; [reflexivity|]. simpl. intros H.
  apply andb_true_iff in H as [He H]. rewrite (IH H).
  destruct e; try discriminate; reflexivity.
Qed.

Lemma builder_no_gate_skip evb e :
  forallb builder_event evb = true -> In e evb -> gate_skip e = false.
Proof.
  intros H I. rewrite forallb_forall in H. specialize (H e I).
  destruct e; try discriminate; reflexivity.
Qed.

Lemma step_counts a w su st email ev st' c :
  step a w su st email ev st' c ->
  total st' = S (total st)
  /\ sent st' = sent st + sent_events ev
  /\ skipped st' = skipped st + skip_events ev.
Proof.
  intros H. destruct H;
    rewrite ?sent_events_app, ?skip_events_app, ?builder_sent, ?builder_skip
      by assumption;
    try (cbn; repeat split; lia).
  match goal with D : _ \/ _ |- _ => destruct D as [-> | [m ->]] end;
    cbn; repeat split; lia.
Qed.

Lemma loop_counts a w su items st evs st' t :
  loop a w su st items = (evs, st', t) ->
  total st' = total st + length evs
  /\ sent st' = sent st + sent_events (concat evs)
  /\ skipped st' = skipped st + skip_events (concat evs).
Proof.
  revert items st evs st' t. apply loop_induction.
  - intros st. cbn. repeat split; lia.
  - intros st e items. cbn. repeat split; lia.
  - intros st email name r items ev st1 evs st2 t _ H _ (T & S & K).
    destruct (step_counts _ _ _ _ _ _ _ _ H) as (T1 & S1 & K1).
    change (concat (ev :: evs)) with (ev ++ concat evs).
    rewrite sent_events_app, skip_events_app. simpl length.
    repeat split; lia.
  - intros st email name r items ev st1 t _ H.
    destruct (step_counts _ _ _ _ _ _ _ _ H) as (T1 & S1 & K1).
    simpl concat. rewrite app_nil_r. simpl length. repeat split; lia.
Qed.

Lemma step_body a w su st email ev st' c :
  step a w su st email ev st' c -> forallb body_event ev = true.
Proof.
  intros H. destruct H;
    rewrite ?List.forallb_app, ?builder_body by assumption; try reflexivity.
  match goal with D : _ \/ _ |- _ => destruct D as [-> | [m ->]] end; reflexivity.
Qed.

Lemma loop_body a w su items st evs st' t :
  loop a w su st items = (evs, st', t) -> forallb body_event (concat evs) = true.
Proof.
  revert items st evs st' t. apply loop_induction; try reflexivity.
  - intros st email name r items ev st1 evs st2 t _ H _ IH.
    change (concat (ev :: evs)) with (ev ++ concat evs).
    rewrite List.forallb_app, IH, (step_body _ _ _ _ _ _ _ _ H). reflexivity.
  - intros st email name r items ev st1 t _ H.
    simpl concat. rewrite app_nil_r. exact (step_body _ _ _ _ _ _ _ _ H).
Qed.

Lemma step_dry a w su st email ev st' c :
  step a w su st email ev st' c -> Args.dry_run a = true ->
  forallb (fun e => negb (live_event e)) ev = true.
Proof.
  intros H D. destruct H; try congruence;
    rewrite ?List.forallb_app, ?builder_not_live by assumption; try reflexivity.
  match goal with D : _ \/ _ |- _ => destruct D as [-> | [m ->]] end; reflexivity.
Qed.

Lemma loop_dry a w su items st evs st' t :
  Args.dry_run a = true ->
  loop a w su st items = (evs, st', t) ->
  forallb (fun e => negb (live_event e)) (concat evs) = true.
Proof.
  intros D. revert items st evs st' t. apply loop_induction; try reflexivity.
  - intros st email name r items ev st1 evs st2 t _ H _ IH.
    change (concat (ev :: evs)) with (ev ++ concat evs).
    rewrite List.forallb_app, IH, (step_dry _ _ _ _ _ _ _ _ H D). reflexivity.
  - intros st email name r items ev st1 t _ H.
    simpl concat. rewrite app_nil_r. exact (step_dry _ _ _ _ _ _ _ _ H D).
Qed.

(** The ways [send_messages] ends: before the loop, or with the loop. *)
Lemma send_messages_cases a w ev st t :
  send_messages a w = (ev, st, t) ->
  (st = initial /\ t <> Completed /\ forallb startup_event ev = true
   /\ (Args.dry_run a = true -> forallb (fun e => negb (live_event e)) ev = true)
   /\ (t = SysExit \/ ev = [] \/ ev = [LogDryRunMode]))
  \/ (exists su items evs,
        iter_recipients a w = Some items
        /\ su_rate_delay su = rate_delay a
        /\ loop a w su initial items = (evs, st, t)
        /\ ev = (if Args.dry_run a then [LogDryRunMode] else [])
                ++ concat evs
                ++ match t with
                   | Completed =>
                       (if Args.dry_run a then [] else [SmtpQuit])
                       ++ [LogDone (total st) (sent st) (skipped st)]
                   | _ => []
                   end).
Proof.
  unfold send_messages.
  destruct (negb (port_is_int a w)).
  { intros E. injection E as <- <- <-. left. repeat split; auto; try discriminate. }
  destruct (Args.dry_run a) eqn:D; cbn [negb andb].
  - destruct (load_template w (Args.template_text a) default_text) as [tt|].
    2:{ intros E. injection E as <- <- <-. left. repeat split; auto; try discriminate. }
    destruct (load_template w (Args.template_html a) default_html) as [th|].
    2:{ intros E. injection E as <- <- <-. left. repeat split; auto; try discriminate. }
    destruct (iter_recipients a w) as [items|].
    2:{ intros E. injection E as <- <- <-. left. repeat split; auto; try discriminate. }
    match goal with |- context [loop a w ?su initial items] =>
      destruct (loop a w su initial items) as [[evs st0] t0] eqn:L;
      intros E; right; exists su, items, evs end.
    destruct t0; injection E as <- <- <-; rewrite ?app_nil_r; auto.
  - destruct (negb _ || negb _).
    { intros E. injection E as <- <- <-. left. repeat split; auto; try discriminate. }
    destruct (negb (w_smtp_connect w)).
    { intros E. injection E as <- <- <-. left. repeat split; auto; try discriminate. }
    destruct (load_template w (Args.template_text a) default_text) as [tt|].
    2:{ intros E. injection E as <- <- <-. left. repeat split; auto; try discriminate. }
    destruct (load_template w (Args.template_html a) default_html) as [th|].
    2:{ intros E. injection E as <- <- <-. left. repeat split; auto; try discriminate. }
    destruct (iter_recipients a w) as [items|].
    2:{ intros E. injection E as <- <- <-. left. repeat split; auto; try discriminate. }
    match goal with |- context [loop a w ?su initial items] =>
      destruct (loop a w su initial items) as [[evs st0] t0] eqn:L;
      intros E; right; exists su, items, evs end.
    destruct t0; injection E as <- <- <-; rewrite ?app_nil_r; auto.
Qed.

Lemma startup_counts ev :
  forallb startup_event ev = true -> sent_events ev = 0 /\ skip_events ev = 0.
Proof.
  induction ev as [|e ev IH]; [split; reflexivity|]. simpl. intros H.
  apply andb_true_iff in H as [He H]. specialize (IH H).
  unfold sent_events, skip_events in *.
  destruct e; try discriminate; exact IH.
Qed.

End RunFacts.
Import RunFacts.

(** X12. The counters agree with the log, however the run ends: the number
    of recipients counted as sent is the number of "sent" and "dry-run"
    lines, the number counted as skipped is the number of "invalid",
    "duplicate", "no consent" and "send failed" lines; a run that returns
    went through every item of the recipient source, and its last line is
    the summary with these counters. *)
Theorem counters_agree_with_log :
  forall a w ev st t,
    send_messages a w = (ev, st, t) ->
    sent st = sent_events ev
    /\ skipped st = skip_events ev
    /\ (t = Completed ->
        (exists items, iter_recipients a w = Some items
                       /\ total st = length items)
        /\ exists ev', ev = ev' ++ [LogDone (total st) (sent st) (skipped st)]).
Proof.
  intros a w ev st t E.
  destruct (send_messages_cases _ _ _ _ _ E)
    as [(-> & T & S & _ & _) | (su & items & evs & I & _ & L & ->)].
  - destruct (startup_counts _ S) as [-> ->].
    repeat split; try reflexivity; contradiction.
  - destruct (loop_counts _ _ _ _ _ _ _ _ L) as (_ & S & K).
    rewrite !sent_events_app, !skip_events_app, S, K.
    split; [| split].
    + destruct (Args.dry_run a), t; cbn; lia.
    + destruct (Args.dry_run a), t; cbn; lia.
    + intros ->. split.
      * exists items. split; [exact I|].
        rewrite (loop_total _ _ _ _ _ _ _ L). reflexivity.
      * exists ((if Args.dry_run a then [LogDryRunMode] else [])
                 ++ concat evs ++ (if Args.dry_run a then [] else [SmtpQuit])).
        rewrite <- !app_assoc. reflexivity.
Qed.

Lemma counters_agree_with_log_witness :
  let a := example_args "" (Some "list.csv") None false None in
  let w := example_world [example_row "a@b.com" "yes"; example_row "bad" "yes";
                          example_row "c@d.com" "no"] true true in
  let run := send_messages a w in
  run = (fst (fst run), snd (fst run), snd run)
  /\ sent (snd (fst run)) = 1
  /\ skipped (snd (fst run)) = 2
  /\ sent (snd (fst run)) = sent_events (fst (fst run)).
Proof.
  intros a w run.
  assert (E : run = (fst (fst run), snd (fst run), snd run))
    by (destruct run as [[ev st] t]; reflexivity).
  split; [exact E|].
  split; [vm_compute; reflexivity|]. split; [vm_compute; reflexivity|].
  exact (proj1 (counters_agree_with_log a w (fst (fst run)) (snd (fst run))
                  (snd run) E)).
Defined.

Module TallyMore.

Lemma builder_no_failed evb :
  forallb builder_event evb = true ->
  existsb (fun e => match e with LogSendFailed _ => true | _ => false end) evb
  = false.
Proof.
  induction evb as [|e evb IH]; [reflexivity|]. simpl. intros H.
  apply andb_true_iff in H as [He H]. rewrite (IH H).
  destruct e; try discriminate; reflexivity.
Qed.

Lemma double_counted_app evb ev :
  forallb builder_event evb = true ->
  double_counted (evb ++ ev) = double_counted ev.
Proof.
  intros H. unfold double_counted.
  rewrite has_sent_app, List.existsb_app, builder_no_sent, builder_no_failed
    by exact H.
  reflexivity.
Qed.

Lemma double_counts_cons ev evs :
  double_counts (ev :: evs)
  = (if double_counted ev then 1 else 0) + double_counts evs.
Proof.
  unfold double_counts. simpl. destruct (double_counted ev); reflexivity.
Qed.

Lemma step_double a w su st email ev st' :
  step a w su st email ev st' Next ->
  sent st' + skipped st'
  = S (sent st + skipped st) + (if double_counted ev then 1 else 0).
Proof.
  intros H. inversion H; subst;
    rewrite ?double_counted_app by assumption; cbn; lia.
Qed.

Lemma step_all_skipped a w su st email ev st' :
  step a w su st email ev st' Next ->
  Args.dry_run a = false ->
  PrimFloat.ltb 0 (su_rate_delay su) = true ->
  (forall n, time_sleep (w_monotonic w n) (su_rate_delay su) <> None) ->
  sent st' = sent st + (if double_counted ev then 1 else 0)
  /\ skipped st' = S (skipped st).
Proof.
  intros H D L T. inversion H; subst; try congruence;
    rewrite ?double_counted_app by assumption; cbn; split; lia.
Qed.

Lemma step_tally_dry a w su st email ev st' :
  step a w su st email ev st' Next ->
  Args.dry_run a = true ->
  sent st' + skipped st' = S (sent st + skipped st).
Proof. intros H D. inversion H; subst; try congruence; cbn; lia. Qed.

Lemma step_not_completed a w su st email ev st' t :
  step a w su st email ev st' (Stop t) -> t <> Completed.
Proof. intros H. inversion H. assumption. Qed.

Lemma loop_tally_dry a w su items st evs st' t :
  Args.dry_run a = true ->
  loop a w su st items = (evs, st', t) ->
  t = Completed ->
  sent st' + skipped st' = sent st + skipped st + length items.
Proof.
  intros D. revert items st evs st' t.
  apply (loop_induction a w su (fun st items evs st' t =>
           t = Completed ->
           sent st' + skipped st' = sent st + skipped st + length items)).
  - intros st _. simpl. lia.
  - discriminate.
  - intros st email name r items ev st1 evs st2 t _ H _ IH C.
    pose proof (step_tally_dry _ _ _ _ _ _ _ H D). specialize (IH C).
    simpl length. lia.
  - intros st email name r items ev st1 t _ H C.
    exfalso. exact (step_not_completed _ _ _ _ _ _ _ _ H C).
Qed.

End TallyMore.
Import TallyMore.

(** X13. The exact tally of a loop that runs to its end: sent + skipped
    grows by the number of recipients plus the number of recipients logged
    both as sent and as failed, which are those whose pause raised.  When
    the pause of a live run always raises, every recipient ends up counted
    as skipped, the delivered ones too. *)
Theorem tally_exceeds_total_by_failed_pauses :
  forall a w su items st evs st',
    loop a w su st items = (evs, st', Completed) ->
    sent st' + skipped st'
    = sent st + skipped st + length items + double_counts evs
    /\ (Args.dry_run a = false ->
        PrimFloat.ltb 0 (su_rate_delay su) = true ->
        (forall n, time_sleep (w_monotonic w n) (su_rate_delay su) <> None) ->
        skipped st' = skipped st + length items
        /\ sent st' = sent st + double_counts evs).
Proof.
  intros a w su items st evs st' L.
  enough (G : forall t, loop a w su st items = (evs, st', t) -> t = Completed ->
            sent st' + skipped st'
            = sent st + skipped st + length items + double_counts evs
            /\ (Args.dry_run a = false ->
                PrimFloat.ltb 0 (su_rate_delay su) = true ->
                (forall n, time_sleep (w_monotonic w n) (su_rate_delay su) <> None) ->
                skipped st' = skipped st + length items
                /\ sent st' = sent st + double_counts evs))
    by exact (G Completed L eq_refl).
  clear L. intros t L. revert items st evs st' t L.
  apply (loop_induction a w su (fun st items evs st' t =>
           t = Completed ->
           sent st' + skipped st'
           = sent st + skipped st + length items + double_counts evs
           /\ (Args.dry_run a = false ->
               PrimFloat.ltb 0 (su_rate_delay su) = true ->
               (forall n, time_sleep (w_monotonic w n) (su_rate_delay su) <> None) ->
               skipped st' = skipped st + length items
               /\ sent st' = sent st + double_counts evs))).
  - intros st _. cbn. split; [lia | intros; split; lia].
  - discriminate.
  - intros st email name r items ev st1 evs st2 t _ H _ IH C.
    destruct (IH C) as [I1 I2]. rewrite double_counts_cons. simpl length.
    pose proof (step_double _ _ _ _ _ _ _ H) as D1. split; [lia|].
    intros D Lt T. destruct (I2 D Lt T) as [K S].
    destruct (step_all_skipped _ _ _ _ _ _ _ H D Lt T) as [S1 K1]. lia.
  - intros st email name r items ev st1 t _ H C.
    exfalso. exact (step_not_completed _ _ _ _ _ _ _ _ H C).
Qed.

Lemma tally_exceeds_total_by_failed_pauses_witness :
  let a := example_args "" (Some "list.csv") (Some 1e-9%float) false None in
  let items :=
    map (recipient_of_row a)
      [example_row "a@b.com" "yes"; example_row "bad" "yes";
       example_row "c@d.com" "yes"] in
  let w := example_world [] true true in
  let su := example_setup a in
  loop a w su initial items
  = (fst (fst (loop a w su initial items)),
     snd (fst (loop a w su initial items)), Completed)
  /\ double_counts (fst (fst (loop a w su initial items))) = 2
  /\ sent (snd (fst (loop a w su initial items)))
     + skipped (snd (fst (loop a w su initial items)))
     = 0 + 0 + 3 + 2.
Proof.
  intros a items w su.
  assert (E : loop a w su initial items
              = (fst (fst (loop a w su initial items)),
                 snd (fst (loop a w su initial items)), Completed))
    by (vm_compute; reflexivity).
  split; [exact E|]. split; [vm_compute; reflexivity|].
  pose proof (proj1 (tally_exceeds_total_by_failed_pauses a w su items initial
                       _ _ E)) as T.
  replace (double_counts (fst (fst (loop a w su initial items)))) with 2 in T
    by (vm_compute; reflexivity).
  exact T.
Defined.

Module SetFacts.

Lemma step_sizes a w su st email ev st' c :
  step a w su st email ev st' c ->
  sent st' + size (seen st) <= sent st + size (seen st')
  /\ size (seen st') <= S (size (seen st))
  /\ skipped st' <= S (skipped st)
  /\ total st' = S (total st).
Proof.
  intros H. destruct H;
    cbn [seen sent skipped total count_sent count_skipped count_total seen_add];
    rewrite ?size_union, ?size_singleton by set_solver; repeat split; lia.
Qed.

Lemma loop_sizes a w su items st evs st' t :
  loop a w su st items = (evs, st', t) ->
  sent st' + size (seen st) <= sent st + size (seen st')
  /\ size (seen st') + total st <= size (seen st) + total st'
  /\ skipped st' + total st <= skipped st + total st'.
Proof.
  revert items st evs st' t. apply loop_induction.
  - intros st. repeat split; lia.
  - intros st e items. repeat split; lia.
  - intros st email name r items ev st1 evs st2 t _ H _ IH.
    pose proof (step_sizes _ _ _ _ _ _ _ _ H). repeat split; lia.
  - intros st email name r items ev st1 t _ H.
    pose proof (step_sizes _ _ _ _ _ _ _ _ H). repeat split; lia.
Qed.

Lemma loop_seen_completed a w su items st evs st' t :
  loop a w su st items = (evs, st', t) ->
  t = Completed ->
  forall x, is_valid_email x = true -> In x (emails items) -> x ∈ seen st'.
Proof.
  revert items st evs st' t.
  apply (loop_induction a w su (fun st items evs st' t =>
           t = Completed ->
           forall x, is_valid_email x = true -> In x (emails items) ->
                     x ∈ seen st')).
  - intros st _ x _ [].
  - discriminate.
  - intros st email name r items ev st1 evs st2 t _ H L IH C x V [<- | I].
    + apply (proj1 (loop_seen _ _ _ _ _ _ _ _ L)).
      rewrite (step_seen _ _ _ _ _ _ _ _ H), V. set_solver.
    + exact (IH C x V I).
  - intros st email name r items ev st1 t _ H C.
    exfalso. exact (step_not_completed _ _ _ _ _ _ _ _ H C).
Qed.

End SetFacts.
Import SetFacts.

(** X14. At the end of every run, however it ends, the recipients counted
    as sent are no more than the distinct addresses recorded as seen, which
    are no more than the recipients counted in the total; nor are the
    skipped more than the total. *)
Theorem sent_within_seen_within_total :
  forall a w ev st t,
    send_messages a w = (ev, st, t) ->
    sent st <= size (seen st)
    /\ size (seen st) <= total st
    /\ skipped st <= total st.
Proof.
  intros a w ev st t E.
  destruct (send_messages_cases _ _ _ _ _ E)
    as [(-> & _) | (su & items & evs & _ & _ & L & _)].
  - cbn. rewrite size_empty. repeat split; lia.
  - pose proof (loop_sizes _ _ _ _ _ _ _ _ L) as (S & T & K).
    cbn in S, T, K. rewrite size_empty in S, T. repeat split; lia.
Qed.

Lemma sent_within_seen_within_total_witness :
  let a := example_args "" (Some "list.csv") None false None in
  let w := example_world [example_row "a@b.com" "yes"; example_row "a@b.com" "yes";
                          example_row "c@d.com" "no"] true true in
  let run := send_messages a w in
  run = (fst (fst run), snd (fst run), snd run)
  /\ sent (snd (fst run)) = 1
  /\ total (snd (fst run)) = 3
  /\ sent (snd (fst run)) <= size (seen (snd (fst run))).
Proof.
  intros a w run.
  assert (E : run = (fst (fst run), snd (fst run), snd run))
    by (destruct run as [[ev st] t]; reflexivity).
  split; [exact E|].
  split; [vm_compute; reflexivity|]. split; [vm_compute; reflexivity|].
  exact (proj1 (sent_within_seen_within_total a w (fst (fst run))
                  (snd (fst run)) (snd run) E)).
Defined.

(** X15. When the loop runs to its end, the set of seen addresses is
    exactly what it held before together with the valid addresses the
    recipient source yielded, skipped for consent or failed in sending or
    not. *)
Theorem seen_is_the_valid_addresses :
  forall a w su items st evs st',
    loop a w su st items = (evs, st', Completed) ->
    forall x,
      x ∈ seen st' <->
      x ∈ seen st \/ (is_valid_email x = true /\ In x (emails items)).
Proof.
  intros a w su items st evs st' L x. split.
  - apply (proj2 (loop_seen _ _ _ _ _ _ _ _ L)).
  - intros [X | [V I]].
    + exact (proj1 (loop_seen _ _ _ _ _ _ _ _ L) x X).
    + exact (loop_seen_completed _ _ _ _ _ _ _ _ L eq_refl x V I).
Qed.

Lemma seen_is_the_valid_addresses_witness :
  let a := example_args "" (Some "list.csv") None true None in
  let items :=
    map (recipient_of_row a)
      [example_row "a@b.com" "no"; example_row "bad" "yes"] in
  let w := example_world [] true true in
  let su := example_setup a in
  loop a w su initial items
  = (fst (fst (loop a w su initial items)),
     snd (fst (loop a w su initial items)), Completed)
  /\ "a@b.com" ∈ seen (snd (fst (loop a w su initial items))).
Proof.
  intros a items w su.
  assert (E : loop a w su initial items
              = (fst (fst (loop a w su initial items)),
                 snd (fst (loop a w su initial items)), Completed))
    by (vm_compute; reflexivity).
  split; [exact E|].
  apply (proj2 (seen_is_the_valid_addresses a w su items initial _ _ E "a@b.com")).
  right. split; [reflexivity | left; reflexivity].
Defined.

Module ComplianceFacts.

Lemma deliver_no_gate_skip a w su st email name r :
  forallb (fun e => negb (gate_skip e))
    (fst (fst (deliver a w su st (email, name, r)))) = true.
Proof.
  unfold deliver.
  destruct (render_or_empty (su_template_text su) _) as [tb|m|e|];
    try reflexivity.
  destruct (render_or_empty (su_template_html su) _) as [hb|m|e|];
    try reflexivity.
  destruct (build_for a w su st email tb hb) as [e|[evb [msg cids]]] eqn:B;
    [reflexivity|].
  pose proof (build_message_events _ _ _ _ _ _ _ _ _ _ _ _ _ _ _ B) as Be.
  assert (G : forallb (fun e => negb (gate_skip e)) evb = true).
  { apply forallb_forall. intros e I.
    rewrite (builder_no_gate_skip _ _ Be I). reflexivity. }
  unfold dispatch.
  destruct (Args.dry_run a); simpl; [rewrite List.forallb_app, G; reflexivity|].
  destruct (w_smtp_send w (total st) msg); simpl;
    [| rewrite List.forallb_app, G; reflexivity].
  destruct (PrimFloat.ltb 0 (su_rate_delay su)); simpl;
    [| rewrite List.forallb_app, G; reflexivity].
  destruct (time_sleep _ (su_rate_delay su)); simpl;
    rewrite List.forallb_app, G; reflexivity.
Qed.

(** The five ways of one pass through the loop body. *)
Lemma process_gates a w su st email name r ev st' c :
  process a w su st (email, name, r) = (ev, st', c) ->
  (is_valid_email email = false /\ ev = [LogInvalid email]
   /\ st' = count_skipped (count_total st) /\ c = Next)
  \/ (is_valid_email email = true /\ (email ∈ seen st)
      /\ ev = [LogDuplicate email]
      /\ st' = count_skipped (count_total st) /\ c = Next)
  \/ (is_valid_email email = true /\ (email ∉ seen st)
      /\ consent_gate a r = inr false /\ ev = [LogNoConsent email]
      /\ st' = count_skipped (seen_add email (count_total st)) /\ c = Next)
  \/ (is_valid_email email = true /\ (email ∉ seen st)
      /\ (exists e, consent_gate a r = inl e /\ c = Stop (Uncaught e))
      /\ ev = [] /\ st' = seen_add email (count_total st))
  \/ (is_valid_email email = true /\ (email ∉ seen st)
      /\ consent_gate a r = inr true
      /\ deliver a w su (seen_add email (count_total st)) (email, name, r)
         = (ev, st', c)
      /\ forallb (fun e => negb (gate_skip e)) ev = true).
Proof.
  intros E.
  destruct (is_valid_email email) eqn:V.
  2:{ rewrite process_invalid in E by exact V. injection E as <- <- <-. left. repeat split; auto. }
  destruct (decide (email ∈ seen st)) as [Hs|Hs].
  { rewrite process_duplicate in E by assumption. injection E as <- <- <-.
    right. left. repeat split; auto. }
  rewrite process_fresh in E by assumption.
  destruct (consent_gate a r) as [e|[|]].
  - injection E as <- <- <-. right. right. right. left.
    repeat split; auto. exists e. auto.
  - pose proof (deliver_no_gate_skip a w su (seen_add email (count_total st))
                  email name r) as G.
    rewrite E in G. right. right. right. right. repeat split; auto.
  - injection E as <- <- <-. right. right. left. repeat split; auto.
Qed.

Lemma process_transport a w su st email name r ev st' c x :
  process a w su st (email, name, r) = (ev, st', c) ->
  In x (transport_addresses ev) ->
  x = email /\ is_valid_email email = true /\ consent_gate a r = inr true.
Proof.
  intros E I.
  pose proof (process_step a w su st email name r) as H. rewrite E in H.
  simpl in H. apply step_transport in H.
  destruct H as [T | (T & _ & V)]; [rewrite T in I; destruct I|].
  rewrite T in I. destruct I as [<- | []].
  split; [reflexivity|]. split; [exact V|].
  destruct (process_gates _ _ _ _ _ _ _ _ _ _ E)
    as [(_ & -> & _) | [(_ & _ & -> & _) | [(_ & _ & _ & -> & _)
        | [(_ & _ & _ & -> & _) | (_ & _ & G & _)]]]];
    try discriminate T. exact G.
Qed.

Lemma consent_true_affirmative a r :
  consent_gate a r = inr true ->
  Args.require_consent a = true -> csv_mode a = true ->
  exists v, row_get r (Args.consent_field a) = PStr v
            /\ PyStr.in_tuple (PyStr.lower (PyStr.strip v)) affirmative = true.
Proof.
  unfold consent_gate. intros G R C. rewrite R, C in G.
  destruct (row_truthy r) eqn:Tr.
  - destruct (row_get r (Args.consent_field a)) as [v|]; [| discriminate].
    exists v. split; [reflexivity|].
    destruct (PyStr.in_tuple (PyStr.lower (PyStr.strip v)) affirmative) eqn:A;
      [reflexivity|].
    cbn [val_strip] in G. cbv zeta in G. rewrite A in G. discriminate.
  - vm_compute in G. discriminate.
Qed.

End ComplianceFacts.
Import ComplianceFacts.

(** X16. Every address handed to the transport is a valid address of a
    recipient that passed the consent gate; with consent required and a
    CSV source, the row of that recipient holds an affirmative consent
    value. *)
Theorem transport_gets_consenting_recipients_only :
  forall a w su items st evs st' t x,
    loop a w su st items = (evs, st', t) ->
    In x (transport_addresses (concat evs)) ->
    is_valid_email x = true
    /\ exists name r,
         In (inr (x, name, r)) items
         /\ consent_gate a r = inr true
         /\ (Args.require_consent a = true -> csv_mode a = true ->
             exists v, row_get r (Args.consent_field a) = PStr v
                       /\ PyStr.in_tuple (PyStr.lower (PyStr.strip v))
                            affirmative = true).
Proof.
  intros a w su items st evs st' t x L. revert x. revert items st evs st' t L.
  apply (loop_induction a w su (fun st items evs st' t =>
           forall x, In x (transport_addresses (concat evs)) ->
             is_valid_email x = true
             /\ exists name r,
                  In (inr (x, name, r)) items
                  /\ consent_gate a r = inr true
                  /\ (Args.require_consent a = true -> csv_mode a = true ->
                      exists v, row_get r (Args.consent_field a) = PStr v
                        /\ PyStr.in_tuple (PyStr.lower (PyStr.strip v))
                             affirmative = true))).
  - intros st x [].
  - intros st e items x [].
  - intros st email name r items ev st1 evs st2 t Pr _ _ IH x I.
    change (concat (ev :: evs)) with (ev ++ concat evs) in I.
    rewrite transport_app in I. apply in_app_iff in I as [I | I].
    + destruct (process_transport _ _ _ _ _ _ _ _ _ _ _ Pr I) as (-> & V & G).
      split; [exact V|]. exists name, r. split; [left; reflexivity|].
      split; [exact G|]. apply consent_true_affirmative. exact G.
    + destruct (IH x I) as (V & n & r' & I' & G & A).
      split; [exact V|]. exists n, r'. split; [right; exact I' | auto].
  - intros st email name r items ev st1 t Pr _ x I.
    simpl concat in I. rewrite app_nil_r in I.
    destruct (process_transport _ _ _ _ _ _ _ _ _ _ _ Pr I) as (-> & V & G).
    split; [exact V|]. exists name, r. split; [left; reflexivity|].
    split; [exact G|]. apply consent_true_affirmative. exact G.
Qed.

Lemma transport_gets_consenting_recipients_only_witness :
  let a := example_args "" (Some "list.csv") None false None in
  let items :=
    map (recipient_of_row a)
      [example_row "a@b.com" "Yes"; example_row "c@d.com" "no"] in
  let w := example_world [] true true in
  let su := example_setup a in
  let run := loop a w su initial items in
  run = (fst (fst run), snd (fst run), snd run)
  /\ In "a@b.com" (transport_addresses (concat (fst (fst run))))
  /\ is_valid_email "a@b.com" = true.
Proof.
  intros a items w su run.
  assert (E : run = (fst (fst run), snd (fst run), snd run))
    by (destruct run as [[evs st] t]; reflexivity).
  assert (I : In "a@b.com" (transport_addresses (concat (fst (fst run)))))
    by (vm_compute; left; reflexivity).
  split; [exact E|]. split; [exact I|].
  exact (proj1 (transport_gets_consenting_recipients_only a w su items initial
                  (fst (fst run)) (snd (fst run)) (snd run) "a@b.com" E I)).
Defined.

(** X17. A dry run contacts nothing: whatever the credentials, the server
    and the rate, its log has no credential or connection failure, no send,
    no pause and no quit; and when it returns, every recipient was counted
    once, as sent or as skipped. *)
Theorem dry_run_contacts_nothing :
  forall a w ev st t,
    Args.dry_run a = true ->
    send_messages a w = (ev, st, t) ->
    forallb (fun e => negb (live_event e)) ev = true
    /\ transport_addresses ev = []
    /\ pauses ev = []
    /\ (t = Completed -> sent st + skipped st = total st).
Proof.
  intros a w ev st t D E.
  assert (Lv : forallb (fun e => negb (live_event e)) ev = true
               /\ (t = Completed -> sent st + skipped st = total st)).
  { destruct (send_messages_cases _ _ _ _ _ E)
      as [(-> & T & _ & Lv & _) | (su & items & evs & _ & _ & L & ->)].
    - split; [exact (Lv D) | contradiction].
    - rewrite D. split.
      + rewrite !List.forallb_app, (loop_dry _ _ _ _ _ _ _ _ D L).
        destruct t; reflexivity.
      + intros ->.
        pose proof (loop_tally_dry _ _ _ _ _ _ _ _ D L eq_refl) as T.
        rewrite (loop_total _ _ _ _ _ _ _ L). cbn in T |- *. lia. }
  destruct Lv as [Lv T]. split; [exact Lv|].
  split; [| split; [| exact T]].
  - clear -Lv. induction ev as [|e ev IH]; [reflexivity|].
    simpl in Lv. apply andb_true_iff in Lv as [He Lv].
    unfold transport_addresses in *. simpl. rewrite (IH Lv).
    destruct e; try discriminate; reflexivity.
  - clear -Lv. induction ev as [|e ev IH]; [reflexivity|].
    simpl in Lv. apply andb_true_iff in Lv as [He Lv].
    unfold pauses in *. simpl. rewrite (IH Lv).
    destruct e; try discriminate; reflexivity.
Qed.

Lemma dry_run_contacts_nothing_witness :
  let a := Args.mk "" None (Some "list.csv") "email" "name" "consent" true
             "Hello from Example" None "Example Team" None None None None
             [] [] None None None None (Some 120%float) true in
  let w := example_world [example_row "a@b.com" "yes"; example_row "bad" "yes"]
             false true in
  let run := send_messages a w in
  Args.dry_run a = true
  /\ run = (fst (fst run), snd (fst run), snd run)
  /\ snd run = Completed
  /\ transport_addresses (fst (fst run)) = [].
Proof.
  intros a w run.
  assert (E : run = (fst (fst run), snd (fst run), snd run))
    by (destruct run as [[ev st] t]; reflexivity).
  split; [reflexivity|]. split; [exact E|]. split; [vm_compute; reflexivity|].
  exact (proj1 (proj2 (dry_run_contacts_nothing a w (fst (fst run))
                         (snd (fst run)) (snd run) eq_refl E))).
Defined.

(** X18. A recipient stopped at a gate touches nothing: when the log of one
    pass has an "invalid", "duplicate" or "no consent" line, that line is
    all the pass did, with no file read, no message file and no send; the
    recipient is counted once in the total and once as skipped, and the
    loop goes on. *)
Theorem skipped_recipient_touches_nothing :
  forall a w su st email name r ev st' c e,
    process a w su st (email, name, r) = (ev, st', c) ->
    In e ev ->
    gate_skip e = true ->
    ev = [e] /\ c = Next
    /\ total st' = S (total st) /\ sent st' = sent st
    /\ skipped st' = S (skipped st)
    /\ ((e = LogInvalid email /\ is_valid_email email = false)
        \/ (e = LogDuplicate email /\ is_valid_email email = true
            /\ (email ∈ seen st))
        \/ (e = LogNoConsent email /\ is_valid_email email = true
            /\ (email ∉ seen st) /\ consent_gate a r = inr false)).
Proof.
  intros a w su st email name r ev st' c e E I G.
  destruct (process_gates _ _ _ _ _ _ _ _ _ _ E)
    as [(V & -> & -> & ->) | [(V & Sn & -> & -> & ->)
        | [(V & Sn & Cg & -> & -> & ->) | [(_ & _ & _ & -> & _)
        | (_ & _ & _ & _ & Ng)]]]].
  - destruct I as [<- | []]. repeat split; auto.
  - destruct I as [<- | []]. repeat split; auto.
  - destruct I as [<- | []]. repeat split; auto 6.
  - destruct I.
  - rewrite forallb_forall in Ng. specialize (Ng e I).
    rewrite G in Ng. discriminate.
Qed.

Lemma skipped_recipient_touches_nothing_witness :
  let a := example_args "" (Some "list.csv") None false (Some "out") in
  let w := example_world [] true true in
  let run := process a w (example_setup a) initial
               ("c@d.com", "", example_row "c@d.com" "no") in
  run = (fst (fst run), snd (fst run), snd run)
  /\ In (LogNoConsent "c@d.com") (fst (fst run))
  /\ fst (fst run) = [LogNoConsent "c@d.com"].
Proof.
  intros a w run.
  assert (E : run = (fst (fst run), snd (fst run), snd run))
    by (destruct run as [[ev st] c]; reflexivity).
  assert (I : In (LogNoConsent "c@d.com") (fst (fst run)))
    by (vm_compute; left; reflexivity).
  split; [exact E|]. split; [exact I|].
  exact (proj1 (skipped_recipient_touches_nothing a w (example_setup a) initial
                  "c@d.com" "" (example_row "c@d.com" "no")
                  (fst (fst run)) (snd (fst run)) (snd run)
                  (LogNoConsent "c@d.com") E I eq_refl)).
Defined.

Module StopFacts.

Lemma build_for_raises a w su st email tb hb e :
  build_for a w su st email tb hb = inl e ->
  from_header w (Args.from_name a) (from_addr_of a su) = inl e.
Proof.
  intros B.
  destruct (from_header w (Args.from_name a) (from_addr_of a su)) as [e'|from] eqn:F.
  - unfold build_for in B.
    rewrite (build_message_raises _ _ _ _ _ _ _ _ _ _ _ _ _ _ F) in B.
    congruence.
  - destruct (build_for_spec a w su st email tb hb from F)
      as (ev & msg & cids & E & _).
    rewrite E in B. discriminate.
Qed.

Lemma deliver_stop a w su st email name r ev st' t :
  deliver a w su st (email, name, r) = (ev, st', Stop t) ->
  st' = st /\ t <> Completed
  /\ (ev = [] \/ (exists m, ev = [LogMissingVariable m] /\ t = SysExit))
  /\ (forall tb hb,
        render_or_empty (su_template_text su) (build_variables email name r)
        = RText tb ->
        render_or_empty (su_template_html su) (build_variables email name r)
        = RText hb ->
        ev = []
        /\ exists e, from_header w (Args.from_name a) (from_addr_of a su) = inl e
                     /\ t = Uncaught e).
Proof.
  unfold deliver.
  destruct (render_or_empty (su_template_text su) _) as [tb|m|e|].
  2-4: intros E; injection E as <- <- <-;
       (split; [reflexivity|]; split; [discriminate|]; split; [eauto|];
        intros; congruence).
  destruct (render_or_empty (su_template_html su) _) as [hb|m|e|].
  2-4: intros E; injection E as <- <- <-;
       (split; [reflexivity|]; split; [discriminate|]; split; [eauto|];
        intros; congruence).
  destruct (build_for a w su st email tb hb) as [e|[evb [msg cids]]] eqn:B.
  - intros E. injection E as <- <- <-.
    split; [reflexivity|]. split; [discriminate|]. split; [auto|].
    intros tb' hb' _ _. split; [reflexivity|]. exists e.
    split; [| reflexivity]. exact (build_for_raises _ _ _ _ _ _ _ _ B).
  - destruct (dispatch a w su st email msg). discriminate.
Qed.

Lemma deliver_next a w su st email name r tb hb from :
  render_or_empty (su_template_text su) (build_variables email name r)
  = RText tb ->
  render_or_empty (su_template_html su) (build_variables email name r)
  = RText hb ->
  from_header w (Args.from_name a) (from_addr_of a su) = inr from ->
  snd (deliver a w su st (email, name, r)) = Next.
Proof.
  intros T H F.
  destruct (build_for_spec a w su st email tb hb from F)
    as (ev & msg & cids & E & _).
  rewrite (deliver_rendered _ _ _ _ _ _ _ _ _ _ _ _ T H E). reflexivity.
Qed.

End StopFacts.
Import StopFacts.

(** X19. A recipient ends the run only before anything is built: the
    address is valid and new, it has been recorded as seen and counted in
    the total but neither as sent nor as skipped, nothing was read, written
    or sent, and the cause is the consent value that cannot be stripped, a
    template that cannot be rendered, or the sender header that cannot be
    made.  Once the templates render and the header is made, the loop goes
    on whatever the attachments, the message file, the server and the
    pause do. *)
Theorem run_ends_only_before_building :
  (forall a w su st email name r ev st' t,
      process a w su st (email, name, r) = (ev, st', Stop t) ->
      is_valid_email email = true
      /\ (email ∉ seen st)
      /\ st' = seen_add email (count_total st)
      /\ t <> Completed
      /\ (ev = [] \/ (exists m, ev = [LogMissingVariable m] /\ t = SysExit))
      /\ ((exists e, consent_gate a r = inl e /\ t = Uncaught e)
          \/ (consent_gate a r = inr true
              /\ forall tb hb,
                   render_or_empty (su_template_text su)
                     (build_variables email name r) = RText tb ->
                   render_or_empty (su_template_html su)
                     (build_variables email name r) = RText hb ->
                   exists e,
                     from_header w (Args.from_name a) (from_addr_of a su) = inl e
                     /\ t = Uncaught e)))
  /\ (forall a w su st email name r b tb hb from,
        consent_gate a r = inr b ->
        render_or_empty (su_template_text su) (build_variables email name r)
        = RText tb ->
        render_or_empty (su_template_html su) (build_variables email name r)
        = RText hb ->
        from_header w (Args.from_name a) (from_addr_of a su) = inr from ->
        snd (process a w su st (email, name, r)) = Next).
Proof.
  split.
  - intros a w su st email name r ev st' t E.
    destruct (process_gates _ _ _ _ _ _ _ _ _ _ E)
      as [(_ & _ & _ & C) | [(_ & _ & _ & _ & C) | [(_ & _ & _ & _ & _ & C)
          | [(V & Sn & (e & Cg & C) & -> & ->) | (V & Sn & Cg & D & _)]]]];
      try discriminate C.
    + injection C as ->.
      split; [exact V|]. split; [exact Sn|]. split; [reflexivity|].
      split; [discriminate|]. split; [left; reflexivity|].
      left. exists e. auto.
    + destruct (deliver_stop _ _ _ _ _ _ _ _ _ _ D) as (-> & T & Ev & F).
      split; [exact V|]. split; [exact Sn|]. split; [reflexivity|].
      split; [exact T|]. split; [exact Ev|].
      right. split; [exact Cg|].
      intros tb hb Rt Rh. exact (proj2 (F tb hb Rt Rh)).
  - intros a w su st email name r b tb hb from Cg Rt Rh F.
    destruct (is_valid_email email) eqn:V.
    2:{ rewrite process_invalid by exact V. reflexivity. }
    destruct (decide (email ∈ seen st)) as [Hs|Hs].
    { rewrite process_duplicate by assumption. reflexivity. }
    rewrite process_fresh, Cg by assumption.
    destruct b; [| reflexivity].
    exact (deliver_next _ _ _ _ _ _ _ _ _ _ Rt Rh F).
Qed.

Lemma run_ends_only_before_building_witness :
  let a := example_args "" (Some "list.csv") None false (Some "out") in
  let w := example_world [] true true in
  let su := mkSetup (Some "user") "Dear {first}" "" 0%float in
  let run := process a w su initial ("a@b.com", "", example_row "a@b.com" "yes") in
  run = (fst (fst run), snd (fst run), Stop SysExit)
  /\ fst (fst run) = [LogMissingVariable "first"]
  /\ snd (fst run) = seen_add "a@b.com" (count_total initial).
Proof.
  intros a w su run.
  assert (E : run = (fst (fst run), snd (fst run), Stop SysExit))
    by (vm_compute; reflexivity).
  split; [exact E|]. split; [vm_compute; reflexivity|].
  exact (proj1 (proj2 (proj2
    (proj1 run_ends_only_before_building a w su initial "a@b.com" ""
       (example_row "a@b.com" "yes") (fst (fst run)) (snd (fst run)) SysExit E)))).
Defined.

Module StartFacts.


Lemma body_In ev e : forallb body_event ev = true -> In e ev -> body_event e = true.
Proof. intros H I. rewrite forallb_forall in H. exact (H e I). Qed.

Lemma startup_In ev e :
  forallb startup_event ev = true -> In e ev -> startup_event e = true.
Proof. intros H I. rewrite forallb_forall in H. exact (H e I). Qed.

(** The log of a run that got to the loop: the line of the mode, the lines
    of the loop body, and the closing lines. *)
Lemma run_In a evs closing e :
  In e ((if Args.dry_run a then [LogDryRunMode] else []) ++ concat evs ++ closing) ->
  (e = LogDryRunMode /\ Args.dry_run a = true)
  \/ In e (concat evs) \/ In e closing.
Proof.
  intros I. apply in_app_iff in I as [I | I].
  - destruct (Args.dry_run a); [| destruct I].
    destruct I as [<- | []]. auto.
  - apply in_app_iff in I. tauto.
Qed.

Lemma closing_In a st t e :
  In e (match t with
        | Completed =>
            (if Args.dry_run a then [] else [SmtpQuit])
            ++ [LogDone (total st) (sent st) (skipped st)]
        | _ => []
        end) ->
  t = Completed
  /\ ((e = SmtpQuit /\ Args.dry_run a = false)
      \/ e = LogDone (total st) (sent st) (skipped st)).
Proof.
  destruct t; try (intros []). intros I. split; [reflexivity|].
  apply in_app_iff in I as [I | [<- | []]]; [| auto].
  destruct (Args.dry_run a); [destruct I|]. destruct I as [<- | []]. auto.
Qed.

End StartFacts.
Import StartFacts.



(** X21. The connection is closed exactly when a live run returns: a quit
    is in the log if and only if the run was live and the loop ran to its
    end, and then it comes once, after every line of the loop and right
    before the summary; a run ended by exit or by an exception after the
    connection was made never quits. *)
Theorem quit_only_when_live_run_returns :
  forall a w ev st t,
    send_messages a w = (ev, st, t) ->
    (In SmtpQuit ev <-> t = Completed /\ Args.dry_run a = false)
    /\ (t = Completed -> Args.dry_run a = false ->
        exists pre,
          ev = pre ++ [SmtpQuit; LogDone (total st) (sent st) (skipped st)]
          /\ ~ In SmtpQuit pre).
Proof.
  intros a w ev st t E.
  destruct (send_messages_cases _ _ _ _ _ E)
    as [(-> & T & S & _) | (su & items & evs & _ & _ & L & ->)].
  - split.
    + split; [| intros [C _]; contradiction].
      intros I. pose proof (startup_In _ _ S I). discriminate.
    + intros C. contradiction.
  - assert (B : ~ In SmtpQuit (concat evs)).
    { intros I. pose proof (body_In _ _ (loop_body _ _ _ _ _ _ _ _ L) I).
      discriminate. }
    split.
    + split.
      * intros I. apply run_In in I as [[Q _] | [I | I]];
          [discriminate | contradiction |].
        apply closing_In in I as [C [[_ D] | Q]]; [auto | discriminate].
      * intros [-> ->]. apply in_app_iff. right. apply in_app_iff. right.
        left. reflexivity.
    + intros -> ->. exists (concat evs). split; [reflexivity | exact B].
Qed.

Lemma quit_only_when_live_run_returns_witness :
  let a := example_args "a@b.com" None None false None in
  let w := example_world [] false true in
  let run := send_messages a w in
  run = (fst (fst run), snd (fst run), snd run)
  /\ snd run = Completed
  /\ In SmtpQuit (fst (fst run)).
Proof.
  intros a w run.
  assert (E : run = (fst (fst run), snd (fst run), snd run))
    by (destruct run as [[ev st] t]; reflexivity).
  split; [exact E|]. split; [vm_compute; reflexivity|].
  apply (proj2 (proj1 (quit_only_when_live_run_returns a w (fst (fst run))
                         (snd (fst run)) (snd run) E))).
  split; vm_compute; reflexivity.
Defined.

Module SeqFacts.

(** The loop over a list is the loop over a prefix, then over what follows
    from the state reached, when the prefix ran to its end. *)
Lemma loop_app a w su : forall pre post st,
  loop a w su st (pre ++ post) =
  let '(evs, st1, t) := loop a w su st pre in
  match t with
  | Completed =>
      let '(evs2, st2, t2) := loop a w su st1 post in (evs ++ evs2, st2, t2)
  | _ => (evs, st1, t)
  end.
Proof.
  induction pre as [|[e|[[email name] r]] pre IH]; intros post st.
  - simpl. destruct (loop a w su st post) as [[evs2 st2] t2]. reflexivity.
  - reflexivity.
  - change ((inr (email, name, r) :: pre) ++ post)
      with (inr (email, name, r) :: (pre ++ post) : list (exn + recipient)).
    rewrite !loop_cons.
    pose proof (process_step a w su st email name r) as H.
    destruct (process a w su st (email, name, r)) as [[ev st1] c].
    simpl in H. destruct c as [|t0].
    + rewrite IH. destruct (loop a w su st1 pre) as [[evs1 st2] t1].
      destruct t1; try reflexivity.
      destruct (loop a w su st2 post) as [[evs2 st3] t2]. reflexivity.
    + pose proof (step_not_completed _ _ _ _ _ _ _ _ H).
      destruct t0; [contradiction | reflexivity..].
Qed.

Lemma recipient_of_row_raises a r :
  row_get r (if PyStr.truthy (Args.email_field a)
             then Args.email_field a else "email") = PNone
  \/ row_get r (if PyStr.truthy (Args.name_field a)
                then Args.name_field a else "name") = PNone ->
  recipient_of_row a r = inl AttributeError.
Proof.
  unfold recipient_of_row. intros [-> | H]; [reflexivity|].
  rewrite H.
  match goal with |- match ?x with _ => _ end = _ =>
    destruct x as [e|x'] eqn:V end; [| reflexivity].
  unfold val_strip in V.
  match type of V with match ?v with _ => _ end = _ => destruct v end;
    congruence.
Qed.

End SeqFacts.
Import SeqFacts.

(** X22. A CSV row without a value in the address or the name column ends
    the run by the exception of [None.strip()], when the generator gets to
    it: the rows before it have been processed, with their sends done and
    their counters kept, and the rows after it are never looked at. *)
Theorem short_row_ends_run_after_earlier_rows :
  forall a w su st rows1 r rows2 evs st1,
    loop a w su st (map (recipient_of_row a) rows1) = (evs, st1, Completed) ->
    row_get r (if PyStr.truthy (Args.email_field a)
               then Args.email_field a else "email") = PNone
    \/ row_get r (if PyStr.truthy (Args.name_field a)
                  then Args.name_field a else "name") = PNone ->
    loop a w su st (map (recipient_of_row a) (rows1 ++ r :: rows2))
    = (evs, st1, Uncaught AttributeError).
Proof.
  intros a w su st rows1 r rows2 evs st1 L N.
  rewrite map_app, loop_app, L. simpl map.
  rewrite (recipient_of_row_raises a r N). simpl. rewrite app_nil_r. reflexivity.
Qed.

Lemma short_row_ends_run_after_earlier_rows_witness :
  let a := example_args "" (Some "list.csv") None false None in
  let w := example_world [] true true in
  let su := example_setup a in
  let rows1 := [example_row "a@b.com" "yes"] in
  let r := mkRow [("email", PStr "c@d.com"); ("name", PNone)] false in
  let run := loop a w su initial (map (recipient_of_row a) rows1) in
  run = (fst (fst run), snd (fst run), Completed)
  /\ row_get r "name" = PNone
  /\ loop a w su initial
       (map (recipient_of_row a) (rows1 ++ r :: [example_row "e@f.com" "yes"]))
     = (fst (fst run), snd (fst run), Uncaught AttributeError).
Proof.
  intros a w su rows1 r run.
  assert (E : run = (fst (fst run), snd (fst run), Completed))
    by (vm_compute; reflexivity).
  split; [exact E|]. split; [reflexivity|].
  exact (short_row_ends_run_after_earlier_rows a w su initial rows1 r
           [example_row "e@f.com" "yes"] (fst (fst run)) (snd (fst run)) E
           (or_intror eq_refl)).
Defined.

Module SingleFacts.

Lemma consent_gate_single a r :
  csv_mode a = false -> consent_gate a r <> inr false.
Proof.
  unfold consent_gate. intros C. rewrite C.
  destruct (Args.require_consent a); [| discriminate].
  destruct (val_strip _); discriminate.
Qed.

Lemma startup_no_transport ev :
  forallb startup_event ev = true -> transport_addresses ev = [].
Proof.
  induction ev as [|e ev IH]; [reflexivity|]. simpl. intros H.
  apply andb_true_iff in H as [He H].
  unfold transport_addresses in *. simpl. rewrite (IH H).
  destruct e; try discriminate; reflexivity.
Qed.

Lemma loop_single a w su st r evs st' t :
  loop a w su st [inr r] = (evs, st', t) ->
  exists ev c, process a w su st r = (ev, st', c) /\ evs = [ev].
Proof.
  destruct r as [[email name] row]. rewrite loop_cons.
  destruct (process a w su st (email, name, row)) as [[ev st1] c].
  destruct c as [|t0]; simpl; intros E; injection E as <- <- <-; eauto.
Qed.

End SingleFacts.
Import SingleFacts.

(** X23. A run for the single recipient of [--to] enters the loop once at
    most, for the address as it was given, reads no CSV file, never logs a
    duplicate or a missing consent, and hands no other address to the
    transport. *)
Theorem single_recipient_run :
  forall a w ev st t,
    csv_mode a = false ->
    send_messages a w = (ev, st, t) ->
    total st <= 1
    /\ iter_recipients a w
       = Some [inr (Args.to a, str_or_empty (Args.name a), empty_row)]
    /\ (forall x, ~ In (LogDuplicate x) ev /\ ~ In (LogNoConsent x) ev)
    /\ (forall x, In x (transport_addresses ev) -> x = Args.to a).
Proof.
  intros a w ev st t C E.
  assert (I : iter_recipients a w
              = Some [inr (Args.to a, str_or_empty (Args.name a), empty_row)])
    by (unfold iter_recipients; rewrite C; reflexivity).
  destruct (send_messages_cases _ _ _ _ _ E)
    as [(-> & _ & S & _) | (su & items & evs & I' & _ & L & ->)].
  - split; [simpl; lia|]. split; [exact I|]. split.
    + intros x. split; intros K; pose proof (startup_In _ _ S K); discriminate.
    + intros x K. rewrite (startup_no_transport _ S) in K. destruct K.
  - rewrite I in I'. injection I' as <-.
    destruct (loop_single _ _ _ _ _ _ _ _ L) as (ev1 & c & Pr & ->).
    assert (Cc : concat [ev1] = ev1) by (simpl; apply app_nil_r).
    pose proof (process_step a w su initial (Args.to a)
                  (str_or_empty (Args.name a)) empty_row) as H.
    rewrite Pr in H. simpl in H.
    assert (G : forall x, ~ In (LogDuplicate x) ev1 /\ ~ In (LogNoConsent x) ev1).
    { intros x.
      destruct (process_gates _ _ _ _ _ _ _ _ _ _ Pr)
        as [(_ & -> & _) | [(_ & Sn & _) | [(_ & _ & Cg & _)
            | [(_ & _ & _ & -> & _) | (_ & _ & _ & _ & Ng)]]]].
      - split; intros [K | []]; discriminate.
      - simpl in Sn. apply not_elem_of_empty in Sn. destruct Sn.
      - destruct (consent_gate_single a empty_row C Cg).
      - split; intros [].
      - rewrite forallb_forall in Ng.
        split; intros K; specialize (Ng _ K); discriminate. }
    split; [| split; [exact I | split]].
    + destruct (step_counts _ _ _ _ _ _ _ _ H) as (T & _). rewrite T.
      simpl. lia.
    + intros x. split; intros K.
      * apply run_In in K as [[Q _] | [K | K]]; [discriminate | |].
        -- rewrite Cc in K. exact (proj1 (G x) K).
        -- apply closing_In in K as [_ [[Q _] | Q]]; discriminate.
      * apply run_In in K as [[Q _] | [K | K]]; [discriminate | |].
        -- rewrite Cc in K. exact (proj2 (G x) K).
        -- apply closing_In in K as [_ [[Q _] | Q]]; discriminate.
    + intros x K. rewrite Cc, !transport_app in K.
      apply in_app_iff in K as [K | K].
      { destruct (Args.dry_run a); destruct K. }
      apply in_app_iff in K as [K | K].
      * exact (proj1 (process_transport _ _ _ _ _ _ _ _ _ _ _ Pr K)).
      * destruct t; try destruct K.
        destruct (Args.dry_run a); simpl in K; destruct K.
Qed.

Lemma single_recipient_run_witness :
  let a := example_args "a@b.com" None None false None in
  let w := example_world [] true true in
  let run := send_messages a w in
  csv_mode a = false
  /\ run = (fst (fst run), snd (fst run), snd run)
  /\ transport_addresses (fst (fst run)) = ["a@b.com"]
  /\ total (snd (fst run)) <= 1.
Proof.
  intros a w run.
  assert (E : run = (fst (fst run), snd (fst run), snd run))
    by (destruct run as [[ev st] t]; reflexivity).
  split; [reflexivity|]. split; [exact E|]. split; [vm_compute; reflexivity|].
  exact (proj1 (single_recipient_run a w (fst (fst run)) (snd (fst run))
                  (snd run) eq_refl E)).
Defined.
